(** * decyb GPX converter: a shallow embedding of [json2gpx.js] and
      [json2gpx_with_overlay.js], with the properties of the converter, the
      track extractor and the XML escaper.

    Layout
    - [Text]      : JavaScript strings and the string built-ins the code uses;
    - [Js]        : integers, [Date], [Array.prototype.sort], [forEach], and
                    the class [JsNumbers] of what the code observes of doubles;
    - [Regex]     : the backtracking matcher behind the four patterns of
                    [parseGpxTrack], and why its loops end;
    - [Converter] : [escapeXml], [timestampToISO], [generateGPX],
                    [generateGPXWithOverlays], [parseGpxTrack], then the
                    output document the properties are stated on;
    - [Sample]    : a runtime and sample documents to run the code on;
    - the facts, one section per subject, and the runs on the sample.

    Conventions.  A JavaScript string is a [string]: the code compares
    characters with ASCII characters only and copies every other one, which
    reads the same on UTF-16 code units and on the bytes of UTF-8.  Boat ids
    and moment timestamps are integers ([Z]), printed in decimal as
    JavaScript prints integers below 10^21.  All other numbers (coordinates,
    distance to finish, ...) are IEEE doubles in the program; they are kept
    abstract in the class [JsNumbers], which lists the observations the code
    makes of them.  An optional field is an [option], [None] for a field
    that is not defined.  A function that can throw returns an [option],
    [None] for the exception.  An array that the code updates in place is
    returned next to the result. *)

From Stdlib Require Import ZArith String Ascii List DecimalString Lia.
From Stdlib Require Import Sorting.Sorted Sorting.Permutation.
From stdpp Require Import base option list gmap strings.
From Equations Require Import Equations.

Open Scope Z_scope.

(* ===================================================================== *)
(** ** Text *)
(* ===================================================================== *)

Module Text.

(** The line feed of the template literals, and the double quote. *)
Definition nl : string := String (ascii_of_nat 10) EmptyString.
Definition dq : string := String (ascii_of_nat 34) EmptyString.

(** [text.replace(/c/g, rep)] for a single-character pattern [c]. *)
Fixpoint replaceAll (c : ascii) (rep : string) (text : string) : string :=
  match text with
  | EmptyString => EmptyString
  | String x rest =>
      if Ascii.eqb x c then rep +:+ replaceAll c rep rest
      else String x (replaceAll c rep rest)
  end.

(** One-pass substitution: every character [x] becomes [f x]. *)
Fixpoint substChars (f : ascii → string) (text : string) : string :=
  match text with
  | EmptyString => EmptyString
  | String x rest => f x +:+ substChars f rest
  end.

(** Concatenation of a list of pieces. *)
Fixpoint concatText (pieces : list string) : string :=
  match pieces with
  | [] => EmptyString
  | p :: ps => p +:+ concatText ps
  end.

(** [c] occurs in [text]. *)
Fixpoint occurs (c : ascii) (text : string) : bool :=
  match text with
  | EmptyString => false
  | String x rest => Ascii.eqb x c || occurs c rest
  end.

(** [needle] is a prefix of [text]; [needle] occurs somewhere in [text]. *)
Fixpoint startsWith (needle text : string) : bool :=
  match needle, text with
  | EmptyString, _ => true
  | String _ _, EmptyString => false
  | String a n', String b t' => Ascii.eqb a b && startsWith n' t'
  end.

Fixpoint includes (needle text : string) : bool :=
  startsWith needle text ||
  match text with
  | EmptyString => false
  | String _ rest => includes needle rest
  end.

(** [o || dflt] for an optional string [o]: [undefined] and the empty
    string are falsy. *)
Definition orElse (o : option string) (dflt : string) : string :=
  match o with
  | Some (String c s) => String c s
  | _ => dflt
  end.

End Text.
Import Text.

(* ===================================================================== *)
(** ** JavaScript built-ins *)
(* ===================================================================== *)

Module Js.

(** [String(n)] of an integer. *)
Definition Z_toString (z : Z) : string := NilZero.string_of_int (Z.to_int z).

(** Left padding with zeros, as [toISOString] pads its fields. *)
Fixpoint zeros (n : nat) : string :=
  match n with O => EmptyString | S k => String "0"%char (zeros k) end.

Definition pad (width : nat) (z : Z) : string :=
  let s := Z_toString z in
  zeros (width - String.length s) +:+ s.

(** Days since 1970-01-01 to the proleptic Gregorian (year, month, day). *)
Definition civilFromDays (days : Z) : Z * Z * Z :=
  let z := days + 719468 in
  let era := z / 146097 in
  let doe := z - era * 146097 in
  let yoe := (doe - doe / 1460 + doe / 36524 - doe / 146096) / 365 in
  let doy := doe - (365 * yoe + yoe / 4 - yoe / 100) in
  let mp := (5 * doy + 2) / 153 in
  let d := doy - (153 * mp + 2) / 5 + 1 in
  let m := if mp <? 10 then mp + 3 else mp - 9 in
  let y := yoe + era * 400 + (if m <=? 2 then 1 else 0) in
  (y, m, d).

(** [TimeClip]: the time value of [new Date(ms)], [None] standing for the
    invalid date (NaN). *)
Definition timeClip (ms : Z) : option Z :=
  if Z.abs ms <=? 8640000000000000 then Some ms else None.

(** [Date.prototype.toISOString] on a valid time value. *)
Definition isoOfTimeValue (ms : Z) : string :=
  let '(y, m, d) := civilFromDays (ms / 86400000) in
  let t := ms mod 86400000 in
  let year :=
    if (0 <=? y) && (y <=? 9999) then pad 4 y
    else (if y <? 0 then "-" else "+") +:+ pad 6 (Z.abs y) in
  year +:+ "-" +:+ pad 2 m +:+ "-" +:+ pad 2 d +:+ "T" +:+
  pad 2 (t / 3600000) +:+ ":" +:+ pad 2 (t / 60000 mod 60) +:+ ":" +:+
  pad 2 (t / 1000 mod 60) +:+ "." +:+ pad 3 (t mod 1000) +:+ "Z".

(** [toISOString] throws a RangeError on the invalid date. *)
Definition Date_toISOString (timeValue : option Z) : option string :=
  isoOfTimeValue <$> timeValue.

(** [array.forEach(callback)] where the callback updates the variables it
    closes over (the state [S]) and may throw. *)
Fixpoint forEach {A S : Type} (callback : S → A → option S)
    (array : list A) (s : S) : option S :=
  match array with
  | [] => Some s
  | x :: rest => s' ← callback s x; forEach callback rest s'
  end.

(** [Array.prototype.sort(compare)].  ECMAScript requires the sort to be
    stable and leaves the sequence of comparisons open; for a consistent
    comparator the result does not depend on it.  The model is the stable
    insertion sort: an element goes in front of the first element of the
    sorted rest that does not have to precede it. *)
Section Sort.
Context {A : Type} (compare : A → A → Z).

Fixpoint insertSorted (x : A) (sorted : list A) : list A :=
  match sorted with
  | [] => [x]
  | y :: rest =>
      if compare x y <=? 0 then x :: y :: rest
      else y :: insertSorted x rest
  end.

Fixpoint Array_sort (array : list A) : list A :=
  match array with
  | [] => []
  | x :: rest => insertSorted x (Array_sort rest)
  end.
End Sort.

(** The observations the converter and the extractor make of IEEE doubles
    and of the [Date] parser. *)
Class JsNumbers := {
  Num : Type;
  (** [String(x)], as in a template literal. *)
  Num_toString : Num → string;
  (** [ToBoolean(x)]: false on 0, -0 and NaN. *)
  Num_truthy : Num → bool;
  (** time value of [new Date(x * 1000)], [None] for the invalid date. *)
  Num_timeValue : Num → option Z;
  (** [parseFloat(s)]. *)
  parseFloat : string → Num;
  (** [new Date(s).getTime() / 1000]. *)
  Date_parseSeconds : string → Num;
}.

End Js.
Import Js.

(* ===================================================================== *)
(** ** Regular expressions *)
(* ===================================================================== *)

(** The patterns of [parseGpxTrack] are sequences of literal texts and of
    starred character classes, greedy or lazy, some of them captured.
    [matchHere] is the backtracking matcher of ECMAScript on that fragment:
    a greedy star tries the longest repetition first, a lazy one the
    shortest, and each gives way when the rest of the pattern fails. *)
Module Regex.

Inductive item : Type :=
| Lit (text : string)
| Star (greedy : bool) (class : ascii → bool) (captured : bool).

Definition pattern : Type := list item.

(** The literal [lit] at the head of [text]: what follows it. *)
Fixpoint matchLit (lit text : string) : option string :=
  match lit, text with
  | EmptyString, _ => Some text
  | String _ _, EmptyString => None
  | String a lit', String b text' =>
      if Ascii.eqb a b then matchLit lit' text' else None
  end.

(** A starred class followed by the continuation [k]: the repeated text
    and the result of [k]. *)
Fixpoint star {R : Type} (greedy : bool) (class : ascii → bool)
    (k : string → option R) (text : string) : option (string * R) :=
  let more (_ : unit) :=
    match text with
    | String c rest =>
        if class c then
          match star greedy class k rest with
          | Some (w, r) => Some (String c w, r)
          | None => None
          end
        else None
    | EmptyString => None
    end in
  let stop (_ : unit) :=
    match k text with
    | Some r => Some (EmptyString, r)
    | None => None
    end in
  if greedy then
    match more tt with Some res => Some res | None => stop tt end
  else
    match stop tt with Some res => Some res | None => more tt end.

(** A match of [pat] at the head of [text]: the captures, in order, and
    the text after the match. *)
Fixpoint matchHere (pat : pattern) (text : string)
    : option (list string * string) :=
  match pat with
  | [] => Some ([], text)
  | Lit lit :: pat' =>
      match matchLit lit text with
      | Some rest => matchHere pat' rest
      | None => None
      end
  | Star greedy class captured :: pat' =>
      match star greedy class (matchHere pat') text with
      | Some (w, (caps, rest)) =>
          Some (if captured then w :: caps else caps, rest)
      | None => None
      end
  end.

(** [regex.exec(text)]: the leftmost match.  For a global regex the text
    after the match is where [lastIndex] points, and the next call of
    [exec] scans from there; [None] is the [null] that also resets
    [lastIndex]. *)
Fixpoint exec (pat : pattern) (text : string)
    : option (list string * string) :=
  match matchHere pat text with
  | Some res => Some res
  | None =>
      match text with
      | EmptyString => None
      | String _ rest => exec pat rest
      end
  end.

Definition anyChar (_ : ascii) : bool := true.
Definition notChar (c : ascii) (x : ascii) : bool := negb (Ascii.eqb x c).

(** [match[i]], the text of the [i]-th capture group, [i] from 1. *)
Definition group (caps : list string) (i : nat) : string :=
  nth (pred i) caps EmptyString.

(** A value together with the equation that names it, for the loops that
    recur on what [exec] returns. *)
Definition inspect {A : Type} (x : A) : {y : A | x = y} := exist _ x eq_refl.

(** A pattern that cannot match the empty text. *)
Fixpoint consuming (pat : pattern) : bool :=
  match pat with
  | [] => false
  | Lit (String _ _) :: _ => true
  | _ :: pat' => consuming pat'
  end.

(** A match ends at or after the place it starts, and strictly after it
    when the pattern holds a non-empty literal: this is what makes the
    [while ((m = regex.exec(s)) !== null)] loops of the extractor terminate. *)
Lemma matchLit_length lit text rest :
  matchLit lit text = Some rest →
  String.length text = (String.length lit + String.length rest)%nat.
Proof.
  revert text. induction lit as [|a lit IH]; intros text; simpl.
  - destruct text; intros [= ->]; reflexivity.
  - destruct text as [|b text]; [congruence|].
    destruct (Ascii.eqb a b); [|congruence]. intros Hm. simpl. rewrite (IH _ Hm). reflexivity.
Qed.

Lemma star_length {R : Type} (size : R → nat) slack greedy class
    (k : string → option R) :
  (∀ t r, k t = Some r → (size r + slack ≤ String.length t)%nat) →
  ∀ text w r, star greedy class k text = Some (w, r) →
    (size r + slack ≤ String.length text)%nat.
Proof.
  intros Hk. induction text as [|c text IH]; intros w r; simpl.
  - destruct greedy; destruct (k "") eqn:E; intros [= <- <-] || intros [=];
      apply (Hk _ _ E).
  - destruct greedy.
    + destruct (class c).
      * destruct (star true class k text) as [[w' r']|] eqn:E.
        { intros [= <- <-]. specialize (IH _ _ eq_refl). lia. }
        destruct (k (String c text)) eqn:E'; intros [= <- <-]. apply (Hk _ _ E').
      * destruct (k (String c text)) eqn:E'; intros [= <- <-]. apply (Hk _ _ E').
    + destruct (k (String c text)) eqn:E'.
      * intros [= <- <-]. apply (Hk _ _ E').
      * destruct (class c); [|congruence].
        destruct (star false class k text) as [[w' r']|] eqn:E; intros [= <- <-].
        specialize (IH _ _ eq_refl). lia.
Qed.

Lemma matchHere_length pat text caps rest :
  matchHere pat text = Some (caps, rest) →
  (String.length rest + (if consuming pat then 1 else 0) ≤ String.length text)%nat.
Proof.
  revert text caps rest. induction pat as [|[lit|greedy class captured] pat IH];
    intros text caps rest; simpl.
  - intros [= <- <-]. lia.
  - destruct (matchLit lit text) as [rest'|] eqn:E; [|congruence].
    intros Hm. apply matchLit_length in E. specialize (IH _ _ _ Hm).
    destruct lit; simpl in *; destruct (consuming pat); lia.
  - destruct (star greedy class (matchHere pat) text) as [[w [caps' rest']]|] eqn:E;
      [|congruence].
    intros [= <- <-].
    apply (star_length (λ r, String.length r.2) (if consuming pat then 1 else 0)%nat) in E;
      [exact E|].
    intros t [caps'' r] Hm. simpl. apply (IH _ _ _ Hm).
Qed.

Lemma exec_length pat text caps rest :
  exec pat text = Some (caps, rest) →
  (String.length rest + (if consuming pat then 1 else 0) ≤ String.length text)%nat.
Proof.
  induction text as [|c text IH]; simpl.
  - destruct (matchHere pat "") as [[caps' rest']|] eqn:E; [|congruence].
    intros [= <- <-]. apply (matchHere_length _ _ _ _ E).
  - destruct (matchHere pat (String c text)) as [[caps' rest']|] eqn:E.
    + intros [= <- <-]. apply (matchHere_length _ _ _ _ E).
    + intros Hm. specialize (IH Hm). simpl. lia.
Qed.

End Regex.
Import Regex.

(* ===================================================================== *)
(** ** The converter and the track extractor *)
(* ===================================================================== *)

Module Converter.
Section WithNumbers.
Context `{JsNumbers}.

(** *** Input documents *)

Record Moment : Type := {
  moment_dtf : option Num;
  moment_lat : Num;
  moment_lon : Num;
  moment_at : Z;
  moment_alt : option Num;
  moment_lap : option Num;
  moment_pc : option Num;
}.

Record PositionRecord : Type := {
  boat_id : Z;
  boat_moments : list Moment;
}.

Record TeamRecord : Type := {
  team_id : Z;
  team_name : option string;
  team_owner : option string;
  team_model : option string;
  team_country : option string;
  team_sail : option string;
}.

Record RaceSetup : Type := {
  setup_title : option string;
  setup_teams : option (list TeamRecord);
}.

(** What [parseGpxTrack] returns, and the overlay groups [main] builds from
    it. *)
Record OverlayPoint : Type := {
  point_lat : Num;
  point_lon : Num;
  point_at : Num;
}.

Record OverlayTrack : Type := {
  track_name : string;
  track_points : list OverlayPoint;
}.

Record Overlay : Type := {
  overlay_name : string;
  overlay_color : string;
  overlay_source : string;
  overlay_tracks : option (list OverlayTrack);
}.

(** *** Helpers of both scripts *)

(** [new Date(timestamp * 1000).toISOString()]; the two call sites pass an
    integer (a moment's [at]) and a double (an overlay point's [at]). *)
Definition timestampToISO (timestamp : Z) : option string :=
  Date_toISOString (timeClip (timestamp * 1000)).

Definition timestampToISO_Num (timestamp : Num) : option string :=
  Date_toISOString (Num_timeValue timestamp).

Definition escapeXml (text : string) : string :=
  match text with
  | EmptyString => EmptyString
  | _ =>
      replaceAll "'" "&apos;"
        (replaceAll (ascii_of_nat 34) "&quot;"
          (replaceAll ">" "&gt;"
            (replaceAll "<" "&lt;"
              (replaceAll "&" "&amp;" text))))
  end.

(** *** [generateGPX] *)

(** The comparator of the sort, [(a, b) => a.at - b.at]. *)
Definition byTimestamp (a b : Moment) : Z := moment_at a - moment_at b.

(** [boatToTeam], an object used as a map from boat id to team. *)
Definition buildBoatToTeam (raceSetup : RaceSetup) : gmap Z TeamRecord :=
  match setup_teams raceSetup with
  | Some teams =>
      fold_left (λ boatToTeam team, <[team_id team := team]> boatToTeam)
        teams ∅
  | None => ∅
  end.

(** The callback of [sortedMoments.forEach]; the state is [gpx]. *)
Definition emitMoment (gpx : string) (moment : Moment) : option string :=
  time ← timestampToISO (moment_at moment);
  let dtf :=
    match moment_dtf moment with
    | Some d => if Num_truthy d then Num_toString d else "0"
    | None => "0"
    end in
  let gpx := gpx +:+
    "      <trkpt lat=" +:+ dq +:+ Num_toString (moment_lat moment) +:+ dq +:+
    " lon=" +:+ dq +:+ Num_toString (moment_lon moment) +:+ dq +:+ ">" +:+ nl +:+
    "        <time>" +:+ time +:+ "</time>" +:+ nl +:+
    "        <extensions>" +:+ nl +:+
    "          <dtf>" +:+ dtf +:+ "</dtf>" in
  let gpx :=
    match moment_alt moment with
    | Some alt => gpx +:+ nl +:+
        "          <ele>" +:+ Num_toString alt +:+ "</ele>"
    | None => gpx
    end in
  let gpx :=
    match moment_lap moment with
    | Some lap => gpx +:+ nl +:+
        "          <lap>" +:+ Num_toString lap +:+ "</lap>"
    | None => gpx
    end in
  let gpx :=
    match moment_pc moment with
    | Some pc => gpx +:+ nl +:+
        "          <pc>" +:+ Num_toString pc +:+ "</pc>"
    | None => gpx
    end in
  Some (gpx +:+ nl +:+
    "        </extensions>" +:+ nl +:+
    "      </trkpt>" +:+ nl).

(** The display values of a boat: name, owner, description. *)
Definition boatName (team : option TeamRecord) (id : Z) : string :=
  match team with
  | Some t => orElse (team_name t) ("Boat " +:+ Z_toString id)
  | None => "Boat " +:+ Z_toString id
  end.

Definition boatOwner (team : option TeamRecord) : string :=
  match team with Some t => orElse (team_owner t) "Unknown" | None => "Unknown" end.

Definition boatModel (team : option TeamRecord) : string :=
  match team with Some t => orElse (team_model t) "Unknown" | None => "Unknown" end.

Definition boatCountry (team : option TeamRecord) : string :=
  match team with Some t => orElse (team_country t) "Unknown" | None => "Unknown" end.

Definition boatSail (team : option TeamRecord) : string :=
  match team with Some t => orElse (team_sail t) "" | None => "" end.

Definition boatDesc (team : option TeamRecord) (id : Z) : string :=
  let desc :=
    "Boat ID: " +:+ Z_toString id +:+ ", Owner: " +:+ boatOwner team +:+
    ", Model: " +:+ boatModel team +:+ ", Country: " +:+ boatCountry team in
  match boatSail team with
  | EmptyString => desc
  | sailNumber => desc +:+ ", Sail: " +:+ sailNumber
  end.

(** The callback of [positions.forEach].  The state is [gpx] together with
    the boats visited so far as the call leaves them: [sort] works in
    place, so after the visit [boat.moments] holds the sorted sequence. *)
Definition emitBoat (boatToTeam : gmap Z TeamRecord)
    (st : string * list PositionRecord) (boat : PositionRecord)
    : option (string * list PositionRecord) :=
  let '(gpx, visited) := st in
  let team := boatToTeam !! boat_id boat in
  let desc := boatDesc team (boat_id boat) in
  let gpx := gpx +:+
    "  <trk>" +:+ nl +:+
    "    <name>" +:+ escapeXml (boatName team (boat_id boat)) +:+
    " (" +:+ escapeXml (boatOwner team) +:+ ")</name>" +:+ nl +:+
    "    <desc>" +:+ escapeXml desc +:+ "</desc>" +:+ nl +:+
    "    <trkseg>" +:+ nl in
  let sortedMoments := Array_sort byTimestamp (boat_moments boat) in
  let boat := {| boat_id := boat_id boat; boat_moments := sortedMoments |} in
  gpx ← forEach emitMoment sortedMoments gpx;
  Some (gpx +:+
    "    </trkseg>" +:+ nl +:+
    "  </trk>" +:+ nl, visited ++ [boat]).

(** The opening of the document, up to the end of the metadata block. *)
Definition preamble (raceTitle now desc : string) : string :=
  "<?xml version=" +:+ dq +:+ "1.0" +:+ dq +:+ " encoding=" +:+ dq +:+ "UTF-8" +:+ dq +:+ "?>" +:+ nl +:+
  "<gpx version=" +:+ dq +:+ "1.1" +:+ dq +:+ " creator=" +:+ dq +:+ "decyb-gpx-converter" +:+ dq +:+
  " xmlns=" +:+ dq +:+ "http://www.topografix.com/GPX/1/1" +:+ dq +:+ ">" +:+ nl +:+
  "  <metadata>" +:+ nl +:+
  "    <name>" +:+ escapeXml raceTitle +:+ "</name>" +:+ nl +:+
  "    <time>" +:+ now +:+ "</time>" +:+ nl +:+
  "    <desc>" +:+ desc +:+ "</desc>" +:+ nl +:+
  "  </metadata>" +:+ nl.

(** [generateGPX(positions, raceSetup)], with the reading [now] of the
    clock made a parameter.  It returns the document and the [positions]
    array as the call leaves it, or [None] when it throws. *)
Definition generateGPX (now : string) (positions : list PositionRecord)
    (raceSetup : RaceSetup) : option (string * list PositionRecord) :=
  let raceTitle := orElse (setup_title raceSetup) "Sailing Race" in
  let gpx := preamble raceTitle now
    "Converted from race data using decyb-gpx-converter" in
  let boatToTeam := buildBoatToTeam raceSetup in
  '(gpx, positions) ← forEach (emitBoat boatToTeam) positions (gpx, []);
  Some (gpx +:+ "</gpx>", positions).

(** *** [generateGPXWithOverlays] *)

(** The callback of [track.points.forEach]. *)
Definition emitOverlayPoint (overlay : Overlay) (gpx : string)
    (point : OverlayPoint) : option string :=
  time ← timestampToISO_Num (point_at point);
  Some (gpx +:+
    "      <trkpt lat=" +:+ dq +:+ Num_toString (point_lat point) +:+ dq +:+
    " lon=" +:+ dq +:+ Num_toString (point_lon point) +:+ dq +:+ ">" +:+ nl +:+
    "        <time>" +:+ time +:+ "</time>" +:+ nl +:+
    "        <extensions>" +:+ nl +:+
    "          <overlay>true</overlay>" +:+ nl +:+
    "          <color>" +:+ overlay_color overlay +:+ "</color>" +:+ nl +:+
    "        </extensions>" +:+ nl +:+
    "      </trkpt>" +:+ nl).

(** The callback of [overlay.tracks.forEach]. *)
Definition emitOverlayTrack (overlay : Overlay) (gpx : string)
    (track : OverlayTrack) : option string :=
  let gpx := gpx +:+
    "  <trk>" +:+ nl +:+
    "    <name>" +:+ escapeXml (overlay_name overlay) +:+ " - " +:+
    escapeXml (track_name track) +:+ "</name>" +:+ nl +:+
    "    <desc>Overlay track from " +:+ overlay_source overlay +:+ "</desc>" +:+ nl +:+
    "    <trkseg>" +:+ nl in
  gpx ← forEach (emitOverlayPoint overlay) (track_points track) gpx;
  Some (gpx +:+
    "    </trkseg>" +:+ nl +:+
    "  </trk>" +:+ nl).

(** The callback of [overlays.forEach]. *)
Definition emitOverlay (gpx : string) (overlay : Overlay) : option string :=
  match overlay_tracks overlay with
  | Some (track :: tracks) =>
      forEach (emitOverlayTrack overlay) (track :: tracks) gpx
  | _ => Some gpx
  end.

(** [generateGPXWithOverlays(positions, raceSetup, overlays)].  Its boat
    loop is, character for character, that of [generateGPX]. *)
Definition generateGPXWithOverlays (now : string)
    (positions : list PositionRecord) (raceSetup : RaceSetup)
    (overlays : list Overlay) : option (string * list PositionRecord) :=
  let raceTitle := orElse (setup_title raceSetup) "Sailing Race" in
  let gpx := preamble raceTitle now
    "Converted from race data using decyb-gpx-converter with overlays" in
  let boatToTeam := buildBoatToTeam raceSetup in
  '(gpx, positions) ← forEach (emitBoat boatToTeam) positions (gpx, []);
  gpx ← forEach emitOverlay overlays gpx;
  Some (gpx +:+ "</gpx>", positions).

(** *** [parseGpxTrack] *)

(** The four patterns.  In the comments a capture group is written
    [( ... )] with spaces and Q stands for the double quote.

    [trackRegex]: /<trk[^>]* > ( [\s\S]*? ) <\/trk>/g *)
Definition trackRegex : pattern :=
  [Lit "<trk"; Star true (notChar ">") false; Lit ">";
   Star false anyChar true; Lit "</trk>"].

(** [trkptRegex]:
    /<trkpt[^>]* lat=Q ( [^Q]* ) Q [^>]* lon=Q ( [^Q]* ) Q [^>]* > ( [\s\S]*? ) <\/trkpt>/g *)
Definition trkptRegex : pattern :=
  [Lit "<trkpt"; Star true (notChar ">") false;
   Lit ("lat=" +:+ dq); Star true (notChar (ascii_of_nat 34)) true; Lit dq;
   Star true (notChar ">") false;
   Lit ("lon=" +:+ dq); Star true (notChar (ascii_of_nat 34)) true; Lit dq;
   Star true (notChar ">") false; Lit ">";
   Star false anyChar true; Lit "</trkpt>"].

(** [timeRegex]: /<time> ( [^<]* ) <\/time>/ and
    [nameRegex]: /<name> ( [^<]* ) <\/name>/ *)
Definition timeRegex : pattern :=
  [Lit "<time>"; Star true (notChar "<") true; Lit "</time>"].

Definition nameRegex : pattern :=
  [Lit "<name>"; Star true (notChar "<") true; Lit "</name>"].

(** The inner loop, [while ((pointMatch = trkptRegex.exec(trackContent)) !==
    null)].  The state is [points] and the number of readings taken of the
    clock so far: [clock k] is what the [k]-th evaluation of
    [Date.now() / 1000] returns.  The argument is the part of [trackContent]
    from [lastIndex] on. *)
Equations? collectPoints (clock : nat → Num) (st : list OverlayPoint * nat)
    (trackContent : string) : list OverlayPoint * nat
    by wf (String.length trackContent) lt :=
  collectPoints clock st trackContent
    with inspect (exec trkptRegex trackContent) := {
    | exist _ None _ => st
    | exist _ (Some (pointMatch, rest)) Hexec =>
        let lat := parseFloat (group pointMatch 1) in
        let lon := parseFloat (group pointMatch 2) in
        let pointContent := group pointMatch 3 in
        let timed :=
          match exec timeRegex pointContent with
          | Some (timeMatch, _) =>
              (Date_parseSeconds (group timeMatch 1), st.2)
          | None => (clock st.2, S st.2)
          end in
        collectPoints clock
          (st.1 ++ [{| point_lat := lat; point_lon := lon;
                       point_at := timed.1 |}], timed.2)
          rest }.
Proof.
  apply exec_length in Hexec. simpl in Hexec. lia.
Qed.

(** The outer loop, [while ((match = trackRegex.exec(gpxData)) !== null)];
    the state is [tracks] and the clock count.  [trkptRegex] is back at
    [lastIndex = 0] whenever the inner loop has ended, so each track is
    scanned from its start. *)
Equations? collectTracks (clock : nat → Num) (st : list OverlayTrack * nat)
    (gpxData : string) : list OverlayTrack * nat
    by wf (String.length gpxData) lt :=
  collectTracks clock st gpxData with inspect (exec trackRegex gpxData) := {
    | exist _ None _ => st
    | exist _ (Some (trackMatch, rest)) Hexec =>
        let trackContent := group trackMatch 1 in
        let trackName :=
          match exec nameRegex trackContent with
          | Some (nameMatch, _) => group nameMatch 1
          | None => "Unknown Track"
          end in
        let scanned := collectPoints clock ([], st.2) trackContent in
        let tracks :=
          match scanned.1 with
          | [] => st.1
          | points =>
              st.1 ++ [{| track_name := trackName; track_points := points |}]
          end in
        collectTracks clock (tracks, scanned.2) rest }.
Proof.
  apply exec_length in Hexec. simpl in Hexec. lia.
Qed.

(** [parseGpxTrack(gpxData)].  Nothing in it can throw: [exec] on a string,
    [parseFloat], [new Date(s).getTime()] (NaN on an unreadable date) and
    [push] are total. *)
Definition parseGpxTrack (clock : nat → Num) (gpxData : string)
    : list OverlayTrack :=
  (collectTracks clock ([], 0%nat) gpxData).1.

(** *** The output document *)

(** The document of section 3 of the specification: metadata and an ordered
    sequence of tracks, each a name, a description and points that carry
    coordinates, a timestamp and key-value extensions.  Names, descriptions
    and extension values are character data as written in the file.  A
    timestamp is the number the point was built from: integer seconds for a
    boat, a double for an overlay. *)
Inductive Timestamp : Type :=
| Seconds (t : Z)
| SecondsNum (x : Num).

Record TrackPoint : Type := {
  tp_lat : Num;
  tp_lon : Num;
  tp_time : Timestamp;
  tp_extensions : list (string * string);
}.

Record Track : Type := {
  trk_name : string;
  trk_desc : string;
  trk_points : list TrackPoint;
}.

Record OutputDocument : Type := {
  doc_title : string;
  doc_time : string;
  doc_desc : string;
  doc_tracks : list Track;
}.

(** Serialization (section 6): the text of the file, or [None] when a
    timestamp has no ISO form. *)
Definition serializeTime (t : Timestamp) : option string :=
  match t with
  | Seconds z => timestampToISO z
  | SecondsNum x => timestampToISO_Num x
  end.

Definition serializeExtension (field : string * string) : string :=
  nl +:+ "          <" +:+ field.1 +:+ ">" +:+ field.2 +:+
  "</" +:+ field.1 +:+ ">".

Definition serializePoint (p : TrackPoint) : option string :=
  time ← serializeTime (tp_time p);
  Some ("      <trkpt lat=" +:+ dq +:+ Num_toString (tp_lat p) +:+ dq +:+
    " lon=" +:+ dq +:+ Num_toString (tp_lon p) +:+ dq +:+ ">" +:+ nl +:+
    "        <time>" +:+ time +:+ "</time>" +:+ nl +:+
    "        <extensions>" +:+
    concatText (map serializeExtension (tp_extensions p)) +:+ nl +:+
    "        </extensions>" +:+ nl +:+
    "      </trkpt>" +:+ nl).

Definition serializeTrack (t : Track) : option string :=
  points ← mapM serializePoint (trk_points t);
  Some ("  <trk>" +:+ nl +:+
    "    <name>" +:+ trk_name t +:+ "</name>" +:+ nl +:+
    "    <desc>" +:+ trk_desc t +:+ "</desc>" +:+ nl +:+
    "    <trkseg>" +:+ nl +:+
    concatText points +:+
    "    </trkseg>" +:+ nl +:+
    "  </trk>" +:+ nl).

Definition serialize (doc : OutputDocument) : option string :=
  tracks ← mapM serializeTrack (doc_tracks doc);
  Some ("<?xml version=" +:+ dq +:+ "1.0" +:+ dq +:+ " encoding=" +:+ dq +:+ "UTF-8" +:+ dq +:+ "?>" +:+ nl +:+
    "<gpx version=" +:+ dq +:+ "1.1" +:+ dq +:+ " creator=" +:+ dq +:+ "decyb-gpx-converter" +:+ dq +:+
    " xmlns=" +:+ dq +:+ "http://www.topografix.com/GPX/1/1" +:+ dq +:+ ">" +:+ nl +:+
    "  <metadata>" +:+ nl +:+
    "    <name>" +:+ doc_title doc +:+ "</name>" +:+ nl +:+
    "    <time>" +:+ doc_time doc +:+ "</time>" +:+ nl +:+
    "    <desc>" +:+ doc_desc doc +:+ "</desc>" +:+ nl +:+
    "  </metadata>" +:+ nl +:+
    concatText tracks +:+
    "</gpx>").

(** What the converter writes, read as a document: the point of a moment,
    the track of a boat, the tracks of an overlay group. *)
Definition extensionsOf (moment : Moment) : list (string * string) :=
  [("dtf",
    match moment_dtf moment with
    | Some d => if Num_truthy d then Num_toString d else "0"
    | None => "0"
    end)] ++
  match moment_alt moment with Some x => [("ele", Num_toString x)] | None => [] end ++
  match moment_lap moment with Some x => [("lap", Num_toString x)] | None => [] end ++
  match moment_pc moment with Some x => [("pc", Num_toString x)] | None => [] end.

Definition pointOf (moment : Moment) : TrackPoint :=
  {| tp_lat := moment_lat moment; tp_lon := moment_lon moment;
     tp_time := Seconds (moment_at moment);
     tp_extensions := extensionsOf moment |}.

Definition boatTrack (boatToTeam : gmap Z TeamRecord) (boat : PositionRecord)
    : Track :=
  let team := boatToTeam !! boat_id boat in
  {| trk_name := escapeXml (boatName team (boat_id boat)) +:+ " (" +:+
                 escapeXml (boatOwner team) +:+ ")";
     trk_desc := escapeXml (boatDesc team (boat_id boat));
     trk_points := map pointOf (Array_sort byTimestamp (boat_moments boat)) |}.

Definition overlayPointOf (overlay : Overlay) (point : OverlayPoint)
    : TrackPoint :=
  {| tp_lat := point_lat point; tp_lon := point_lon point;
     tp_time := SecondsNum (point_at point);
     tp_extensions := [("overlay", "true"); ("color", overlay_color overlay)] |}.

Definition overlayTrackOf (overlay : Overlay) (track : OverlayTrack) : Track :=
  {| trk_name := escapeXml (overlay_name overlay) +:+ " - " +:+
                 escapeXml (track_name track);
     trk_desc := "Overlay track from " +:+ overlay_source overlay;
     trk_points := map (overlayPointOf overlay) (track_points track) |}.

Definition overlayTracksOf (overlay : Overlay) : list Track :=
  match overlay_tracks overlay with
  | Some tracks => map (overlayTrackOf overlay) tracks
  | None => []
  end.

Definition documentOf (now desc : string) (raceSetup : RaceSetup)
    (positions : list PositionRecord) (overlays : list Overlay)
    : OutputDocument :=
  {| doc_title := escapeXml (orElse (setup_title raceSetup) "Sailing Race");
     doc_time := now;
     doc_desc := desc;
     doc_tracks := map (boatTrack (buildBoatToTeam raceSetup)) positions ++
                   flat_map overlayTracksOf overlays |}.

(** A boat after the converter has visited it: [sort] has reordered its
    [moments] array. *)
Definition visitedBoat (boat : PositionRecord) : PositionRecord :=
  {| boat_id := boat_id boat;
     boat_moments := Array_sort byTimestamp (boat_moments boat) |}.

(** Timestamps [Date] can represent: at most 8.64e15 ms from the epoch. *)
Definition inDateRange (timestamp : Z) : Prop :=
  -8640000000000 ≤ timestamp ≤ 8640000000000.

Definition validBoat (boat : PositionRecord) : Prop :=
  Forall (λ moment, inDateRange (moment_at moment)) (boat_moments boat).

Definition validOverlay (overlay : Overlay) : Prop :=
  ∀ tracks, overlay_tracks overlay = Some tracks →
    Forall (λ track,
      Forall (λ point, is_Some (Num_timeValue (point_at point)))
        (track_points track)) tracks.

(** A call of a converter returned, and the text it returned is the
    serialization of [doc]. *)
Definition writes (result : option (string * list PositionRecord))
    (doc : OutputDocument) : Prop :=
  ∃ out after, result = Some (out, after) ∧ serialize doc = Some out.

(** [value] is the field [field] when it is present and not empty, and
    [dflt] otherwise. *)
Inductive fallback (dflt : string) : option string → string → Prop :=
| fallback_absent : fallback dflt None dflt
| fallback_empty : fallback dflt (Some EmptyString) dflt
| fallback_present c s : fallback dflt (Some (String c s)) (String c s).

(** *** Notions the properties are stated with *)

(** The entity (or the character itself) that stands for a character. *)
Definition escapeChar (c : ascii) : string :=
  if Ascii.eqb c "&" then "&amp;"
  else if Ascii.eqb c "<" then "&lt;"
  else if Ascii.eqb c ">" then "&gt;"
  else if Ascii.eqb c (ascii_of_nat 34) then "&quot;"
  else if Ascii.eqb c "'" then "&apos;"
  else String c "".

(** One of the five reserved characters occurs in a text. *)
Definition hasReserved (text : string) : bool :=
  occurs "&" text || occurs "<" text || occurs ">" text ||
  occurs (ascii_of_nat 34) text || occurs "'" text.

(** The opening of the document up to the generation time. *)
Definition untilTime (raceSetup : RaceSetup) : string :=
  "<?xml version=" +:+ dq +:+ "1.0" +:+ dq +:+ " encoding=" +:+ dq +:+ "UTF-8" +:+ dq +:+ "?>" +:+ nl +:+
  "<gpx version=" +:+ dq +:+ "1.1" +:+ dq +:+ " creator=" +:+ dq +:+ "decyb-gpx-converter" +:+ dq +:+
  " xmlns=" +:+ dq +:+ "http://www.topografix.com/GPX/1/1" +:+ dq +:+ ">" +:+ nl +:+
  "  <metadata>" +:+ nl +:+
  "    <name>" +:+ escapeXml (orElse (setup_title raceSetup) "Sailing Race") +:+
  "</name>" +:+ nl +:+
  "    <time>".

(** A track with at least one point. *)
Definition hasPoints (track : OverlayTrack) : Prop :=
  (0 < length (track_points track))%nat.

End WithNumbers.
End Converter.

(* ===================================================================== *)
(** ** A runtime and sample documents *)
(* ===================================================================== *)

(** The properties above hold whatever the doubles do.  To run the code on
    sample documents, [IntegerNumbers] is the runtime of documents whose
    numbers are all integers: a number is an integer or NaN ([None]).
    [parseFloat] skips white space, reads a sign and the digits that
    follow, and stops there: of a literal with a fraction or an exponent it
    keeps the integer part, which is the value of [parseFloat] only when
    the rest is zero.  The date parser reads the date-time format of
    ECMAScript, YYYY-MM-DDTHH:mm:ss with an optional .sss and with Z or an
    offset +HH:mm or -HH:mm, its fields in their ranges; a time that is not
    a whole second has no value among the integers and stands as NaN, as
    does every text outside the format, also where an engine reads more
    than the format asks.  No theorem depends on this runtime: it serves
    the examples and the witnesses. *)
Module Sample.
Import Converter.

Definition digit (c : ascii) : option Z :=
  let n := Z.of_nat (nat_of_ascii c) in
  if (48 <=? n) && (n <=? 57) then Some (n - 48) else None.

(** The digits at the head of a text, at most [limit] of them: their number,
    their value, and the rest of the text. *)
Fixpoint readDigits (limit : nat) (count : nat) (value : Z) (text : string)
    : nat * Z * string :=
  match limit, text with
  | S limit', String c rest =>
      match digit c with
      | Some d => readDigits limit' (S count) (10 * value + d) rest
      | None => (count, value, text)
      end
  | _, _ => (count, value, text)
  end.

(** The white space [parseFloat] skips, as far as it is ASCII. *)
Definition isWhiteSpace (c : ascii) : bool :=
  let n := nat_of_ascii c in
  ((9 <=? n)%nat && (n <=? 13)%nat) || (n =? 32)%nat.

Fixpoint trimStart (text : string) : string :=
  match text with
  | String c rest => if isWhiteSpace c then trimStart rest else text
  | EmptyString => text
  end.

Definition parseInteger (text : string) : option Z :=
  let '(negative, digits) :=
    match trimStart text with
    | String "-" rest => (true, rest)
    | String "+" rest => (false, rest)
    | trimmed => (false, trimmed)
    end in
  match readDigits (String.length digits) 0 0 digits with
  | (O, _, _) => None
  | (_, value, _) => Some (if negative then - value else value)
  end.

(** Exactly [width] digits, then the character [stop]. *)
Definition field (width : nat) (stop : ascii) (text : string)
    : option (Z * string) :=
  match readDigits width 0 0 text with
  | (count, value, String c rest) =>
      if (count =? width)%nat && Ascii.eqb c stop then Some (value, rest)
      else None
  | _ => None
  end.

Definition daysFromCivil (y m d : Z) : Z :=
  let y := if m <=? 2 then y - 1 else y in
  let era := y / 400 in
  let yoe := y - era * 400 in
  let doy := (153 * (if 2 <? m then m - 3 else m + 9) + 2) / 5 + d - 1 in
  let doe := yoe * 365 + yoe / 4 - yoe / 100 + doy in
  era * 146097 + doe - 719468.

(** Exactly [width] digits. *)
Definition digits (width : nat) (text : string) : option (Z * string) :=
  match readDigits width 0 0 text with
  | (count, value, rest) =>
      if (count =? width)%nat then Some (value, rest) else None
  end.

(** The optional milliseconds, [.sss]. *)
Definition fraction (text : string) : option (Z * string) :=
  match text with
  | String "." rest => digits 3 rest
  | _ => Some (0, text)
  end.

Definition between (lo hi z : Z) : bool := (lo <=? z) && (z <=? hi).

(** The time zone at the end of the text, in seconds east of UTC. *)
Definition offset (text : string) : option Z :=
  match text with
  | String "Z" EmptyString => Some 0
  | String sign rest =>
      if Ascii.eqb sign "+" || Ascii.eqb sign "-" then
        '(hh, rest) ← field 2 ":" rest;
        '(mm, rest) ← digits 2 rest;
        match rest with
        | EmptyString =>
            if between 0 23 hh && between 0 59 mm then
              Some ((if Ascii.eqb sign "-" then -1 else 1) * (hh * 3600 + mm * 60))
            else None
        | _ => None
        end
      else None
  | EmptyString => None
  end.

Definition parseDateSeconds (text : string) : option Z :=
  '(y, text) ← field 4 "-" text;
  '(m, text) ← field 2 "-" text;
  '(d, text) ← field 2 "T" text;
  '(hh, text) ← field 2 ":" text;
  '(mm, text) ← field 2 ":" text;
  '(ss, text) ← digits 2 text;
  '(ms, text) ← fraction text;
  east ← offset text;
  if between 1 12 m && between 1 31 d &&
     (between 0 23 hh || (hh =? 24) && (mm =? 0) && (ss =? 0)) &&
     between 0 59 mm && between 0 59 ss && (ms =? 0)
  then Some (daysFromCivil y m d * 86400 + hh * 3600 + mm * 60 + ss - east)
  else None.

#[export] Instance IntegerNumbers : JsNumbers := {|
  Num := option Z;
  Num_toString x := match x with Some z => Z_toString z | None => "NaN" end;
  Num_truthy x := match x with Some z => negb (z =? 0) | None => false end;
  Num_timeValue x := z ← x; timeClip (z * 1000);
  parseFloat := parseInteger;
  Date_parseSeconds := parseDateSeconds;
|}.

Definition moment (at_ lat : Z) : Moment :=
  {| moment_dtf := None; moment_lat := Some lat; moment_lon := Some (-158);
     moment_at := at_; moment_alt := None; moment_lap := None;
     moment_pc := None |}.

Definition fullMoment : Moment :=
  {| moment_dtf := Some (Some 12); moment_lat := Some 22;
     moment_lon := Some (-158); moment_at := 1753333200;
     moment_alt := Some (Some 5); moment_lap := None;
     moment_pc := Some (Some 0) |}.

(** Boat 1 has its moments out of order, two of them at the same time;
    boat 2 is in order; boat 7 has no moment and no team. *)
Definition boat1 : PositionRecord :=
  {| boat_id := 1;
     boat_moments := [moment 30 1; moment 10 2; moment 30 3; moment 10 4] |}.

Definition boat2 : PositionRecord :=
  {| boat_id := 2; boat_moments := [fullMoment] |}.

Definition boat7 : PositionRecord := {| boat_id := 7; boat_moments := [] |}.

Definition positions : list PositionRecord := [boat1; boat2; boat7].

(** Two teams carry the id 1; the team of boat 2 has an empty name and no
    owner. *)
Definition earlierTeam1 : TeamRecord :=
  {| team_id := 1; team_name := Some "Earlier entry"; team_owner := None;
     team_model := None; team_country := None; team_sail := None |}.

Definition team2 : TeamRecord :=
  {| team_id := 2; team_name := Some ""; team_owner := None;
     team_model := Some "J/145"; team_country := Some "";
     team_sail := Some "USA 7" |}.

Definition team1 : TeamRecord :=
  {| team_id := 1; team_name := Some "Aimant <de> Fille";
     team_owner := Some "Steven & Ernest"; team_model := Some "J/145";
     team_country := Some "US"; team_sail := None |}.

Definition raceSetup : RaceSetup :=
  {| setup_title := Some "Test";
     setup_teams := Some [earlierTeam1; team2; team1] |}.

(** The overlay [main] builds for the options
    [--overlay 'a&b.gpx' --overlay-name 'A <-> B']. *)
Definition overlay : Overlay :=
  {| overlay_name := "A <-> B"; overlay_color := "FF0000";
     overlay_source := "a&b.gpx";
     overlay_tracks := Some
       [{| track_name := "Leg 1";
           track_points := [{| point_lat := Some 21; point_lon := Some (-157);
                               point_at := Some 1753333200 |}] |}] |}.

Definition clock (k : nat) : Num := Some (1753340000 + Z.of_nat k).

Definition trkpt (lat lon content : string) : string :=
  "<trkpt lat=" +:+ dq +:+ lat +:+ dq +:+ " lon=" +:+ dq +:+ lon +:+ dq +:+
  ">" +:+ content +:+ "</trkpt>".

(** A track with a name and two points, one of them without a time, then a
    track without points. *)
Definition gpxData : string :=
  "<gpx><trk><name>Leg 1</name><trkseg>" +:+
  trkpt "21" "-157" "<time>2025-07-24T05:00:00Z</time>" +:+
  trkpt "22" "-158" "<ele>3</ele>" +:+
  "</trkseg></trk><trk><name>Empty</name><trkseg></trkseg></trk></gpx>".

Definition gpxWithoutPoints : string :=
  "<gpx><trk><name>Empty</name><trkseg></trkseg></trk></gpx>".

End Sample.

(* ===================================================================== *)
(** ** The command lines *)
(* ===================================================================== *)

(** [parseArgs] of the two scripts, on [args = process.argv.slice(2)].  A
    call ends in [process.exit] or returns the options. *)
Module Cli.

(** *** [json2gpx.js] *)

Module Json2gpx.

Record Args : Type := {
  args_positionsFile : string;
  args_raceSetupFile : string;
  args_outputFile : string;
}.

(** [None] is the usage message followed by [process.exit(1)]. *)
Definition parseArgs (args : list string) : option Args :=
  match args with
  | positionsFile :: raceSetupFile :: rest =>
      Some {| args_positionsFile := positionsFile;
              args_raceSetupFile := raceSetupFile;
              args_outputFile := orElse (head rest) "race_tracks.gpx" |}
  | _ => None
  end.

End Json2gpx.

(** *** [json2gpx_with_overlay.js] *)

Module WithOverlay.

Record OverlayOption : Type := {
  option_file : string;
  option_name : string;
  option_color : string;
}.

Record Options : Type := {
  positionsFile : string;
  raceSetupFile : string;
  outputFile : string;
  overlays : list OverlayOption;
  garminUrl : option string;
}.

Inductive Outcome : Type :=
| Usage                      (* the usage message, then process.exit(1) *)
| ListOverlays               (* listOverlayFiles(), then process.exit(0) *)
| Run (options : Options).

(** [overlays[overlays.length - 1].field = value], on a non-empty array. *)
Fixpoint setLast (update : OverlayOption → OverlayOption)
    (overlays : list OverlayOption) : list OverlayOption :=
  match overlays with
  | [] => []
  | [overlay] => [update overlay]
  | overlay :: rest => overlay :: setLast update rest
  end.

Definition withOverlays (options : Options) (overlays : list OverlayOption)
    : Options :=
  {| positionsFile := positionsFile options;
     raceSetupFile := raceSetupFile options;
     outputFile := outputFile options;
     overlays := overlays;
     garminUrl := garminUrl options |}.

Definition withGarminUrl (options : Options) (url : string) : Options :=
  {| positionsFile := positionsFile options;
     raceSetupFile := raceSetupFile options;
     outputFile := outputFile options;
     overlays := overlays options;
     garminUrl := Some url |}.

Definition withOutputFile (options : Options) (file : string) : Options :=
  {| positionsFile := positionsFile options;
     raceSetupFile := raceSetupFile options;
     outputFile := file;
     overlays := overlays options;
     garminUrl := garminUrl options |}.

(** The loop [for (let i = 2; i < args.length; i++) switch (args[i])].  The
    argument is [args] from index [i] on; a case that reads [args[++i]]
    goes on two places further, the others one.  The test
    [i + 1 < args.length] holds when a second argument is left. *)
Fixpoint parseOptions (args : list string) (options : Options)
    (outputFileSet : bool) : Outcome :=
  match args with
  | [] => Run options
  | arg :: rest =>
      if String.eqb arg "--overlay" then
        match rest with
        | file :: rest' =>
            parseOptions rest'
              (withOverlays options
                 (overlays options ++
                  [{| option_file := file; option_name := "Overlay Track";
                      option_color := "FF0000" |}]))
              outputFileSet
        | [] => parseOptions rest options outputFileSet
        end
      else if String.eqb arg "--overlay-name" then
        match rest, overlays options with
        | name :: rest', _ :: _ =>
            parseOptions rest'
              (withOverlays options
                 (setLast (λ o, {| option_file := option_file o;
                                   option_name := name;
                                   option_color := option_color o |})
                    (overlays options)))
              outputFileSet
        | _, _ => parseOptions rest options outputFileSet
        end
      else if String.eqb arg "--overlay-color" then
        match rest, overlays options with
        | color :: rest', _ :: _ =>
            parseOptions rest'
              (withOverlays options
                 (setLast (λ o, {| option_file := option_file o;
                                   option_name := option_name o;
                                   option_color := color |})
                    (overlays options)))
              outputFileSet
        | _, _ => parseOptions rest options outputFileSet
        end
      else if String.eqb arg "--garmin-url" then
        match rest with
        | url :: rest' =>
            parseOptions rest' (withGarminUrl options url) outputFileSet
        | [] => parseOptions rest options outputFileSet
        end
      else if String.eqb arg "--list-overlays" then ListOverlays
      else if negb (startsWith "--" arg) && negb outputFileSet then
        parseOptions rest (withOutputFile options arg) true
      else parseOptions rest options outputFileSet
  end.

Definition parseArgs (args : list string) : Outcome :=
  match args with
  | [arg] =>
      if String.eqb arg "--list-overlays" then ListOverlays else Usage
  | positions :: raceSetup :: rest =>
      parseOptions rest
        {| positionsFile := positions; raceSetupFile := raceSetup;
           outputFile := "race_tracks_with_overlay.gpx";
           overlays := []; garminUrl := None |}
        false
  | [] => Usage
  end.

(** One turn of the loop: what is left of [args], the options and
    [outputFileSet] after it, or [None] when the turn ends the process. *)
Definition turn (arg : string) (rest : list string) (options : Options)
    (outputFileSet : bool) : option (list string * Options * bool) :=
  if String.eqb arg "--overlay" then
    match rest with
    | file :: rest' =>
        Some (rest',
              withOverlays options
                (overlays options ++
                 [{| option_file := file; option_name := "Overlay Track";
                     option_color := "FF0000" |}]),
              outputFileSet)
    | [] => Some (rest, options, outputFileSet)
    end
  else if String.eqb arg "--overlay-name" then
    match rest, overlays options with
    | name :: rest', _ :: _ =>
        Some (rest',
              withOverlays options
                (setLast (λ o, {| option_file := option_file o;
                                  option_name := name;
                                  option_color := option_color o |})
                   (overlays options)),
              outputFileSet)
    | _, _ => Some (rest, options, outputFileSet)
    end
  else if String.eqb arg "--overlay-color" then
    match rest, overlays options with
    | color :: rest', _ :: _ =>
        Some (rest',
              withOverlays options
                (setLast (λ o, {| option_file := option_file o;
                                  option_name := option_name o;
                                  option_color := color |})
                   (overlays options)),
              outputFileSet)
    | _, _ => Some (rest, options, outputFileSet)
    end
  else if String.eqb arg "--garmin-url" then
    match rest with
    | url :: rest' => Some (rest', withGarminUrl options url, outputFileSet)
    | [] => Some (rest, options, outputFileSet)
    end
  else if String.eqb arg "--list-overlays" then None
  else if negb (startsWith "--" arg) && negb outputFileSet then
    Some (rest, withOutputFile options arg, true)
  else Some (rest, options, outputFileSet).

(** The arguments that describe [overlays], each with its three options. *)
Definition overlayArguments (overlays : list OverlayOption) : list string :=
  flat_map (λ overlay,
    ["--overlay"; option_file overlay;
     "--overlay-name"; option_name overlay;
     "--overlay-color"; option_color overlay]) overlays.

(** The options that name the two input files, an output file and the
    overlays [described], and no Garmin address. *)
Definition describedOptions (positions raceSetup output : string)
    (described : list OverlayOption) : Options :=
  {| positionsFile := positions; raceSetupFile := raceSetup;
     outputFile := output; overlays := described; garminUrl := None |}.

End WithOverlay.

End Cli.

(* ===================================================================== *)
(** ** The Garmin downloader *)
(* ===================================================================== *)

(** The pure functions of [download_garmin_gpx_enhanced.js]. *)
Module Downloader.
Import Regex.

(** [\d] *)
Definition isDigit (c : ascii) : bool :=
  (48 <=? nat_of_ascii c)%nat && (nat_of_ascii c <=? 57)%nat.

(** [/activity\/(\d+)/] at the head of [text]: the capture.  Nothing
    follows the digits in the pattern, so the greedy run is the capture, and
    [+] asks for one digit at least. *)
Definition activityIdHere (text : string) : option string :=
  match matchLit "activity/" text with
  | Some rest =>
      match star true isDigit (λ after, Some after) rest with
      | Some (String d ds, _) => Some (String d ds)
      | _ => None
      end
  | None => None
  end.

(** [garminUrl.match(/activity\/(\d+)/)], then [match ? match[1] : null]:
    the leftmost match. *)
Fixpoint extractActivityId (garminUrl : string) : option string :=
  match activityIdHere garminUrl with
  | Some activityId => Some activityId
  | None =>
      match garminUrl with
      | EmptyString => None
      | String _ rest => extractActivityId rest
      end
  end.

Definition directUrl (activityId : string) : string :=
  "https://connect.garmin.com/modern/proxy/activity-service-1.1/json/activity/"
  +:+ activityId +:+ "/details".

(** [if (activityId)] holds for a string that is not empty. *)
Definition convertToGpxUrl (garminUrl : string) : string :=
  match extractActivityId garminUrl with
  | Some (String d ds) => directUrl (String d ds)
  | _ =>
      if includes "share.garmin.com" garminUrl then garminUrl else garminUrl
  end.

Definition isMapShareUrl (url : string) : bool :=
  includes "share.garmin.com" url && negb (includes "activity" url).

(** Every character of [text] is in [class]. *)
Fixpoint every (class : ascii → bool) (text : string) : bool :=
  match text with
  | EmptyString => true
  | String c rest => class c && every class rest
  end.

End Downloader.

(* ===================================================================== *)
(** ** What the extractor reads *)
(* ===================================================================== *)

(** [lit] and [text] differ at a place both have: [lit] is no prefix of
    [text], whatever follows [text]. *)
Fixpoint mismatch (lit text : string) : bool :=
  match lit, text with
  | String a lit', String b text' =>
      if Ascii.eqb a b then mismatch lit' text' else true
  | _, _ => false
  end.

(** No occurrence of [lit] begins in [text], whatever follows [text]. *)
Fixpoint avoids (lit text : string) : bool :=
  match text with
  | EmptyString => true
  | String _ rest => mismatch lit text && avoids lit rest
  end.

(** The texts of a document, as the extractor meets them. *)
Module ReadBack.
Section WithNumbers.
Context `{JsNumbers}.
Import Converter.

(** A text that may stand for a number in a [trkpt] tag: no angle bracket,
    no double quote, no letter l.  JavaScript writes a number with digits,
    a sign, a point and an exponent, or as NaN or Infinity. *)
Definition numberText (text : string) : bool :=
  negb (occurs "<" text || occurs ">" text ||
        occurs (ascii_of_nat 34) text || occurs "l" text).

(** What the extractor makes of a point and of a track of a document:
    the coordinates and the time are parsed from their texts, the name is
    the text of the name element, a track without points is left out. *)
Definition readPoint (p : TrackPoint) : OverlayPoint :=
  {| point_lat := parseFloat (Num_toString (tp_lat p));
     point_lon := parseFloat (Num_toString (tp_lon p));
     point_at :=
       Date_parseSeconds (default EmptyString (serializeTime (tp_time p))) |}.

Definition readTrack (t : Track) : option OverlayTrack :=
  match trk_points t with
  | [] => None
  | points =>
      Some {| track_name := trk_name t; track_points := map readPoint points |}
  end.

(** No extension of the point spells the end of a point or of a track. *)
Definition readablePoint (p : TrackPoint) : Prop :=
  numberText (Num_toString (tp_lat p)) = true ∧
  numberText (Num_toString (tp_lon p)) = true ∧
  Forall (λ field,
      avoids "</trkpt>" (serializeExtension field) = true ∧
      avoids "</trk>" (serializeExtension field) = true)
    (tp_extensions p).

Definition readableTrack (t : Track) : Prop :=
  occurs "<" (trk_name t) = false ∧ occurs "<" (trk_desc t) = false ∧
  Forall readablePoint (trk_points t).

Definition readableDocument (doc : OutputDocument) : Prop :=
  occurs "<" (doc_title doc) = false ∧ occurs "<" (doc_time doc) = false ∧
  occurs "<" (doc_desc doc) = false ∧
  Forall readableTrack (doc_tracks doc).

(** The text between the [trkpt] tags of a point. *)
Definition pointContent (time : string) (p : TrackPoint) : string :=
  nl +:+ "        <time>" +:+ time +:+ "</time>" +:+ nl +:+
  "        <extensions>" +:+
  concatText (map serializeExtension (tp_extensions p)) +:+ nl +:+
  "        </extensions>" +:+ nl +:+ "      ".

(** The text between the [trk] tags of a track. *)
Definition trackContent (t : Track) (points : list string) : string :=
  nl +:+ "    <name>" +:+ trk_name t +:+ "</name>" +:+ nl +:+
  "    <desc>" +:+ trk_desc t +:+ "</desc>" +:+ nl +:+
  "    <trkseg>" +:+ nl +:+ concatText points +:+ "    </trkseg>" +:+ nl +:+
  "  ".

(** An overlay group that holds at least one track. *)
Definition hasTracks (overlay : Overlay) : bool :=
  match overlay_tracks overlay with
  | Some (_ :: _) => true
  | _ => false
  end.

End WithNumbers.
End ReadBack.

(** Further sample values. *)
Module MoreSample.
Import Converter Sample Cli.WithOverlay.

(** One boat, its moments out of order and in order; all times differ. *)
Definition shuffled : list PositionRecord :=
  [{| boat_id := 1;
      boat_moments := [moment 30 1; moment 10 2; moment 20 3] |}].

Definition ordered : list PositionRecord :=
  [{| boat_id := 1;
      boat_moments := [moment 10 2; moment 20 3; moment 30 1] |}].


End MoreSample.

(* ===================================================================== *)
(** ** Facts about text *)
(* ===================================================================== *)

Module TextFacts.

Lemma append_cons x (a b : string) : String x a +:+ b = String x (a +:+ b).
Proof. reflexivity. Qed.

Lemma append_nil_l (a : string) : "" +:+ a = a.
Proof. reflexivity. Qed.

Lemma append_assoc (a b c : string) : (a +:+ b) +:+ c = a +:+ b +:+ c.
Proof.
  induction a as [|x a IH]; [reflexivity|].
  now rewrite !append_cons, IH.
Qed.

Lemma append_nil_r (a : string) : a +:+ "" = a.
Proof.
  induction a as [|x a IH]; [reflexivity|].
  now rewrite append_cons, IH.
Qed.

Lemma concatText_app (l1 l2 : list string) :
  concatText (l1 ++ l2) = concatText l1 +:+ concatText l2.
Proof.
  induction l1 as [|p l1 IH]; simpl; [reflexivity|].
  now rewrite IH, append_assoc.
Qed.

Lemma replaceAll_app c rep (a b : string) :
  replaceAll c rep (a +:+ b) = replaceAll c rep a +:+ replaceAll c rep b.
Proof.
  induction a as [|x a IH]; [reflexivity|].
  rewrite append_cons. simpl. rewrite IH.
  destruct (Ascii.eqb x c); [now rewrite append_assoc | reflexivity].
Qed.

Lemma substChars_app f (a b : string) :
  substChars f (a +:+ b) = substChars f a +:+ substChars f b.
Proof.
  induction a as [|x a IH]; [reflexivity|].
  rewrite append_cons. simpl. now rewrite IH, append_assoc.
Qed.

Lemma occurs_app c (a b : string) : occurs c (a +:+ b) = occurs c a || occurs c b.
Proof.
  induction a as [|x a IH]; [reflexivity|].
  rewrite append_cons. simpl. rewrite IH. now rewrite orb_assoc.
Qed.

Lemma substChars_id f (s : string) :
  (∀ c, occurs c s = true → f c = String c "") → substChars f s = s.
Proof.
  induction s as [|x s IH]; simpl; intros Hf; [reflexivity|].
  rewrite (Hf x), IH; [reflexivity| |].
  - intros c Hc. apply Hf. rewrite Hc. apply orb_true_r.
  - now rewrite Ascii.eqb_refl.
Qed.

End TextFacts.

Import TextFacts.
Import Converter.

(* ===================================================================== *)
(** ** The converter writes the serialization of a document *)
(* ===================================================================== *)

Section Refinement.
Context `{JsNumbers}.

Lemma escapeXml_substChars (text : string) :
  escapeXml text = substChars escapeChar text.
Proof.
  destruct text as [|x0 text0]; [reflexivity|].
  unfold escapeXml. generalize (String x0 text0). clear. intros text.
  induction text as [|x text IH]; [reflexivity|].
  cbn [substChars]. rewrite <- IH. clear IH.
  change (String x text) with (String x "" +:+ text).
  rewrite !replaceAll_app. f_equal.
  unfold escapeChar.
  destruct (Ascii.eqb x "&") eqn:E1; [apply Ascii.eqb_eq in E1; subst; reflexivity|].
  destruct (Ascii.eqb x "<") eqn:E2; [apply Ascii.eqb_eq in E2; subst; reflexivity|].
  destruct (Ascii.eqb x ">") eqn:E3; [apply Ascii.eqb_eq in E3; subst; reflexivity|].
  destruct (Ascii.eqb x (ascii_of_nat 34)) eqn:E4; [apply Ascii.eqb_eq in E4; subst; reflexivity|].
  destruct (Ascii.eqb x "'") eqn:E5; [apply Ascii.eqb_eq in E5; subst; reflexivity|].
  cbn [replaceAll]. rewrite E1. cbn [replaceAll]. rewrite E2. cbn [replaceAll]. rewrite E3.
  cbn [replaceAll]. rewrite E4. cbn [replaceAll]. rewrite E5. reflexivity.
Qed.

Lemma forEach_appends {A : Type} (callback : string → A → option string)
    (render : A → option string) :
  (∀ gpx x, callback gpx x = t ← render x; Some (gpx +:+ t)) →
  ∀ array gpx,
    forEach callback array gpx = ts ← mapM render array; Some (gpx +:+ concatText ts).
Proof.
  intros Hcb. induction array as [|x array IH]; intros gpx; simpl.
  - now rewrite append_nil_r.
  - rewrite Hcb. destruct (render x) as [t|]; simpl; [|reflexivity].
    rewrite IH. destruct (mapM render array) as [ts|]; simpl; [|reflexivity].
    now rewrite append_assoc.
Qed.

Lemma emitMoment_serialize gpx moment :
  emitMoment gpx moment = t ← serializePoint (pointOf moment); Some (gpx +:+ t).
Proof.
  unfold emitMoment, serializePoint, pointOf, extensionsOf. cbn [tp_time serializeTime tp_lat tp_lon tp_extensions].
  destruct (timestampToISO (moment_at moment)) as [time|]; [|reflexivity].
  cbn [mbind option_bind]. f_equal.
  destruct (moment_alt moment), (moment_lap moment), (moment_pc moment);
    cbn [map concatText app]; unfold serializeExtension; cbn [fst snd];
    rewrite ?append_assoc; reflexivity.
Qed.

Lemma mapM_map {A B C : Type} (f : B → option C) (g : A → B) (l : list A) :
  mapM f (map g l) = mapM (λ x, f (g x)) l.
Proof. induction l as [|x l IH]; simpl; [reflexivity | now rewrite IH]. Qed.

Lemma mapM_app {A B : Type} (f : A → option B) (l1 l2 : list A) :
  mapM f (l1 ++ l2) = k1 ← mapM f l1; k2 ← mapM f l2; Some (k1 ++ k2).
Proof.
  induction l1 as [|x l1 IH]; simpl.
  - destruct (mapM f l2); reflexivity.
  - destruct (f x); simpl; [|reflexivity]. rewrite IH.
    destruct (mapM f l1); simpl; [|reflexivity].
    destruct (mapM f l2); reflexivity.
Qed.

Lemma emitBoat_serialize boatToTeam gpx visited boat :
  emitBoat boatToTeam (gpx, visited) boat =
  t ← serializeTrack (boatTrack boatToTeam boat);
  Some (gpx +:+ t, visited ++ [visitedBoat boat]).
Proof.
  unfold emitBoat, serializeTrack, boatTrack.
  cbn [trk_points trk_name trk_desc].
  rewrite (forEach_appends _ _ emitMoment_serialize), mapM_map.
  destruct (mapM _ (Array_sort byTimestamp (boat_moments boat))) as [points|];
    [|reflexivity].
  cbn [mbind option_bind]. unfold visitedBoat.
  rewrite ?append_assoc. reflexivity.
Qed.

Lemma forEach_emitBoat boatToTeam positions gpx visited :
  forEach (emitBoat boatToTeam) positions (gpx, visited) =
  ts ← mapM (λ boat, serializeTrack (boatTrack boatToTeam boat)) positions;
  Some (gpx +:+ concatText ts, visited ++ map visitedBoat positions).
Proof.
  revert gpx visited. induction positions as [|boat positions IH];
    intros gpx visited; cbn [forEach map mapM].
  - cbn. now rewrite append_nil_r, List.app_nil_r.
  - rewrite emitBoat_serialize.
    destruct (serializeTrack (boatTrack boatToTeam boat)) as [t|];
      cbn [mbind option_bind]; [|reflexivity].
    rewrite IH. destruct (mapM _ positions) as [ts|]; cbn [mbind option_bind];
      [|reflexivity].
    cbn [concatText]. now rewrite append_assoc, <- List.app_assoc.
Qed.

Lemma emitOverlayPoint_serialize overlay gpx point :
  emitOverlayPoint overlay gpx point =
  t ← serializePoint (overlayPointOf overlay point); Some (gpx +:+ t).
Proof.
  unfold emitOverlayPoint, serializePoint, overlayPointOf.
  cbn [tp_time serializeTime tp_lat tp_lon tp_extensions].
  destruct (timestampToISO_Num (point_at point)) as [time|]; [|reflexivity].
  cbn [mbind option_bind map concatText]. unfold serializeExtension. cbn [fst snd].
  rewrite ?append_assoc. reflexivity.
Qed.

Lemma emitOverlayTrack_serialize overlay gpx track :
  emitOverlayTrack overlay gpx track =
  t ← serializeTrack (overlayTrackOf overlay track); Some (gpx +:+ t).
Proof.
  unfold emitOverlayTrack, serializeTrack, overlayTrackOf.
  cbn [trk_points trk_name trk_desc].
  rewrite (forEach_appends _ _ (emitOverlayPoint_serialize overlay)), mapM_map.
  destruct (mapM _ (track_points track)) as [points|]; [|reflexivity].
  cbn [mbind option_bind]. rewrite ?append_assoc. reflexivity.
Qed.

Lemma emitOverlay_serialize gpx overlay :
  emitOverlay gpx overlay =
  ts ← mapM serializeTrack (overlayTracksOf overlay); Some (gpx +:+ concatText ts).
Proof.
  unfold emitOverlay, overlayTracksOf.
  destruct (overlay_tracks overlay) as [[|track tracks]|].
  - simpl. now rewrite append_nil_r.
  - rewrite (forEach_appends _ _ (emitOverlayTrack_serialize overlay)), mapM_map.
    reflexivity.
  - simpl. now rewrite append_nil_r.
Qed.

Lemma forEach_emitOverlay overlays gpx :
  forEach emitOverlay overlays gpx =
  ts ← mapM serializeTrack (flat_map overlayTracksOf overlays);
  Some (gpx +:+ concatText ts).
Proof.
  revert gpx. induction overlays as [|overlay overlays IH]; intros gpx; simpl.
  - now rewrite append_nil_r.
  - rewrite emitOverlay_serialize, mapM_app.
    destruct (mapM serializeTrack (overlayTracksOf overlay)) as [ts1|]; simpl;
      [|reflexivity].
    rewrite IH. destruct (mapM serializeTrack (flat_map _ overlays)) as [ts2|];
      simpl; [|reflexivity].
    now rewrite concatText_app, append_assoc.
Qed.

(** [generateGPX] writes the serialization of [documentOf], and leaves every
    boat with its moments sorted. *)
Lemma generateGPX_serialize now positions raceSetup :
  generateGPX now positions raceSetup =
  out ← serialize (documentOf now
           "Converted from race data using decyb-gpx-converter"
           raceSetup positions []);
  Some (out, map visitedBoat positions).
Proof.
  unfold generateGPX, serialize, documentOf.
  cbn [doc_tracks doc_title doc_time doc_desc flat_map].
  rewrite forEach_emitBoat, List.app_nil_r, mapM_map.
  destruct (mapM _ positions) as [ts|]; [|reflexivity].
  cbn [mbind option_bind]. unfold preamble. rewrite ?append_assoc. reflexivity.
Qed.

Lemma generateGPXWithOverlays_serialize now positions raceSetup overlays :
  generateGPXWithOverlays now positions raceSetup overlays =
  out ← serialize (documentOf now
           "Converted from race data using decyb-gpx-converter with overlays"
           raceSetup positions overlays);
  Some (out, map visitedBoat positions).
Proof.
  unfold generateGPXWithOverlays, serialize, documentOf.
  cbn [doc_tracks doc_title doc_time doc_desc].
  rewrite forEach_emitBoat, mapM_app, mapM_map.
  destruct (mapM _ positions) as [ts|]; [|reflexivity].
  cbn [mbind option_bind]. rewrite forEach_emitOverlay.
  destruct (mapM serializeTrack (flat_map overlayTracksOf overlays)) as [ts2|];
    [|reflexivity].
  cbn [mbind option_bind]. unfold preamble.
  rewrite concatText_app, ?append_assoc. reflexivity.
Qed.
End Refinement.

(* ===================================================================== *)
(** ** Facts about the sort *)
(* ===================================================================== *)

Section SortFacts.
Context {A : Type} (key : A → Z).

Let byKey (a b : A) : Z := key a - key b.
Let keyLe (a b : A) : Prop := key a ≤ key b.

Lemma insertSorted_Permutation (compare : A → A → Z) x l :
  insertSorted compare x l ≡ₚ x :: l.
Proof.
  induction l as [|y l IH]; simpl; [reflexivity|].
  destruct (compare x y <=? 0); [reflexivity|].
  rewrite IH. apply perm_swap.
Qed.

Lemma Array_sort_Permutation (compare : A → A → Z) l :
  Array_sort compare l ≡ₚ l.
Proof.
  induction l as [|x l IH]; simpl; [reflexivity|].
  rewrite insertSorted_Permutation. now rewrite IH.
Qed.

Lemma insertSorted_sorted x l :
  StronglySorted keyLe l → StronglySorted keyLe (insertSorted byKey x l).
Proof.
  induction 1 as [|y l Hl IH Hy]; simpl; [repeat constructor|].
  unfold byKey at 1. destruct (Z.leb_spec (key x - key y) 0) as [Hle|Hgt].
  - constructor; [now constructor|].
    constructor; [unfold keyLe; lia|].
    eapply Forall_impl; [exact Hy|]. unfold keyLe. intros z Hz. lia.
  - constructor; [exact IH|].
    rewrite insertSorted_Permutation. constructor; [unfold keyLe; lia | exact Hy].
Qed.

Lemma Array_sort_sorted l : StronglySorted keyLe (Array_sort byKey l).
Proof.
  induction l as [|x l IH]; simpl; [constructor|].
  now apply insertSorted_sorted.
Qed.

(** Stability: the elements with a given key keep their relative order. *)
Lemma insertSorted_stable k x l :
  filter (λ a, key a = k) (insertSorted byKey x l) =
  filter (λ a, key a = k) (x :: l).
Proof.
  induction l as [|y l IH]; simpl; [reflexivity|].
  unfold byKey at 1. destruct (Z.leb_spec (key x - key y) 0) as [Hle|Hgt];
    [reflexivity|].
  rewrite (filter_cons _ y (insertSorted _ _ _)), IH.
  rewrite !filter_cons.
  repeat case_decide; try reflexivity; lia.
Qed.

Lemma Array_sort_stable k l :
  filter (λ a, key a = k) (Array_sort byKey l) = filter (λ a, key a = k) l.
Proof.
  induction l as [|x l IH]; simpl; [reflexivity|].
  rewrite insertSorted_stable, !filter_cons, IH. reflexivity.
Qed.

(** An array already in order is left as it is. *)
Lemma insertSorted_head x l :
  Forall (keyLe x) l → insertSorted byKey x l = x :: l.
Proof.
  destruct 1 as [|y l Hy _]; simpl; [reflexivity|].
  unfold byKey. destruct (Z.leb_spec (key x - key y) 0); [reflexivity|].
  unfold keyLe in Hy. lia.
Qed.

Lemma Array_sort_sorted_id l :
  StronglySorted keyLe l → Array_sort byKey l = l.
Proof.
  induction 1 as [|x l Hl IH Hx]; simpl; [reflexivity|].
  rewrite IH. now apply insertSorted_head.
Qed.

Lemma Array_sort_idempotent l :
  Array_sort byKey (Array_sort byKey l) = Array_sort byKey l.
Proof. apply Array_sort_sorted_id, Array_sort_sorted. Qed.

(** Order and stability determine the result: whatever stable algorithm an
    engine runs, it returns what [Array_sort] returns. *)
Lemma stable_sorted_unique l1 l2 :
  StronglySorted keyLe l1 → StronglySorted keyLe l2 →
  (∀ k, filter (λ a, key a = k) l1 = filter (λ a, key a = k) l2) →
  l1 = l2.
Proof.
  intros Hs1. revert l2. induction Hs1 as [|x l1 Hl1 IH Hx]; intros l2 Hs2 Hf.
  - destruct l2 as [|y l2]; [reflexivity|].
    specialize (Hf (key y)). rewrite filter_cons_True in Hf by reflexivity.
    discriminate.
  - destruct Hs2 as [|y l2 Hl2 Hy].
    + specialize (Hf (key x)). rewrite filter_cons_True in Hf by reflexivity.
      discriminate.
    + assert (Hxy : key x = key y).
      { pose proof (Hf (key x)) as Fx. pose proof (Hf (key y)) as Fy.
        rewrite (filter_cons_True _ x) in Fx by reflexivity.
        rewrite (filter_cons_True _ y) in Fy by reflexivity.
        destruct (decide (key x = key y)) as [|Hne]; [assumption|].
        rewrite (filter_cons_False _ y) in Fx by congruence.
        rewrite (filter_cons_False _ x) in Fy by congruence.
        assert (x ∈ l2) as Hin2.
        { eapply (list_elem_of_filter (λ a, key a = key x)). rewrite <- Fx. left. }
        assert (y ∈ l1) as Hin1.
        { eapply (list_elem_of_filter (λ a, key a = key y)). rewrite Fy. left. }
        rewrite Forall_forall in Hx, Hy.
        pose proof (Hx _ Hin1). pose proof (Hy _ Hin2). unfold keyLe in *. lia. }
      pose proof (Hf (key x)) as Fx.
      rewrite (filter_cons_True _ x) in Fx by reflexivity.
      rewrite (filter_cons_True _ y) in Fx by congruence.
      injection Fx as -> Fx. f_equal. apply IH; [assumption|].
      intros k. specialize (Hf k). rewrite !filter_cons in Hf.
      case_decide; [now injection Hf | assumption].
Qed.

End SortFacts.

(* ===================================================================== *)
(** ** When the converter returns *)
(* ===================================================================== *)

Section Returns.
Context `{JsNumbers}.

Lemma timestampToISO_inDateRange timestamp :
  inDateRange timestamp →
  timestampToISO timestamp = Some (isoOfTimeValue (timestamp * 1000)).
Proof.
  unfold inDateRange, timestampToISO, timeClip. intros Hr.
  destruct (Z.leb_spec (Z.abs (timestamp * 1000)) 8640000000000000);
    [reflexivity | lia].
Qed.

Lemma serializePoint_pointOf moment :
  inDateRange (moment_at moment) → is_Some (serializePoint (pointOf moment)).
Proof.
  intros Hr. unfold serializePoint, pointOf. cbn [tp_time serializeTime].
  rewrite (timestampToISO_inDateRange _ Hr). cbn. eauto.
Qed.

Lemma serializeTrack_boatTrack boatToTeam boat :
  validBoat boat → is_Some (serializeTrack (boatTrack boatToTeam boat)).
Proof.
  intros Hv. unfold serializeTrack, boatTrack. cbn [trk_points].
  destruct (mapM_is_Some_2 serializePoint
              (map pointOf (Array_sort byTimestamp (boat_moments boat))))
    as [points ->]; [|cbn; eauto].
  apply Forall_map. rewrite Array_sort_Permutation.
  eapply Forall_impl; [exact Hv|]. intros m Hm. now apply serializePoint_pointOf.
Qed.

Lemma serializeTrack_overlayTracksOf overlay :
  validOverlay overlay →
  is_Some (mapM serializeTrack (overlayTracksOf overlay)).
Proof.
  unfold validOverlay, overlayTracksOf. intros Hv.
  destruct (overlay_tracks overlay) as [tracks|]; [|cbn; eauto].
  specialize (Hv _ eq_refl). apply mapM_is_Some_2, Forall_map.
  eapply Forall_impl; [exact Hv|]. intros track Ht.
  unfold serializeTrack, overlayTrackOf. cbn [trk_points compose].
  destruct (mapM_is_Some_2 serializePoint
              (map (overlayPointOf overlay) (track_points track)))
    as [points ->]; [|cbn; eauto].
  apply Forall_map. eapply Forall_impl; [exact Ht|]. intros point [tv Hp].
  unfold serializePoint, overlayPointOf. cbn [tp_time serializeTime compose].
  unfold timestampToISO_Num. rewrite Hp. cbn. eauto.
Qed.

Lemma serialize_documentOf now desc raceSetup positions overlays :
  Forall validBoat positions → Forall validOverlay overlays →
  is_Some (serialize (documentOf now desc raceSetup positions overlays)).
Proof.
  intros Hp Ho. unfold serialize, documentOf. cbn [doc_tracks].
  destruct (mapM_is_Some_2 serializeTrack
    (map (boatTrack (buildBoatToTeam raceSetup)) positions ++
     flat_map overlayTracksOf overlays)) as [tracks ->]; [|cbn; eauto].
  apply Forall_app. split.
  - apply Forall_map. eapply Forall_impl; [exact Hp|].
    intros boat Hb. now apply serializeTrack_boatTrack.
  - induction Ho as [|overlay overlays Hv _ IH]; [constructor|].
    cbn [flat_map]. apply Forall_app. split; [|exact IH].
    now apply mapM_is_Some_1, serializeTrack_overlayTracksOf.
Qed.

(** On timestamps [Date] can represent, both converters return: the
    document of [documentOf], serialized, and the boats with sorted moments. *)
Lemma generateGPX_returns now positions raceSetup :
  Forall validBoat positions →
  ∃ out,
    serialize (documentOf now
      "Converted from race data using decyb-gpx-converter"
      raceSetup positions []) = Some out ∧
    generateGPX now positions raceSetup = Some (out, map visitedBoat positions).
Proof.
  intros Hp. rewrite generateGPX_serialize.
  destruct (serialize_documentOf now
    "Converted from race data using decyb-gpx-converter"
    raceSetup positions [] Hp (List.Forall_nil _)) as [out ->].
  exists out. split; reflexivity.
Qed.

Lemma generateGPXWithOverlays_returns now positions raceSetup overlays :
  Forall validBoat positions → Forall validOverlay overlays →
  ∃ out,
    serialize (documentOf now
      "Converted from race data using decyb-gpx-converter with overlays"
      raceSetup positions overlays) = Some out ∧
    generateGPXWithOverlays now positions raceSetup overlays =
      Some (out, map visitedBoat positions).
Proof.
  intros Hp Ho. rewrite generateGPXWithOverlays_serialize.
  destruct (serialize_documentOf now
    "Converted from race data using decyb-gpx-converter with overlays"
    raceSetup positions overlays Hp Ho) as [out ->].
  exists out. split; reflexivity.
Qed.

End Returns.

(* ===================================================================== *)
(** ** Tracks of the boats *)
(* ===================================================================== *)

Section Tracks.
Context `{JsNumbers}.

Lemma generateGPX_writes now positions raceSetup :
  Forall validBoat positions →
  writes (generateGPX now positions raceSetup)
    (documentOf now "Converted from race data using decyb-gpx-converter"
       raceSetup positions []).
Proof.
  intros Hp. destruct (generateGPX_returns now positions raceSetup Hp)
    as (out & Hs & Hg).
  exists out, (map visitedBoat positions). split; assumption.
Qed.

Lemma generateGPXWithOverlays_writes now positions raceSetup overlays :
  Forall validBoat positions → Forall validOverlay overlays →
  writes (generateGPXWithOverlays now positions raceSetup overlays)
    (documentOf now
       "Converted from race data using decyb-gpx-converter with overlays"
       raceSetup positions overlays).
Proof.
  intros Hp Ho.
  destruct (generateGPXWithOverlays_returns now positions raceSetup overlays Hp Ho)
    as (out & Hs & Hg).
  exists out, (map visitedBoat positions). split; assumption.
Qed.

Lemma documentOf_track now desc raceSetup positions overlays i boat :
  positions !! i = Some boat →
  doc_tracks (documentOf now desc raceSetup positions overlays) !! i =
    Some (boatTrack (buildBoatToTeam raceSetup) boat).
Proof.
  intros Hi. unfold documentOf. cbn [doc_tracks].
  apply lookup_app_l_Some. change map with (@fmap list _) . 
  rewrite list_lookup_fmap, Hi. reflexivity.
Qed.

(** C1. Both converters write one boat track per PositionRecord, in the
    order of the records: the tracks of the document [generateGPX] writes
    are the tracks of the records, position by position (also for a record
    without moments, whose track has no point), and
    [generateGPXWithOverlays] writes the same tracks followed by the overlay
    tracks. *)
Theorem C1_one_track_per_position_record now positions raceSetup overlays :
  Forall validBoat positions → Forall validOverlay overlays →
  ∃ doc doc',
    writes (generateGPX now positions raceSetup) doc ∧
    writes (generateGPXWithOverlays now positions raceSetup overlays) doc' ∧
    length (doc_tracks doc) = length positions ∧
    doc_tracks doc = map (boatTrack (buildBoatToTeam raceSetup)) positions ∧
    doc_tracks doc' = doc_tracks doc ++ flat_map overlayTracksOf overlays ∧
    Forall2 (λ boat trk,
               length (trk_points trk) = length (boat_moments boat))
      positions (doc_tracks doc).
Proof.
  intros Hp Ho.
  eexists _, _. split; [exact (generateGPX_writes now positions raceSetup Hp)|].
  split; [exact (generateGPXWithOverlays_writes now positions raceSetup overlays Hp Ho)|].
  unfold documentOf. cbn [doc_tracks flat_map]. rewrite List.app_nil_r.
  repeat split.
  - apply length_map.
  - clear. induction positions as [|boat positions IH]; constructor; [|exact IH].
    unfold boatTrack. cbn [trk_points].
    rewrite length_map. apply Permutation_length, Array_sort_Permutation.
Qed.

(** C2. In the track of every boat the points are those of the boat's
    moments in non-decreasing order of timestamp, and the moments that share
    a timestamp come in the order they have in the input. *)
Theorem C2_points_sorted_by_timestamp_stable
    now positions raceSetup overlays i boat :
  Forall validBoat positions → Forall validOverlay overlays →
  positions !! i = Some boat →
  ∃ doc doc' trk sorted,
    writes (generateGPX now positions raceSetup) doc ∧
    writes (generateGPXWithOverlays now positions raceSetup overlays) doc' ∧
    doc_tracks doc !! i = Some trk ∧
    doc_tracks doc' !! i = Some trk ∧
    trk_points trk = map pointOf sorted ∧
    sorted ≡ₚ boat_moments boat ∧
    StronglySorted (λ a b, moment_at a ≤ moment_at b) sorted ∧
    ∀ t, filter (λ m, moment_at m = t) sorted =
         filter (λ m, moment_at m = t) (boat_moments boat).
Proof.
  intros Hp Ho Hi.
  eexists _, _, _, (Array_sort byTimestamp (boat_moments boat)).
  split; [exact (generateGPX_writes now positions raceSetup Hp)|].
  split; [exact (generateGPXWithOverlays_writes now positions raceSetup overlays Hp Ho)|].
  split; [exact (documentOf_track _ _ _ _ _ _ _ Hi)|].
  split; [exact (documentOf_track _ _ _ _ _ _ _ Hi)|].
  split; [reflexivity|].
  split; [apply Array_sort_Permutation|].
  split; [apply (Array_sort_sorted moment_at)|].
  intros t. apply (Array_sort_stable moment_at).
Qed.

End Tracks.

(* ===================================================================== *)
(** ** Escaping *)
(* ===================================================================== *)

Section Escaping.
Context `{JsNumbers}.

Lemma hasReserved_app (a b : string) :
  hasReserved (a +:+ b) = hasReserved a || hasReserved b.
Proof.
  unfold hasReserved. rewrite !occurs_app.
  destruct (occurs "&" a), (occurs "<" a), (occurs ">" a),
    (occurs (ascii_of_nat 34) a), (occurs "'" a); cbn;
    try reflexivity; try now rewrite ?orb_true_r.
Qed.

Lemma escapeChar_other c :
  hasReserved (String c "") = false → escapeChar c = String c "".
Proof.
  unfold hasReserved, escapeChar. cbn [occurs]. rewrite !orb_false_r.
  rewrite !(Ascii.eqb_sym c).
  destruct (Ascii.eqb "&" c), (Ascii.eqb "<" c), (Ascii.eqb ">" c),
    (Ascii.eqb (ascii_of_nat 34) c), (Ascii.eqb "'" c); cbn; intros Hr;
    first [discriminate Hr | reflexivity].
Qed.

(** A text without reserved characters is written as it is. *)
Lemma escapeXml_safe (text : string) :
  hasReserved text = false → escapeXml text = text.
Proof.
  intros Hs. rewrite escapeXml_substChars.
  induction text as [|x text IH]; [reflexivity|].
  change (String x text) with (String x "" +:+ text) in Hs.
  rewrite hasReserved_app in Hs. apply orb_false_elim in Hs as [Hx Ht].
  cbn [substChars]. rewrite (escapeChar_other _ Hx), (IH Ht). reflexivity.
Qed.

(** Escaping distributes over concatenation. *)
Lemma escapeXml_app (a b : string) :
  escapeXml (a +:+ b) = escapeXml a +:+ escapeXml b.
Proof. rewrite !escapeXml_substChars. apply substChars_app. Qed.

(** An escaped text holds none of the four characters [<], [>], the double
    quote and the apostrophe: every one of them has become an entity. *)
Lemma escapeXml_no_markup (text : string) (c : ascii) :
  In c ["<"; ">"; ascii_of_nat 34; "'"]%char →
  occurs c (escapeXml text) = false.
Proof.
  intros Hc. rewrite escapeXml_substChars.
  induction text as [|x text IH]; [reflexivity|].
  cbn [substChars]. rewrite occurs_app, IH, orb_false_r.
  unfold escapeChar.
  destruct (Ascii.eqb_spec x "&") as [->|N1];
    [simpl in Hc; intuition (subst; reflexivity)|].
  destruct (Ascii.eqb_spec x "<") as [->|N2];
    [simpl in Hc; intuition (subst; reflexivity)|].
  destruct (Ascii.eqb_spec x ">") as [->|N3];
    [simpl in Hc; intuition (subst; reflexivity)|].
  destruct (Ascii.eqb_spec x (ascii_of_nat 34)) as [->|N4];
    [simpl in Hc; intuition (subst; reflexivity)|].
  destruct (Ascii.eqb_spec x "'") as [->|N5];
    [simpl in Hc; intuition (subst; reflexivity)|].
  cbn [occurs]. rewrite orb_false_r. apply Ascii.eqb_neq.
  simpl in Hc. intuition congruence.
Qed.

(** The decimal form of an integer is made of digits and a minus sign. *)
Lemma occurs_string_of_uint c d :
  occurs c "0123456789" = false →
  occurs c (NilEmpty.string_of_uint d) = false.
Proof.
  intros Hc. cbn [occurs] in Hc.
  repeat (apply orb_false_elim in Hc as [? Hc]).
  induction d; cbn [NilEmpty.string_of_uint occurs]; try reflexivity;
    rewrite IHd, orb_false_r; assumption.
Qed.

Lemma occurs_Z_toString c z :
  occurs c "-0123456789" = false → occurs c (Z_toString z) = false.
Proof.
  intros Hc. cbn [occurs] in Hc. apply orb_false_elim in Hc as [Hm Hc].
  assert (Hz : occurs c "0" = false).
  { cbn [occurs]. apply orb_false_elim in Hc as [-> _]. reflexivity. }
  unfold Z_toString, NilZero.string_of_int, NilZero.string_of_uint.
  destruct (Z.to_int z) as [d|d]; [|cbn [occurs]; rewrite Hm; cbn [orb]];
    (destruct d; [exact Hz | apply occurs_string_of_uint; exact Hc ..]).
Qed.

Lemma hasReserved_Z_toString z : hasReserved (Z_toString z) = false.
Proof.
  unfold hasReserved. rewrite !occurs_Z_toString; reflexivity.
Qed.

(** Where [escapeXml] is applied: the title of the document, the name and
    the description of a boat's track, the name of an overlay track.  None
    of them holds markup. *)
Lemma documentOf_title_escaped now desc raceSetup positions overlays c :
  In c ["<"; ">"; ascii_of_nat 34; "'"]%char →
  occurs c (doc_title (documentOf now desc raceSetup positions overlays)) =
    false.
Proof. intros Hc. now apply escapeXml_no_markup. Qed.

Lemma boatTrack_escaped boatToTeam boat c :
  In c ["<"; ">"; ascii_of_nat 34; "'"]%char →
  occurs c (trk_name (boatTrack boatToTeam boat)) = false ∧
  occurs c (trk_desc (boatTrack boatToTeam boat)) = false.
Proof.
  intros Hc. unfold boatTrack. cbn [trk_name trk_desc].
  rewrite !occurs_app, !escapeXml_no_markup by exact Hc.
  split; [|reflexivity].
  simpl in Hc. intuition (subst; reflexivity).
Qed.

Lemma overlayTrackOf_name_escaped overlay track c :
  In c ["<"; ">"; ascii_of_nat 34; "'"]%char →
  occurs c (trk_name (overlayTrackOf overlay track)) = false.
Proof.
  intros Hc. unfold overlayTrackOf. cbn [trk_name].
  rewrite !occurs_app, !escapeXml_no_markup by exact Hc.
  simpl in Hc. intuition (subst; reflexivity).
Qed.

(** Where it is not: the description of an overlay track holds
    [overlay.source] as it is. *)
Lemma overlayTrackOf_desc_raw overlay track :
  trk_desc (overlayTrackOf overlay track) =
  "Overlay track from " +:+ overlay_source overlay.
Proof. reflexivity. Qed.

End Escaping.

(* ===================================================================== *)
(** ** Points and their extensions *)
(* ===================================================================== *)

Section Points.
Context `{JsNumbers}.

(** The extensions of the point of a moment. *)
Lemma pointOf_extensions moment :
  (∃ v, tp_extensions (pointOf moment) !! 0%nat = Some ("dtf", v) ∧
        (moment_dtf moment = None → v = "0") ∧
        (∀ d, moment_dtf moment = Some d →
              v = if Num_truthy d then Num_toString d else "0")) ∧
  (∀ v, ("ele", v) ∈ tp_extensions (pointOf moment) ↔
        Num_toString <$> moment_alt moment = Some v) ∧
  (∀ v, ("lap", v) ∈ tp_extensions (pointOf moment) ↔
        Num_toString <$> moment_lap moment = Some v) ∧
  (∀ v, ("pc", v) ∈ tp_extensions (pointOf moment) ↔
        Num_toString <$> moment_pc moment = Some v) ∧
  (∀ k v, (k, v) ∈ tp_extensions (pointOf moment) →
          k ∈ ["dtf"; "ele"; "lap"; "pc"]) ∧
  NoDup (map fst (tp_extensions (pointOf moment))).
Proof.
  unfold pointOf, extensionsOf. cbn [tp_extensions].
  split.
  { eexists. split; [reflexivity|]. split; intros; subst;
      match goal with E : moment_dtf _ = _ |- _ => rewrite E end; reflexivity. }
  destruct (moment_alt moment) as [alt|], (moment_lap moment) as [lap|],
    (moment_pc moment) as [pc|]; cbn [app fmap option_fmap option_map];
    (split; [|split; [|split; [|split]]]);
    try (intros v; rewrite ?elem_of_cons, ?elem_of_nil;
         intuition congruence);
    try (intros k v; rewrite ?elem_of_cons, ?elem_of_nil;
         intuition congruence);
    cbn [map fst]; repeat constructor;
    rewrite ?elem_of_cons, ?elem_of_nil; intuition congruence.
Qed.

(** C3. In the document [generateGPX] writes (and in the one
    [generateGPXWithOverlays] writes) the track of a boat has one point for
    each of the boat's moments, in the sorted order, with the moment's
    coordinates and time.  The extensions of that point always begin with
    [dtf], with the value 0 when the moment has no [dtf]; they hold an
    [ele], [lap] or [pc] entry exactly when the moment has an [alt], [lap]
    or [pc] field, with that field's value; they hold no other entry, and
    none twice, so an absent field leaves no element behind. *)
Theorem C3_extensions_follow_the_moment
    now positions raceSetup overlays i boat :
  Forall validBoat positions → Forall validOverlay overlays →
  positions !! i = Some boat →
  ∃ doc doc' trk sorted,
    writes (generateGPX now positions raceSetup) doc ∧
    writes (generateGPXWithOverlays now positions raceSetup overlays) doc' ∧
    doc_tracks doc !! i = Some trk ∧
    doc_tracks doc' !! i = Some trk ∧
    sorted ≡ₚ boat_moments boat ∧
    Forall2 (λ moment point,
        tp_lat point = moment_lat moment ∧
        tp_lon point = moment_lon moment ∧
        tp_time point = Seconds (moment_at moment) ∧
        (∃ v, tp_extensions point !! 0%nat = Some ("dtf", v) ∧
              (moment_dtf moment = None → v = "0") ∧
              (∀ d, moment_dtf moment = Some d →
                    v = if Num_truthy d then Num_toString d else "0")) ∧
        (∀ v, ("ele", v) ∈ tp_extensions point ↔
              Num_toString <$> moment_alt moment = Some v) ∧
        (∀ v, ("lap", v) ∈ tp_extensions point ↔
              Num_toString <$> moment_lap moment = Some v) ∧
        (∀ v, ("pc", v) ∈ tp_extensions point ↔
              Num_toString <$> moment_pc moment = Some v) ∧
        (∀ k v, (k, v) ∈ tp_extensions point →
                k ∈ ["dtf"; "ele"; "lap"; "pc"]) ∧
        NoDup (map fst (tp_extensions point)))
      sorted (trk_points trk).
Proof.
  intros Hp Ho Hi.
  eexists _, _, _, (Array_sort byTimestamp (boat_moments boat)).
  split; [exact (generateGPX_writes now positions raceSetup Hp)|].
  split; [exact (generateGPXWithOverlays_writes now positions raceSetup overlays Hp Ho)|].
  split; [exact (documentOf_track _ _ _ _ _ _ _ Hi)|].
  split; [exact (documentOf_track _ _ _ _ _ _ _ Hi)|].
  split; [apply Array_sort_Permutation|].
  unfold boatTrack. cbn [trk_points].
  induction (Array_sort byTimestamp (boat_moments boat)) as [|moment sorted IH];
    cbn [map]; constructor; [|exact IH].
  split; [reflexivity|]. split; [reflexivity|]. split; [reflexivity|].
  apply pointOf_extensions.
Qed.

End Points.

(* ===================================================================== *)
(** ** The roster *)
(* ===================================================================== *)

Section Roster.
Context `{JsNumbers}.

Lemma boatToTeam_fold_other (teams : list TeamRecord)
    (boatToTeam : gmap Z TeamRecord) id :
  Forall (λ t, team_id t ≠ id) teams →
  fold_left (λ tbl team, <[team_id team := team]> tbl) teams boatToTeam !! id =
  boatToTeam !! id.
Proof.
  intros Ht. revert boatToTeam.
  induction Ht as [|team teams Hid _ IH]; intros boatToTeam; cbn [fold_left];
    [reflexivity|].
  rewrite IH. now apply lookup_insert_ne.
Qed.

Lemma boatToTeam_fold_last (before after : list TeamRecord) team
    (boatToTeam : gmap Z TeamRecord) :
  Forall (λ t, team_id t ≠ team_id team) after →
  fold_left (λ tbl team, <[team_id team := team]> tbl)
    (before ++ team :: after) boatToTeam !! team_id team = Some team.
Proof.
  intros Ha. rewrite fold_left_app. cbn [fold_left].
  rewrite (boatToTeam_fold_other _ _ _ Ha). apply lookup_insert_eq.
Qed.

(** A boat whose id no team carries has no entry in [boatToTeam]. *)
Lemma buildBoatToTeam_unknown raceSetup id :
  (∀ teams, setup_teams raceSetup = Some teams →
            Forall (λ t, team_id t ≠ id) teams) →
  buildBoatToTeam raceSetup !! id = None.
Proof.
  unfold buildBoatToTeam. intros Ht.
  destruct (setup_teams raceSetup) as [teams|]; [|apply lookup_empty].
  rewrite (boatToTeam_fold_other _ _ _ (Ht _ eq_refl)). apply lookup_empty.
Qed.

(** A text that lacks the first character of [needle] does not hold
    [needle]. *)
Lemma includes_without_first c needle text :
  occurs c text = false → includes (String c needle) text = false.
Proof.
  induction text as [|x text IH]; [reflexivity|].
  cbn [occurs includes startsWith]. intros Ho.
  apply orb_false_elim in Ho as [Hx Ht].
  rewrite (Ascii.eqb_sym c x), Hx, (IH Ht). reflexivity.
Qed.

Lemma orElse_fallback field dflt : fallback dflt field (orElse field dflt).
Proof. destruct field as [[|c s]|]; constructor. Qed.

(** C6. When several teams of the roster share an id, [boatToTeam] holds the
    last of them, and the track of a boat with that id is named and
    described from that team's fields: the name and the owner make the
    name of the track, and the description spells the boat's id and that
    team's owner, model, country and sail number, each with its fallback. *)
Theorem C6_last_team_with_an_id_wins
    now positions raceSetup before team after i boat :
  Forall validBoat positions →
  setup_teams raceSetup = Some (before ++ team :: after) →
  Forall (λ t, team_id t ≠ team_id team) after →
  positions !! i = Some boat →
  boat_id boat = team_id team →
  buildBoatToTeam raceSetup !! boat_id boat = Some team ∧
  ∃ doc trk owner model country sail,
    writes (generateGPX now positions raceSetup) doc ∧
    doc_tracks doc !! i = Some trk ∧
    trk_name trk =
      escapeXml (orElse (team_name team) ("Boat " +:+ Z_toString (boat_id boat)))
      +:+ " (" +:+ escapeXml (orElse (team_owner team) "Unknown") +:+ ")" ∧
    fallback "Unknown" (team_owner team) owner ∧
    fallback "Unknown" (team_model team) model ∧
    fallback "Unknown" (team_country team) country ∧
    fallback "" (team_sail team) sail ∧
    trk_desc trk =
      escapeXml
        ("Boat ID: " +:+ Z_toString (boat_id boat) +:+ ", Owner: " +:+ owner +:+
         ", Model: " +:+ model +:+ ", Country: " +:+ country +:+
         match sail with
         | EmptyString => ""
         | _ => ", Sail: " +:+ sail
         end).
Proof.
  intros Hp Hteams Hafter Hi Hid.
  assert (Hlook : buildBoatToTeam raceSetup !! boat_id boat = Some team).
  { unfold buildBoatToTeam. rewrite Hteams, Hid.
    now apply boatToTeam_fold_last. }
  split; [exact Hlook|].
  exists (documentOf now "Converted from race data using decyb-gpx-converter"
            raceSetup positions []),
         (boatTrack (buildBoatToTeam raceSetup) boat),
         (orElse (team_owner team) "Unknown"),
         (orElse (team_model team) "Unknown"),
         (orElse (team_country team) "Unknown"),
         (orElse (team_sail team) "").
  split; [exact (generateGPX_writes now positions raceSetup Hp)|].
  split; [exact (documentOf_track _ _ _ _ _ _ _ Hi)|].
  unfold boatTrack. cbn [trk_name trk_desc]. rewrite Hlook.
  split; [reflexivity|].
  repeat (split; [apply orElse_fallback|]).
  unfold boatDesc. cbn [boatOwner boatModel boatCountry boatSail].
  destruct (orElse (team_sail team) "") as [|c s].
  - rewrite append_nil_r. reflexivity.
  - rewrite !append_assoc. reflexivity.
Qed.

(** C7. The track of a boat whose id matches no team is named
    [Boat {id} (Unknown)]; its description gives Unknown for the owner, the
    model and the country and has no sail field. *)
Theorem C7_unknown_boat_id now positions raceSetup i boat :
  Forall validBoat positions →
  positions !! i = Some boat →
  (∀ teams, setup_teams raceSetup = Some teams →
            Forall (λ t, team_id t ≠ boat_id boat) teams) →
  ∃ doc trk,
    writes (generateGPX now positions raceSetup) doc ∧
    doc_tracks doc !! i = Some trk ∧
    trk_name trk = "Boat " +:+ Z_toString (boat_id boat) +:+ " (Unknown)" ∧
    trk_desc trk =
      "Boat ID: " +:+ Z_toString (boat_id boat) +:+
      ", Owner: Unknown, Model: Unknown, Country: Unknown" ∧
    includes "Sail" (trk_desc trk) = false.
Proof.
  intros Hp Hi Hnone.
  pose proof (buildBoatToTeam_unknown raceSetup (boat_id boat) Hnone) as Hlook.
  eexists _, _.
  split; [exact (generateGPX_writes now positions raceSetup Hp)|].
  split; [exact (documentOf_track _ _ _ _ _ _ _ Hi)|].
  unfold boatTrack. cbn [trk_name trk_desc]. rewrite Hlook.
  cbn [boatName boatOwner boatDesc boatSail boatModel boatCountry].
  assert (Hname : escapeXml ("Boat " +:+ Z_toString (boat_id boat)) =
                  "Boat " +:+ Z_toString (boat_id boat)).
  { apply escapeXml_safe. rewrite hasReserved_app, hasReserved_Z_toString.
    reflexivity. }
  assert (Hdesc : escapeXml
            ("Boat ID: " +:+ Z_toString (boat_id boat) +:+ ", Owner: " +:+
             "Unknown" +:+ ", Model: " +:+ "Unknown" +:+ ", Country: " +:+
             "Unknown") =
            "Boat ID: " +:+ Z_toString (boat_id boat) +:+
            ", Owner: Unknown, Model: Unknown, Country: Unknown").
  { rewrite escapeXml_safe; [reflexivity|].
    rewrite !hasReserved_app, hasReserved_Z_toString. reflexivity. }
  rewrite Hname, Hdesc, append_assoc.
  split; [reflexivity|]. split; [reflexivity|].
  apply includes_without_first. rewrite !occurs_app, occurs_Z_toString; reflexivity.
Qed.
(** C10. With a matching team the fallbacks apply field by field: a name
    that is absent or empty gives [Boat {id}], an owner, model or country
    that is absent or empty gives Unknown, and an absent or empty sail
    number leaves the sail field out of the description. *)
Theorem C10_fallbacks_are_field_wise
    now positions raceSetup overlays i boat team :
  Forall validBoat positions → Forall validOverlay overlays →
  positions !! i = Some boat →
  buildBoatToTeam raceSetup !! boat_id boat = Some team →
  ∃ doc doc' trk name owner model country sail,
    writes (generateGPX now positions raceSetup) doc ∧
    writes (generateGPXWithOverlays now positions raceSetup overlays) doc' ∧
    doc_tracks doc !! i = Some trk ∧
    doc_tracks doc' !! i = Some trk ∧
    fallback ("Boat " +:+ Z_toString (boat_id boat)) (team_name team) name ∧
    fallback "Unknown" (team_owner team) owner ∧
    fallback "Unknown" (team_model team) model ∧
    fallback "Unknown" (team_country team) country ∧
    fallback "" (team_sail team) sail ∧
    trk_name trk = escapeXml name +:+ " (" +:+ escapeXml owner +:+ ")" ∧
    trk_desc trk =
      escapeXml
        ("Boat ID: " +:+ Z_toString (boat_id boat) +:+ ", Owner: " +:+ owner +:+
         ", Model: " +:+ model +:+ ", Country: " +:+ country +:+
         match sail with
         | EmptyString => ""
         | _ => ", Sail: " +:+ sail
         end).
Proof.
  intros Hp Ho Hi Hlook.
  exists (documentOf now "Converted from race data using decyb-gpx-converter"
            raceSetup positions []),
         (documentOf now
            "Converted from race data using decyb-gpx-converter with overlays"
            raceSetup positions overlays),
         (boatTrack (buildBoatToTeam raceSetup) boat),
         (orElse (team_name team) ("Boat " +:+ Z_toString (boat_id boat))),
         (orElse (team_owner team) "Unknown"),
         (orElse (team_model team) "Unknown"),
         (orElse (team_country team) "Unknown"),
         (orElse (team_sail team) "").
  split; [exact (generateGPX_writes now positions raceSetup Hp)|].
  split; [exact (generateGPXWithOverlays_writes now positions raceSetup overlays Hp Ho)|].
  split; [exact (documentOf_track _ _ _ _ _ _ _ Hi)|].
  split; [exact (documentOf_track _ _ _ _ _ _ _ Hi)|].
  repeat (split; [apply orElse_fallback|]).
  unfold boatTrack. cbn [trk_name trk_desc]. rewrite Hlook.
  split; [reflexivity|].
  unfold boatDesc. cbn [boatOwner boatModel boatCountry boatSail].
  destruct (orElse (team_sail team) "") as [|c s].
  - rewrite append_nil_r. reflexivity.
  - rewrite !append_assoc. reflexivity.
Qed.

End Roster.

(* ===================================================================== *)
(** ** What a run leaves behind, and what it depends on *)
(* ===================================================================== *)

Section Frame.
Context `{JsNumbers}.

Lemma visitedBoat_sorted boat :
  StronglySorted (λ a b, moment_at a ≤ moment_at b) (boat_moments boat) →
  visitedBoat boat = boat.
Proof.
  intros Hs. destruct boat as [id moments]. unfold visitedBoat.
  cbn [boat_id boat_moments] in *. f_equal.
  apply (Array_sort_sorted_id moment_at), Hs.
Qed.

Lemma visitedBoat_idempotent boat :
  visitedBoat (visitedBoat boat) = visitedBoat boat.
Proof. apply visitedBoat_sorted, (Array_sort_sorted moment_at). Qed.

Lemma boatTrack_visitedBoat boatToTeam boat :
  boatTrack boatToTeam (visitedBoat boat) = boatTrack boatToTeam boat.
Proof.
  unfold boatTrack, visitedBoat. cbn [boat_id boat_moments].
  change (Array_sort byTimestamp (Array_sort byTimestamp (boat_moments boat)))
    with (Array_sort (λ a b, moment_at a - moment_at b)
            (Array_sort (λ a b, moment_at a - moment_at b) (boat_moments boat))).
  rewrite (Array_sort_idempotent moment_at). reflexivity.
Qed.

(** C5 (as the code has it). The converters keep the PositionRecords, their
    order and their ids, and every moment, but [sort] reorders each boat's
    [moments] array in place: when a converter returns, the array holds the
    same moments in non-decreasing order of timestamp, those with equal
    timestamps in their original order; an array that was in that order
    already is unchanged. *)
Theorem C5_moments_are_sorted_in_place now positions raceSetup overlays :
  Forall validBoat positions → Forall validOverlay overlays →
  ∃ out out' after,
    generateGPX now positions raceSetup = Some (out, after) ∧
    generateGPXWithOverlays now positions raceSetup overlays =
      Some (out', after) ∧
    Forall2 (λ boat boat',
        boat_id boat' = boat_id boat ∧
        boat_moments boat' ≡ₚ boat_moments boat ∧
        StronglySorted (λ a b, moment_at a ≤ moment_at b) (boat_moments boat') ∧
        (∀ t, filter (λ m, moment_at m = t) (boat_moments boat') =
              filter (λ m, moment_at m = t) (boat_moments boat)) ∧
        (StronglySorted (λ a b, moment_at a ≤ moment_at b) (boat_moments boat) →
         boat' = boat))
      positions after.
Proof.
  intros Hp Ho.
  destruct (generateGPX_returns now positions raceSetup Hp) as (out & _ & Hg).
  destruct (generateGPXWithOverlays_returns now positions raceSetup overlays Hp Ho)
    as (out' & _ & Hg').
  exists out, out', (map visitedBoat positions).
  split; [exact Hg|]. split; [exact Hg'|]. clear.
  induction positions as [|boat positions IH]; constructor; [|exact IH].
  unfold visitedBoat at 1 2 3 4. cbn [boat_id boat_moments].
  split; [reflexivity|].
  split; [apply Array_sort_Permutation|].
  split; [apply (Array_sort_sorted moment_at)|].
  split; [intros t; apply (Array_sort_stable moment_at)|].
  apply visitedBoat_sorted.
Qed.

Lemma serialize_documentOf_now now desc raceSetup positions overlays :
  serialize (documentOf now desc raceSetup positions overlays) =
  tracks ← mapM serializeTrack
             (map (boatTrack (buildBoatToTeam raceSetup)) positions ++
              flat_map overlayTracksOf overlays);
  Some (untilTime raceSetup +:+ now +:+ "</time>" +:+ nl +:+
        "    <desc>" +:+ desc +:+ "</desc>" +:+ nl +:+
        "  </metadata>" +:+ nl +:+ concatText tracks +:+ "</gpx>").
Proof.
  unfold serialize, documentOf, untilTime.
  cbn [doc_tracks doc_title doc_time doc_desc].
  destruct (mapM serializeTrack _) as [tracks|]; [|reflexivity].
  cbn [mbind option_bind]. rewrite ?append_assoc. reflexivity.
Qed.

(** C9. The reading of the clock reaches the output of a converter in one
    place only, the time element of the metadata block: whether the call
    returns, everything else it writes, and what it leaves in [positions],
    are fixed by the inputs. *)
Theorem C9_output_fixed_but_for_generation_time positions raceSetup overlays :
  ∃ rest rest' : option (string * list PositionRecord),
    (∀ now, generateGPX now positions raceSetup =
       (λ r, (untilTime raceSetup +:+ now +:+ "</time>" +:+ r.1, r.2)) <$> rest) ∧
    (∀ now, generateGPXWithOverlays now positions raceSetup overlays =
       (λ r, (untilTime raceSetup +:+ now +:+ "</time>" +:+ r.1, r.2)) <$> rest').
Proof.
  eexists
    (tracks ← mapM serializeTrack
       (map (boatTrack (buildBoatToTeam raceSetup)) positions ++ flat_map overlayTracksOf []);
     Some (nl +:+ "    <desc>" +:+
           "Converted from race data using decyb-gpx-converter" +:+
           "</desc>" +:+ nl +:+ "  </metadata>" +:+ nl +:+
           concatText tracks +:+ "</gpx>", map visitedBoat positions)),
    (tracks ← mapM serializeTrack
       (map (boatTrack (buildBoatToTeam raceSetup)) positions ++ flat_map overlayTracksOf overlays);
     Some (nl +:+ "    <desc>" +:+
           "Converted from race data using decyb-gpx-converter with overlays" +:+
           "</desc>" +:+ nl +:+ "  </metadata>" +:+ nl +:+
           concatText tracks +:+ "</gpx>", map visitedBoat positions)).
  split; intros now.
  - rewrite generateGPX_serialize, serialize_documentOf_now.
    destruct (mapM serializeTrack _) as [tracks|]; reflexivity.
  - rewrite generateGPXWithOverlays_serialize, serialize_documentOf_now.
    destruct (mapM serializeTrack _) as [tracks|]; reflexivity.
Qed.

(** A second call on the arrays the first call has sorted writes the same
    document. *)
Lemma generateGPX_again now positions raceSetup out after :
  generateGPX now positions raceSetup = Some (out, after) →
  generateGPX now after raceSetup = Some (out, after).
Proof.
  rewrite !generateGPX_serialize. intros Hg.
  assert (Hafter : after = map visitedBoat positions).
  { destruct (serialize _); cbn in Hg; congruence. }
  subst after. unfold documentOf in *.
  rewrite !map_map.
  rewrite (map_ext _ _ (boatTrack_visitedBoat (buildBoatToTeam raceSetup))).
  rewrite (map_ext _ _ visitedBoat_idempotent).
  exact Hg.
Qed.

End Frame.

(* ===================================================================== *)
(** ** The track extractor *)
(* ===================================================================== *)

Section Extractor.
Context `{JsNumbers}.

Lemma collectTracks_hasPoints clock st gpxData :
  Forall hasPoints st.1 →
  Forall hasPoints (collectTracks clock st gpxData).1.
Proof.
  funelim (collectTracks clock st gpxData); intros Hst; [|exact Hst].
  match goal with IH : Forall hasPoints _ → _ |- _ => apply IH end.
  cbn [fst]. destruct (collectPoints _ _ _).1 as [|point points]; [exact Hst|].
  apply Forall_app. split; [exact Hst|].
  constructor; [|constructor]. unfold hasPoints. cbn. lia.
Qed.

(** C8. [parseGpxTrack] is total: on every text it returns a sequence of
    tracks, and every track of that sequence has at least one point.  When
    the sequence is empty the overlay group built from it adds nothing to
    the document and the converter goes on. *)
Theorem C8_extractor_total_tracks_have_points clock gpxData :
  ∃ tracks,
    parseGpxTrack clock gpxData = tracks ∧
    Forall hasPoints tracks ∧
    (tracks = [] →
     ∀ name color source gpx,
       emitOverlay gpx {| overlay_name := name; overlay_color := color;
                          overlay_source := source;
                          overlay_tracks := Some tracks |} = Some gpx).
Proof.
  exists (parseGpxTrack clock gpxData). split; [reflexivity|]. split.
  - unfold parseGpxTrack. apply collectTracks_hasPoints. constructor.
  - intros -> name color source gpx. reflexivity.
Qed.

End Extractor.

(* ===================================================================== *)
(** ** The code on the sample documents *)
(* ===================================================================== *)

Module SampleRuns.
Import Sample.

Example parseGpxTrack_gpxData :
  parseGpxTrack clock gpxData =
  [{| track_name := "Leg 1";
      track_points :=
        [{| point_lat := Some 21; point_lon := Some (-157);
            point_at := Some 1753333200 |};
         {| point_lat := Some 22; point_lon := Some (-158);
            point_at := Some 1753340000 |}] |}].
Proof. reflexivity. Qed.

Example parseGpxTrack_not_xml :
  parseGpxTrack clock "lat= <trk <trkpt></trk" = [].
Proof. reflexivity. Qed.

(** The sample runtime on texts of numbers and of dates. *)
Example parseFloat_sample :
  map parseFloat ["21"; "+21"; " -157"; "x"] =
  [Some 21; Some 21; Some (-157); None].
Proof. reflexivity. Qed.

Example Date_parseSeconds_sample :
  map Date_parseSeconds
    ["2025-07-24T05:00:00Z"; "2025-07-24T05:00:00.000Z";
     "2025-07-24T05:00:00+00:00"; "2025-07-24T07:00:00+02:00";
     "2025-13-24T05:00:00Z"; "2025-07-24T25:00:00Z"; "yesterday"] =
  [Some 1753333200; Some 1753333200; Some 1753333200; Some 1753333200;
   None; None; None].
Proof. reflexivity. Qed.

Example timestampToISO_epoch :
  timestampToISO 1753333200 = Some "2025-07-24T05:00:00.000Z".
Proof. reflexivity. Qed.

Example timestampToISO_out_of_range :
  timestampToISO 8640000000001 = None.
Proof. reflexivity. Qed.

Example escapeXml_reserved :
  escapeXml ("a&b<c>d'e" +:+ dq) = "a&amp;b&lt;c&gt;d&apos;e&quot;".
Proof. reflexivity. Qed.

(** The whole document for the second boat alone, character for
    character what the script prints. *)
Example generateGPX_boat2 :
  generateGPX "2025-07-24T06:00:00.000Z" [boat2] raceSetup =
  Some
    ("<?xml version=" +:+ dq +:+ "1.0" +:+ dq +:+ " encoding=" +:+ dq +:+ "UTF-8" +:+ dq +:+ "?>" +:+ nl +:+
     "<gpx version=" +:+ dq +:+ "1.1" +:+ dq +:+ " creator=" +:+ dq +:+ "decyb-gpx-converter" +:+ dq +:+ " xmlns=" +:+ dq +:+ "http://www.topografix.com/GPX/1/1" +:+ dq +:+ ">" +:+ nl +:+
     "  <metadata>" +:+ nl +:+
     "    <name>Test</name>" +:+ nl +:+
     "    <time>2025-07-24T06:00:00.000Z</time>" +:+ nl +:+
     "    <desc>Converted from race data using decyb-gpx-converter</desc>" +:+ nl +:+
     "  </metadata>" +:+ nl +:+
     "  <trk>" +:+ nl +:+
     "    <name>Boat 2 (Unknown)</name>" +:+ nl +:+
     "    <desc>Boat ID: 2, Owner: Unknown, Model: J/145, Country: Unknown, Sail: USA 7</desc>" +:+ nl +:+
     "    <trkseg>" +:+ nl +:+
     "      <trkpt lat=" +:+ dq +:+ "22" +:+ dq +:+ " lon=" +:+ dq +:+ "-158" +:+ dq +:+ ">" +:+ nl +:+
     "        <time>2025-07-24T05:00:00.000Z</time>" +:+ nl +:+
     "        <extensions>" +:+ nl +:+
     "          <dtf>12</dtf>" +:+ nl +:+
     "          <ele>5</ele>" +:+ nl +:+
     "          <pc>0</pc>" +:+ nl +:+
     "        </extensions>" +:+ nl +:+
     "      </trkpt>" +:+ nl +:+
     "    </trkseg>" +:+ nl +:+
     "  </trk>" +:+ nl +:+
     "</gpx>",
     [boat2]).
Proof. reflexivity. Qed.

(** The three tracks of the sample: the later team with id 1 names the
    first, the second falls back field by field, the third has no team. *)
Example documentOf_sample_names :
  map trk_name
    (doc_tracks (documentOf "NOW" "" raceSetup positions [overlay])) =
  ["Aimant &lt;de&gt; Fille (Steven &amp; Ernest)"; "Boat 2 (Unknown)";
   "Boat 7 (Unknown)"; "A &lt;-&gt; B - Leg 1"].
Proof. reflexivity. Qed.

(** What [generateGPX] leaves in [positions]: for each boat the timestamp
    and the latitude of its moments.  Boat 1 is now in order of time, the
    moments of a same time in their input order. *)
Example generateGPX_sample_positions :
  (λ r, map (λ b, map (λ m, (moment_at m, moment_lat m)) (boat_moments b)) r.2)
    <$> generateGPX "NOW" positions raceSetup =
  Some [[(10, Some 2); (10, Some 4); (30, Some 1); (30, Some 3)];
        [(1753333200, Some 22)]; []].
Proof. reflexivity. Qed.

(** *** Witnesses: the theorems at the sample documents *)

(** The timestamps of the sample are dates; the roster is a given list. *)
Ltac valid_positions := repeat constructor; unfold inDateRange; cbn; lia.

Ltac valid_overlays :=
  constructor; [|constructor]; intros ? [= <-]; repeat constructor; cbn; eauto.

Ltac no_such_team := intros ? [= <-]; repeat constructor; cbn; lia.

Lemma C1_witness :
  ∃ doc doc',
    writes (generateGPX "NOW" positions raceSetup) doc ∧
    writes (generateGPXWithOverlays "NOW" positions raceSetup [overlay]) doc' ∧
    length (doc_tracks doc) = length positions ∧
    doc_tracks doc = map (boatTrack (buildBoatToTeam raceSetup)) positions ∧
    doc_tracks doc' = doc_tracks doc ++ flat_map overlayTracksOf [overlay] ∧
    Forall2 (λ boat trk,
               length (trk_points trk) = length (boat_moments boat))
      positions (doc_tracks doc).
Proof.
  apply (C1_one_track_per_position_record "NOW" positions raceSetup [overlay]);
    [valid_positions | valid_overlays].
Defined.

Lemma C2_witness :
  ∃ doc doc' trk sorted,
    writes (generateGPX "NOW" positions raceSetup) doc ∧
    writes (generateGPXWithOverlays "NOW" positions raceSetup [overlay]) doc' ∧
    doc_tracks doc !! 0%nat = Some trk ∧
    doc_tracks doc' !! 0%nat = Some trk ∧
    trk_points trk = map pointOf sorted ∧
    sorted ≡ₚ boat_moments boat1 ∧
    StronglySorted (λ a b, moment_at a ≤ moment_at b) sorted ∧
    ∀ t, filter (λ m, moment_at m = t) sorted =
         filter (λ m, moment_at m = t) (boat_moments boat1).
Proof.
  apply (C2_points_sorted_by_timestamp_stable "NOW" positions raceSetup
           [overlay] 0 boat1); [valid_positions | valid_overlays | reflexivity].
Defined.

Lemma C3_witness :
  ∃ doc doc' trk sorted,
    writes (generateGPX "NOW" positions raceSetup) doc ∧
    writes (generateGPXWithOverlays "NOW" positions raceSetup [overlay]) doc' ∧
    doc_tracks doc !! 1%nat = Some trk ∧
    doc_tracks doc' !! 1%nat = Some trk ∧
    sorted ≡ₚ boat_moments boat2 ∧
    Forall2 (λ moment point,
        tp_lat point = moment_lat moment ∧
        tp_lon point = moment_lon moment ∧
        tp_time point = Seconds (moment_at moment) ∧
        (∃ v, tp_extensions point !! 0%nat = Some ("dtf", v) ∧
              (moment_dtf moment = None → v = "0") ∧
              (∀ d, moment_dtf moment = Some d →
                    v = if Num_truthy d then Num_toString d else "0")) ∧
        (∀ v, ("ele", v) ∈ tp_extensions point ↔
              Num_toString <$> moment_alt moment = Some v) ∧
        (∀ v, ("lap", v) ∈ tp_extensions point ↔
              Num_toString <$> moment_lap moment = Some v) ∧
        (∀ v, ("pc", v) ∈ tp_extensions point ↔
              Num_toString <$> moment_pc moment = Some v) ∧
        (∀ k v, (k, v) ∈ tp_extensions point →
                k ∈ ["dtf"; "ele"; "lap"; "pc"]) ∧
        NoDup (map fst (tp_extensions point)))
      sorted (trk_points trk).
Proof.
  apply (C3_extensions_follow_the_moment "NOW" positions raceSetup [overlay]
           1 boat2); [valid_positions | valid_overlays | reflexivity].
Defined.

Example emitMoment_fullMoment :
  emitMoment "" fullMoment =
  Some ("      <trkpt lat=" +:+ dq +:+ "22" +:+ dq +:+ " lon=" +:+ dq +:+
        "-158" +:+ dq +:+ ">" +:+ nl +:+
        "        <time>2025-07-24T05:00:00.000Z</time>" +:+ nl +:+
        "        <extensions>" +:+ nl +:+
        "          <dtf>12</dtf>" +:+ nl +:+
        "          <ele>5</ele>" +:+ nl +:+
        "          <pc>0</pc>" +:+ nl +:+
        "        </extensions>" +:+ nl +:+
        "      </trkpt>" +:+ nl).
Proof. reflexivity. Qed.

Lemma C5_witness :
  ∃ out out' after,
    generateGPX "NOW" positions raceSetup = Some (out, after) ∧
    generateGPXWithOverlays "NOW" positions raceSetup [overlay] =
      Some (out', after) ∧
    Forall2 (λ boat boat',
        boat_id boat' = boat_id boat ∧
        boat_moments boat' ≡ₚ boat_moments boat ∧
        StronglySorted (λ a b, moment_at a ≤ moment_at b) (boat_moments boat') ∧
        (∀ t, filter (λ m, moment_at m = t) (boat_moments boat') =
              filter (λ m, moment_at m = t) (boat_moments boat)) ∧
        (StronglySorted (λ a b, moment_at a ≤ moment_at b) (boat_moments boat) →
         boat' = boat))
      positions after.
Proof.
  apply (C5_moments_are_sorted_in_place "NOW" positions raceSetup [overlay]);
    [valid_positions | valid_overlays].
Defined.

(** C5 as first stated, that the input is left as it was, fails on boat 1:
    after the call its [moments] array is in order of time, which it was
    not. *)
Lemma C5_counterexample :
  (λ r, r.2) <$> generateGPX "NOW" [boat1] raceSetup =
    Some [{| boat_id := 1;
             boat_moments :=
               [moment 10 2; moment 10 4; moment 30 1; moment 30 3] |}] ∧
  [{| boat_id := 1;
      boat_moments := [moment 10 2; moment 10 4; moment 30 1; moment 30 3] |}]
  ≠ [boat1].
Proof. split; [reflexivity | discriminate]. Qed.

Lemma C6_witness :
  buildBoatToTeam raceSetup !! boat_id boat1 = Some team1 ∧
  ∃ doc trk owner model country sail,
    writes (generateGPX "NOW" positions raceSetup) doc ∧
    doc_tracks doc !! 0%nat = Some trk ∧
    trk_name trk =
      escapeXml (orElse (team_name team1) ("Boat " +:+ Z_toString (boat_id boat1)))
      +:+ " (" +:+ escapeXml (orElse (team_owner team1) "Unknown") +:+ ")" ∧
    fallback "Unknown" (team_owner team1) owner ∧
    fallback "Unknown" (team_model team1) model ∧
    fallback "Unknown" (team_country team1) country ∧
    fallback "" (team_sail team1) sail ∧
    trk_desc trk =
      escapeXml
        ("Boat ID: " +:+ Z_toString (boat_id boat1) +:+ ", Owner: " +:+ owner +:+
         ", Model: " +:+ model +:+ ", Country: " +:+ country +:+
         match sail with
         | EmptyString => ""
         | _ => ", Sail: " +:+ sail
         end).
Proof.
  apply (C6_last_team_with_an_id_wins "NOW" positions raceSetup
           [earlierTeam1; team2] team1 [] 0 boat1);
    [valid_positions | reflexivity | constructor | reflexivity | reflexivity].
Defined.

Example boatTrack_boat1_name :
  trk_name (boatTrack (buildBoatToTeam raceSetup) boat1) =
  "Aimant &lt;de&gt; Fille (Steven &amp; Ernest)".
Proof. reflexivity. Qed.

Example boatTrack_boat1_desc :
  trk_desc (boatTrack (buildBoatToTeam raceSetup) boat1) =
  "Boat ID: 1, Owner: Steven &amp; Ernest, Model: J/145, Country: US".
Proof. reflexivity. Qed.

Lemma C7_witness :
  ∃ doc trk,
    writes (generateGPX "NOW" positions raceSetup) doc ∧
    doc_tracks doc !! 2%nat = Some trk ∧
    trk_name trk = "Boat " +:+ Z_toString (boat_id boat7) +:+ " (Unknown)" ∧
    trk_desc trk =
      "Boat ID: " +:+ Z_toString (boat_id boat7) +:+
      ", Owner: Unknown, Model: Unknown, Country: Unknown" ∧
    includes "Sail" (trk_desc trk) = false.
Proof.
  apply (C7_unknown_boat_id "NOW" positions raceSetup 2 boat7);
    [valid_positions | reflexivity | no_such_team].
Defined.

Lemma C8_witness :
  parseGpxTrack clock gpxWithoutPoints = [] ∧
  ∀ gpx, emitOverlay gpx
           {| overlay_name := "Overlay Track"; overlay_color := "FF0000";
              overlay_source := "empty.gpx";
              overlay_tracks := Some (parseGpxTrack clock gpxWithoutPoints) |} =
         Some gpx.
Proof.
  split; [reflexivity|]. intros gpx.
  destruct (C8_extractor_total_tracks_have_points clock gpxWithoutPoints)
    as (tracks & Htracks & _ & Hnone).
  rewrite Htracks. apply Hnone. rewrite <- Htracks. reflexivity.
Defined.

Lemma C10_witness :
  ∃ doc doc' trk name owner model country sail,
    writes (generateGPX "NOW" positions raceSetup) doc ∧
    writes (generateGPXWithOverlays "NOW" positions raceSetup [overlay]) doc' ∧
    doc_tracks doc !! 1%nat = Some trk ∧
    doc_tracks doc' !! 1%nat = Some trk ∧
    fallback ("Boat " +:+ Z_toString (boat_id boat2)) (team_name team2) name ∧
    fallback "Unknown" (team_owner team2) owner ∧
    fallback "Unknown" (team_model team2) model ∧
    fallback "Unknown" (team_country team2) country ∧
    fallback "" (team_sail team2) sail ∧
    trk_name trk = escapeXml name +:+ " (" +:+ escapeXml owner +:+ ")" ∧
    trk_desc trk =
      escapeXml
        ("Boat ID: " +:+ Z_toString (boat_id boat2) +:+ ", Owner: " +:+ owner +:+
         ", Model: " +:+ model +:+ ", Country: " +:+ country +:+
         match sail with
         | EmptyString => ""
         | _ => ", Sail: " +:+ sail
         end).
Proof.
  apply (C10_fallbacks_are_field_wise "NOW" positions raceSetup [overlay] 1
           boat2 team2);
    [valid_positions | valid_overlays | reflexivity | reflexivity].
Defined.

Example boatTrack_boat2 :
  trk_name (boatTrack (buildBoatToTeam raceSetup) boat2) = "Boat 2 (Unknown)" ∧
  trk_desc (boatTrack (buildBoatToTeam raceSetup) boat2) =
    "Boat ID: 2, Owner: Unknown, Model: J/145, Country: Unknown, Sail: USA 7".
Proof. split; reflexivity. Qed.

(** *** The description of an overlay track *)

(** C4 fails on the code.  The title, the names and the descriptions of the
    boats go through [escapeXml], and so does the name of an overlay track,
    but the description of an overlay track is written with
    [overlay.source] as it is: for the overlay read from [a&b.gpx] the
    document holds a bare ampersand. *)
Theorem C4_overlay_description_is_not_escaped :
  generateGPXWithOverlays "NOW" [] raceSetup [overlay] =
  Some
    ("<?xml version=" +:+ dq +:+ "1.0" +:+ dq +:+ " encoding=" +:+ dq +:+ "UTF-8" +:+ dq +:+ "?>" +:+ nl +:+
     "<gpx version=" +:+ dq +:+ "1.1" +:+ dq +:+ " creator=" +:+ dq +:+ "decyb-gpx-converter" +:+ dq +:+ " xmlns=" +:+ dq +:+ "http://www.topografix.com/GPX/1/1" +:+ dq +:+ ">" +:+ nl +:+
     "  <metadata>" +:+ nl +:+
     "    <name>Test</name>" +:+ nl +:+
     "    <time>NOW</time>" +:+ nl +:+
     "    <desc>Converted from race data using decyb-gpx-converter with overlays</desc>" +:+ nl +:+
     "  </metadata>" +:+ nl +:+
     "  <trk>" +:+ nl +:+
     "    <name>A &lt;-&gt; B - Leg 1</name>" +:+ nl +:+
     "    <desc>Overlay track from a&b.gpx</desc>" +:+ nl +:+
     "    <trkseg>" +:+ nl +:+
     "      <trkpt lat=" +:+ dq +:+ "21" +:+ dq +:+ " lon=" +:+ dq +:+ "-157" +:+ dq +:+ ">" +:+ nl +:+
     "        <time>2025-07-24T05:00:00.000Z</time>" +:+ nl +:+
     "        <extensions>" +:+ nl +:+
     "          <overlay>true</overlay>" +:+ nl +:+
     "          <color>FF0000</color>" +:+ nl +:+
     "        </extensions>" +:+ nl +:+
     "      </trkpt>" +:+ nl +:+
     "    </trkseg>" +:+ nl +:+
     "  </trk>" +:+ nl +:+
     "</gpx>",
     []) ∧
  hasReserved (trk_desc (overlayTrackOf overlay
                 {| track_name := "Leg 1"; track_points := [] |})) = true.
Proof. split; reflexivity. Qed.

End SampleRuns.

(* ===================================================================== *)
(** ** More on escaping *)
(* ===================================================================== *)

Section EscapingMore.
Context `{JsNumbers}.

Lemma length_append (a b : string) :
  String.length (a +:+ b) = (String.length a + String.length b)%nat.
Proof.
  induction a as [|x a IH]; [reflexivity|].
  rewrite append_cons. cbn [String.length]. now rewrite IH.
Qed.

Lemma escapeChar_length c :
  (1 ≤ String.length (escapeChar c))%nat ∧
  (hasReserved (String c "") = true → 2 ≤ String.length (escapeChar c))%nat.
Proof.
  unfold escapeChar, hasReserved. cbn [occurs]. rewrite !orb_false_r.
  destruct (Ascii.eqb_spec c "&") as [->|N1]; [cbn; lia|].
  destruct (Ascii.eqb_spec c "<") as [->|N2]; [cbn; lia|].
  destruct (Ascii.eqb_spec c ">") as [->|N3]; [cbn; lia|].
  destruct (Ascii.eqb_spec c (ascii_of_nat 34)) as [->|N4]; [cbn; lia|].
  destruct (Ascii.eqb_spec c "'") as [->|N5]; [cbn; lia|].
  cbn. split; [lia|discriminate].
Qed.

Lemma escapeXml_length (text : string) :
  (String.length text ≤ String.length (escapeXml text))%nat ∧
  (hasReserved text = true →
   String.length text < String.length (escapeXml text))%nat.
Proof.
  rewrite escapeXml_substChars.
  induction text as [|x text [IHle IHlt]]; [split; [reflexivity|discriminate]|].
  cbn [substChars]. rewrite length_append. cbn [String.length].
  destruct (escapeChar_length x) as [H1 H2]. split; [lia|].
  change (String x text) with (String x "" +:+ text).
  rewrite hasReserved_app. intros [Hx|Ht]%orb_true_iff.
  - specialize (H2 Hx). lia.
  - specialize (IHlt Ht). lia.
Qed.

Lemma escapeXml_fixed (text : string) :
  escapeXml text = text → hasReserved text = false.
Proof.
  intros Heq. destruct (hasReserved text) eqn:Hr; [|reflexivity].
  destruct (escapeXml_length text) as [_ Hlt]. specialize (Hlt Hr).
  rewrite Heq in Hlt. lia.
Qed.

(** X1: [escapeXml] leaves a text as it is exactly when the text holds none
    of the five reserved characters. *)
Theorem escapeXml_fixes_exactly_plain_text (text : string) :
  escapeXml text = text ↔ hasReserved text = false.
Proof. split; [apply escapeXml_fixed | apply escapeXml_safe]. Qed.

Lemma substChars_escapeChar_inj (a b : string) :
  substChars escapeChar a = substChars escapeChar b → a = b.
Proof.
  revert b. induction a as [|x a IH]; intros [|y b] Heq; cbn [substChars] in Heq.
  - reflexivity.
  - exfalso. destruct (escapeChar_length y) as [Hy _].
    apply (f_equal String.length) in Heq. rewrite length_append in Heq.
    cbn [String.length] in Heq. lia.
  - exfalso. destruct (escapeChar_length x) as [Hx _].
    apply (f_equal String.length) in Heq. rewrite length_append in Heq.
    cbn [String.length] in Heq. lia.
  - unfold escapeChar in Heq.
    destruct (Ascii.eqb_spec x "&") as [->|Nx1];
      [|destruct (Ascii.eqb_spec x "<") as [->|Nx2];
        [|destruct (Ascii.eqb_spec x ">") as [->|Nx3];
          [|destruct (Ascii.eqb_spec x (ascii_of_nat 34)) as [->|Nx4];
            [|destruct (Ascii.eqb_spec x "'") as [->|Nx5]]]]];
    (destruct (Ascii.eqb_spec y "&") as [->|Ny1];
      [|destruct (Ascii.eqb_spec y "<") as [->|Ny2];
        [|destruct (Ascii.eqb_spec y ">") as [->|Ny3];
          [|destruct (Ascii.eqb_spec y (ascii_of_nat 34)) as [->|Ny4];
            [|destruct (Ascii.eqb_spec y "'") as [->|Ny5]]]]]);
    cbv beta iota fix delta [String.append Ascii.eqb Bool.eqb ascii_of_nat
      ascii_of_pos ascii_of_N Pos.of_succ_nat Pos.succ] in Heq;
    try discriminate Heq;
    try (injection Heq as Heq; f_equal; apply IH; exact Heq);
    try (injection Heq as -> Heq; f_equal; apply IH; exact Heq);
    injection Heq as Hc _; congruence.
Qed.

(** X2: escaping loses nothing: two texts with the same escaped form are
    the same text. *)
Theorem escapeXml_injective (a b : string) :
  escapeXml a = escapeXml b → a = b.
Proof. rewrite !escapeXml_substChars. apply substChars_escapeChar_inj. Qed.

(** X3: escaping an escaped text again changes it, unless there was nothing
    to escape: the ampersand of every entity is escaped once more. *)
Theorem escapeXml_twice (text : string) :
  escapeXml (escapeXml text) = escapeXml text ↔ hasReserved text = false.
Proof.
  split.
  - intros Heq. apply escapeXml_fixed.
    rewrite !escapeXml_substChars in *. now apply substChars_escapeChar_inj.
  - intros Hr. now rewrite !(escapeXml_safe text Hr).
Qed.

(** X4: none of the markup characters (the angle brackets and the two
    quotes) is left in an escaped text. *)
Theorem escapeXml_output_has_no_markup (text : string) :
  occurs "<" (escapeXml text) = false ∧
  occurs ">" (escapeXml text) = false ∧
  occurs (ascii_of_nat 34) (escapeXml text) = false ∧
  occurs "'" (escapeXml text) = false.
Proof.
  repeat split; apply escapeXml_no_markup; simpl; auto.
Qed.

(** X5: the escaped form of a concatenation is the concatenation of the
    escaped forms: a text put together from escaped parts is escaped as a
    whole, whatever entity or markup its parts would spell together. *)
Theorem escapeXml_of_concatenation (a b : string) :
  escapeXml (a +:+ b) = escapeXml a +:+ escapeXml b.
Proof. apply escapeXml_app. Qed.

End EscapingMore.

(* ===================================================================== *)
(** ** More on the converters *)
(* ===================================================================== *)

Section ConvertersMore.
Context `{JsNumbers}.

(** *** When a converter throws *)

Lemma timestampToISO_is_Some timestamp :
  is_Some (timestampToISO timestamp) ↔ inDateRange timestamp.
Proof.
  split.
  - unfold timestampToISO, timeClip, inDateRange. intros [iso Hiso].
    destruct (Z.leb_spec (Z.abs (timestamp * 1000)) 8640000000000000);
      [lia | discriminate].
  - intros Hr. rewrite (timestampToISO_inDateRange _ Hr). eauto.
Qed.

Lemma serializePoint_is_Some point :
  is_Some (serializePoint point) ↔ is_Some (serializeTime (tp_time point)).
Proof.
  unfold serializePoint. destruct (serializeTime (tp_time point)); cbn;
    split; intros [? ?]; eauto; discriminate.
Qed.

Lemma serializeTrack_is_Some track :
  is_Some (serializeTrack track) ↔
  Forall (λ p, is_Some (serializeTime (tp_time p))) (trk_points track).
Proof.
  unfold serializeTrack.
  rewrite <- (Forall_iff (is_Some ∘ serializePoint))
    by (intros p; apply serializePoint_is_Some).
  rewrite <- mapM_is_Some.
  destruct (mapM serializePoint (trk_points track)); cbn;
    split; intros [? ?]; eauto; discriminate.
Qed.

Lemma serializeTrack_boatTrack_is_Some boatToTeam boat :
  is_Some (serializeTrack (boatTrack boatToTeam boat)) ↔ validBoat boat.
Proof.
  rewrite serializeTrack_is_Some. unfold boatTrack, validBoat.
  cbn [trk_points]. rewrite Forall_map, Array_sort_Permutation.
  apply Forall_iff. intros m. cbn. apply timestampToISO_is_Some.
Qed.

Lemma serializeTrack_overlayTrackOf_is_Some overlay track :
  is_Some (serializeTrack (overlayTrackOf overlay track)) ↔
  Forall (λ point, is_Some (Num_timeValue (point_at point)))
    (track_points track).
Proof.
  rewrite serializeTrack_is_Some. unfold overlayTrackOf. cbn [trk_points].
  rewrite Forall_map. apply Forall_iff. intros p. cbn.
  unfold timestampToISO_Num, Date_toISOString.
  destruct (Num_timeValue (point_at p)); cbn; split; intros [? ?]; eauto;
    discriminate.
Qed.

Lemma serialize_is_Some doc :
  is_Some (serialize doc) ↔
  Forall (λ t, is_Some (serializeTrack t)) (doc_tracks doc).
Proof.
  unfold serialize. rewrite <- (mapM_is_Some serializeTrack).
  destruct (mapM serializeTrack (doc_tracks doc)); cbn;
    split; intros [? ?]; eauto; discriminate.
Qed.

Lemma overlays_valid_iff overlays :
  Forall (λ t, is_Some (serializeTrack t)) (flat_map overlayTracksOf overlays) ↔
  Forall validOverlay overlays.
Proof.
  induction overlays as [|overlay overlays IH]; cbn [flat_map].
  - split; constructor.
  - rewrite Forall_app, Forall_cons, IH.
    apply and_iff_compat_r. unfold overlayTracksOf, validOverlay.
    destruct (overlay_tracks overlay) as [tracks|].
    + rewrite Forall_map. split.
      * intros Ht ? [= <-]. eapply Forall_impl; [exact Ht|].
        intros track. apply serializeTrack_overlayTrackOf_is_Some.
      * intros Ht. eapply Forall_impl; [exact (Ht _ eq_refl)|].
        intros track. apply serializeTrack_overlayTrackOf_is_Some.
    + split; [intros _ ? [=] | constructor].
Qed.

(** X6: [generateGPX] returns exactly when every timestamp is one [Date] can
    represent, at most 8.64e12 seconds from the epoch; a single moment
    outside that range makes the whole call throw. *)
Theorem generateGPX_returns_iff now positions raceSetup :
  is_Some (generateGPX now positions raceSetup) ↔
  Forall (λ boat,
    Forall (λ moment, -8640000000000 ≤ moment_at moment ≤ 8640000000000)
      (boat_moments boat)) positions.
Proof.
  rewrite generateGPX_serialize.
  transitivity (is_Some (serialize (documentOf now
    "Converted from race data using decyb-gpx-converter"
    raceSetup positions []))).
  { destruct (serialize _); cbn; split; intros [? ?]; eauto; discriminate. }
  rewrite serialize_is_Some. unfold documentOf. cbn [doc_tracks flat_map].
  rewrite List.app_nil_r, Forall_map. apply Forall_iff. intros boat.
  cbn. apply serializeTrack_boatTrack_is_Some.
Qed.

(** X7: [generateGPXWithOverlays] returns exactly when, besides, the time of
    every overlay point is a date: a point whose time element could not be
    read carries NaN, and makes the call throw. *)
Theorem generateGPXWithOverlays_returns_iff now positions raceSetup overlays :
  is_Some (generateGPXWithOverlays now positions raceSetup overlays) ↔
  Forall (λ boat,
    Forall (λ moment, -8640000000000 ≤ moment_at moment ≤ 8640000000000)
      (boat_moments boat)) positions ∧
  Forall (λ overlay, ∀ tracks, overlay_tracks overlay = Some tracks →
    Forall (λ track,
      Forall (λ point, is_Some (Num_timeValue (point_at point)))
        (track_points track)) tracks) overlays.
Proof.
  rewrite generateGPXWithOverlays_serialize.
  transitivity (is_Some (serialize (documentOf now
    "Converted from race data using decyb-gpx-converter with overlays"
    raceSetup positions overlays))).
  { destruct (serialize _); cbn; split; intros [? ?]; eauto; discriminate. }
  rewrite serialize_is_Some. unfold documentOf. cbn [doc_tracks].
  rewrite Forall_app, Forall_map, overlays_valid_iff.
  apply and_iff_compat_r. apply Forall_iff. intros boat.
  cbn. apply serializeTrack_boatTrack_is_Some.
Qed.

End ConvertersMore.

Section ConvertersJoin.
Context `{JsNumbers}.

(** *** The join of boats and teams *)

Lemma boatToTeam_fold_lookup (teams : list TeamRecord)
    (boatToTeam : gmap Z TeamRecord) id team :
  fold_left (λ tbl team, <[team_id team := team]> tbl) teams boatToTeam !! id =
    Some team →
  (team ∈ teams ∧ team_id team = id) ∨ boatToTeam !! id = Some team.
Proof.
  revert boatToTeam. induction teams as [|t teams IH]; intros boatToTeam;
    cbn [fold_left]; [auto|].
  intros Hl. destruct (IH _ Hl) as [[Hin Hid]|Hins].
  - left. split; [now right | exact Hid].
  - destruct (decide (team_id t = id)) as [<-|Hne].
    + rewrite lookup_insert_eq in Hins. injection Hins as <-.
      left. split; [now left | reflexivity].
    + rewrite lookup_insert_ne in Hins by exact Hne. now right.
Qed.

Lemma boatToTeam_fold_is_Some (teams : list TeamRecord)
    (boatToTeam : gmap Z TeamRecord) id :
  is_Some (boatToTeam !! id) ∨ (∃ team, team ∈ teams ∧ team_id team = id) →
  is_Some
    (fold_left (λ tbl team, <[team_id team := team]> tbl) teams boatToTeam !! id).
Proof.
  revert boatToTeam. induction teams as [|t teams IH]; intros boatToTeam;
    cbn [fold_left].
  - intros [Hs|(team & Hin & _)]; [exact Hs|]. now apply elem_of_nil in Hin.
  - intros Hor. apply IH.
    destruct (decide (team_id t = id)) as [<-|Hne].
    + left. rewrite lookup_insert_eq. eauto.
    + rewrite lookup_insert_ne by exact Hne.
      destruct Hor as [Hs|(team & Hin & Hid)]; [now left|].
      apply elem_of_cons in Hin as [->|Hin]; [contradiction|]. right. eauto.
Qed.

(** X8: A boat is given a team exactly when some team of the roster carries its
    id, and the team it is given always carries that id: no boat is ever
    labelled with the team of another boat. *)
Theorem boatToTeam_lookup raceSetup id :
  (∀ team, buildBoatToTeam raceSetup !! id = Some team →
     team_id team = id ∧
     ∃ teams, setup_teams raceSetup = Some teams ∧ team ∈ teams) ∧
  (is_Some (buildBoatToTeam raceSetup !! id) ↔
   ∃ teams team, setup_teams raceSetup = Some teams ∧ team ∈ teams ∧
                 team_id team = id).
Proof.
  assert (Hsound : ∀ team, buildBoatToTeam raceSetup !! id = Some team →
     team_id team = id ∧
     ∃ teams, setup_teams raceSetup = Some teams ∧ team ∈ teams).
  { unfold buildBoatToTeam. intros team.
    destruct (setup_teams raceSetup) as [teams|];
      [|rewrite lookup_empty; discriminate].
    intros Hl. destruct (boatToTeam_fold_lookup _ _ _ _ Hl) as [[Hin Hid]|He];
      [eauto | rewrite lookup_empty in He; discriminate]. }
  split; [exact Hsound|]. split.
  - intros [team Hl]. destruct (Hsound _ Hl) as (Hid & teams & Ht & Hin). eauto.
  - intros (teams & team & Ht & Hin & Hid). unfold buildBoatToTeam.
    rewrite Ht. apply boatToTeam_fold_is_Some. right. eauto.
Qed.

End ConvertersJoin.

Section ConvertersOrder.
Context `{JsNumbers}.
Import ReadBack.

(** *** The order of the moments in the input *)

Lemma filter_key_at_most_one {A : Type} (key : A → Z) k (l : list A) :
  NoDup (map key l) → (length (filter (λ a, key a = k) l) ≤ 1)%nat.
Proof.
  induction l as [|x l IH]; cbn [map]; [cbn; lia|].
  intros [Hx Hl]%NoDup_cons. specialize (IH Hl).
  rewrite filter_cons. case_decide as Hk; [|exact IH].
  destruct (filter (λ a, key a = k) l) as [|y rest] eqn:Hf; [cbn; lia|].
  exfalso. apply Hx.
  assert (Hy : y ∈ filter (λ a, key a = k) l) by (rewrite Hf; left).
  apply list_elem_of_filter in Hy as [Hky Hin].
  rewrite Hk, <- Hky. apply list_elem_of_fmap. exists y. auto.
Qed.

Lemma Array_sort_of_permutation {A : Type} (key : A → Z) (l1 l2 : list A) :
  l1 ≡ₚ l2 → NoDup (map key l1) →
  Array_sort (λ a b, key a - key b) l1 = Array_sort (λ a b, key a - key b) l2.
Proof.
  intros Hp Hnd.
  apply (stable_sorted_unique key); try apply (Array_sort_sorted key).
  intros k. rewrite !(Array_sort_stable key).
  pose proof (filter_key_at_most_one key k l1 Hnd) as Hlen.
  assert (Hpf : filter (λ a, key a = k) l1 ≡ₚ filter (λ a, key a = k) l2)
    by now rewrite Hp.
  destruct (filter (λ a, key a = k) l1) as [|x [|? ?]]; cbn in Hlen; [| |lia].
  - symmetry. now apply Permutation_nil.
  - now apply Permutation_singleton_l.
Qed.

(** X9: When the moments of every boat have distinct timestamps, the order in
    which the input lists them does not matter: the converters return the
    same document, and leave the same arrays, for any other order.  (With
    equal timestamps it does: the sort is stable, so two moments of one
    time are written in the order of the input.) *)
Theorem output_independent_of_moment_order
    now positions positions' raceSetup overlays :
  Forall2 (λ boat boat',
      boat_id boat = boat_id boat' ∧
      boat_moments boat ≡ₚ boat_moments boat' ∧
      NoDup (map moment_at (boat_moments boat)))
    positions positions' →
  generateGPX now positions raceSetup = generateGPX now positions' raceSetup ∧
  generateGPXWithOverlays now positions raceSetup overlays =
    generateGPXWithOverlays now positions' raceSetup overlays.
Proof.
  intros Hperm.
  assert (Hv : map visitedBoat positions = map visitedBoat positions').
  { induction Hperm as [|b b' l l' (Hid & Hp & Hnd) _ IH]; [reflexivity|].
    cbn [map]. rewrite IH. f_equal. unfold visitedBoat. rewrite Hid. f_equal.
    apply (Array_sort_of_permutation moment_at); assumption. }
  assert (Ht : ∀ tbl, map (boatTrack tbl) positions = map (boatTrack tbl) positions').
  { intros tbl. rewrite <- (map_ext _ _ (boatTrack_visitedBoat tbl)).
    rewrite <- (map_ext _ _ (boatTrack_visitedBoat tbl) positions').
    rewrite <- !(map_map visitedBoat (boatTrack tbl)). now rewrite Hv. }
  rewrite !generateGPX_serialize, !generateGPXWithOverlays_serialize.
  unfold documentOf. rewrite Hv, !Ht. split; reflexivity.
Qed.

(** *** A second call *)

(** X10: A converter called again on the arrays a first call has left (sorted)
    returns the same document and leaves the arrays as they are. *)
Theorem converters_again now positions raceSetup overlays out out' after after' :
  generateGPX now positions raceSetup = Some (out, after) →
  generateGPXWithOverlays now positions raceSetup overlays = Some (out', after') →
  after' = after ∧
  generateGPX now after raceSetup = Some (out, after) ∧
  generateGPXWithOverlays now after raceSetup overlays = Some (out', after).
Proof.
  rewrite !generateGPX_serialize, !generateGPXWithOverlays_serialize.
  intros Hg Hg'.
  assert (Hafter : after = map visitedBoat positions).
  { apply bind_Some in Hg as (? & _ & [= _ <-]). reflexivity. }
  assert (Hafter' : after' = map visitedBoat positions).
  { apply bind_Some in Hg' as (? & _ & [= _ <-]). reflexivity. }
  subst after after'. split; [reflexivity|].
  unfold documentOf in *. rewrite !map_map.
  rewrite !(map_ext _ _ (boatTrack_visitedBoat (buildBoatToTeam raceSetup))).
  rewrite !(map_ext _ _ visitedBoat_idempotent).
  split; assumption.
Qed.

(** *** Overlays without tracks *)

(** X11: Overlay groups without tracks leave no trace: the converter returns what
    it returns without them, whatever their name, colour and source. *)
Theorem overlays_without_tracks_are_skipped now positions raceSetup overlays :
  generateGPXWithOverlays now positions raceSetup overlays =
  generateGPXWithOverlays now positions raceSetup (List.filter hasTracks overlays).
Proof.
  rewrite !generateGPXWithOverlays_serialize. unfold documentOf.
  replace (flat_map overlayTracksOf (List.filter hasTracks overlays))
    with (flat_map overlayTracksOf overlays); [reflexivity|].
  induction overlays as [|overlay overlays IH]; [reflexivity|].
  cbn [flat_map List.filter]. rewrite IH.
  destruct (hasTracks overlay) eqn:Ht; [reflexivity|].
  unfold hasTracks in Ht. unfold overlayTracksOf at 1.
  destruct (overlay_tracks overlay) as [[|track tracks]|];
    [reflexivity | discriminate | reflexivity].
Qed.

(** X12: Without overlays [generateGPXWithOverlays] writes the tracks
    [generateGPX] writes and leaves the same arrays; the two documents
    differ in the description of the metadata block only. *)
Theorem generateGPXWithOverlays_without_overlays now positions raceSetup :
  ∃ result : option (list string * list PositionRecord),
    generateGPX now positions raceSetup =
      (λ r, (preamble (orElse (setup_title raceSetup) "Sailing Race") now
               "Converted from race data using decyb-gpx-converter" +:+
             concatText r.1 +:+ "</gpx>", r.2)) <$> result ∧
    generateGPXWithOverlays now positions raceSetup [] =
      (λ r, (preamble (orElse (setup_title raceSetup) "Sailing Race") now
               "Converted from race data using decyb-gpx-converter with overlays" +:+
             concatText r.1 +:+ "</gpx>", r.2)) <$> result.
Proof.
  exists (tracks ← mapM (λ boat, serializeTrack
                           (boatTrack (buildBoatToTeam raceSetup) boat))
                     positions;
          Some (tracks, map visitedBoat positions)).
  unfold generateGPX, generateGPXWithOverlays.
  rewrite !forEach_emitBoat.
  destruct (mapM _ positions) as [tracks|];
    cbn [mbind option_bind forEach fmap option_fmap option_map fst snd app];
    [|split; reflexivity].
  rewrite !append_assoc. split; reflexivity.
Qed.

End ConvertersOrder.

(* ===================================================================== *)
(** ** More on the track extractor *)
(* ===================================================================== *)

Section ExtractorMore.
Context `{JsNumbers}.

Lemma matchLit_app lit text rest :
  matchLit lit text = Some rest → text = lit +:+ rest.
Proof.
  revert text. induction lit as [|a lit IH]; intros text; cbn [matchLit].
  - destruct text; intros [= <-]; reflexivity.
  - destruct text as [|b text]; [discriminate|].
    destruct (Ascii.eqb_spec a b) as [->|]; [|discriminate].
    intros Hm. rewrite append_cons, <- (IH _ Hm). reflexivity.
Qed.

(** What a starred class has consumed is a prefix of the text, made of
    characters of the class, and the continuation succeeded on what is left. *)
Lemma star_app {R : Type} greedy class (k : string → option R) text w r :
  star greedy class k text = Some (w, r) →
  ∃ rest, text = w +:+ rest ∧ k rest = Some r ∧
          ∀ c, occurs c w = true → class c = true.
Proof.
  revert w r. induction text as [|c text IH]; intros w r; cbn [star].
  - destruct greedy; destruct (k "") eqn:E; intros [= <- <-];
      (exists ""; repeat split; [exact E | discriminate]).
  - assert (Hstop : ∀ w r, match k (String c text) with
                           | Some r => Some ("", r) | None => None end = Some (w, r) →
              ∃ rest, String c text = w +:+ rest ∧ k rest = Some r ∧
                      ∀ c, occurs c w = true → class c = true).
    { intros w' r'. destruct (k (String c text)) eqn:E; intros [= <- <-].
      exists (String c text). repeat split; [exact E | discriminate]. }
    assert (Hmore : ∀ w r,
              (if class c then
                 match star greedy class k text with
                 | Some (w, r) => Some (String c w, r) | None => None end
               else None) = Some (w, r) →
              ∃ rest, String c text = w +:+ rest ∧ k rest = Some r ∧
                      ∀ c, occurs c w = true → class c = true).
    { intros w' r'. destruct (class c) eqn:Ec; [|discriminate].
      destruct (star greedy class k text) as [[w0 r0]|] eqn:E; intros [= <- <-].
      destruct (IH _ _ eq_refl) as (rest & -> & Hk & Hcls).
      exists rest. repeat split; [exact Hk|].
      intros c'. cbn [occurs]. intros [He|Ho]%orb_true_iff; [|now apply Hcls].
      apply Ascii.eqb_eq in He. now subst. }
    destruct greedy.
    + destruct (if class c then _ else None) as [[w0 r0]|] eqn:E.
      * intros [= <- <-]. now apply Hmore.
      * apply Hstop.
    + destruct (k (String c text)) eqn:E.
      * intros [= <- <-]. exists (String c text).
        repeat split; [exact E | discriminate].
      * apply Hmore.
Qed.

Lemma startsWith_app (needle rest : string) :
  startsWith needle (needle +:+ rest) = true.
Proof.
  induction needle as [|a needle IH]; [destruct rest; reflexivity|].
  rewrite append_cons. cbn [startsWith]. now rewrite Ascii.eqb_refl, IH.
Qed.

Lemma includes_app_l (needle rest : string) :
  includes needle (needle +:+ rest) = true.
Proof.
  destruct (needle +:+ rest) eqn:E; cbn [includes]; rewrite <- E, startsWith_app;
    reflexivity.
Qed.

Lemma includes_app_r (needle a b : string) :
  includes needle b = true → includes needle (a +:+ b) = true.
Proof.
  intros Hb. induction a as [|x a IH]; [exact Hb|].
  rewrite append_cons. cbn [includes]. rewrite IH. apply orb_true_r.
Qed.

(** A text a pattern matches holds every literal of the pattern. *)
Lemma matchHere_includes pat text caps rest lit :
  matchHere pat text = Some (caps, rest) → In (Lit lit) pat →
  includes lit text = true.
Proof.
  revert text caps rest. induction pat as [|[lit0|greedy class captured] pat IH];
    intros text caps rest; cbn [matchHere]; [intros _ []| |].
  - destruct (matchLit lit0 text) as [rest0|] eqn:E; [|discriminate].
    apply matchLit_app in E as ->. intros Hm [[= ->]|Hin].
    + apply includes_app_l.
    + apply includes_app_r. eapply IH; eassumption.
  - destruct (star greedy class (matchHere pat) text) as [[w [caps0 rest0]]|] eqn:E;
      [|discriminate].
    apply star_app in E as (rest1 & -> & Hk & _).
    intros _ [[=]|Hin]. apply includes_app_r. eapply IH; eassumption.
Qed.

Lemma exec_includes pat text caps rest lit :
  exec pat text = Some (caps, rest) → In (Lit lit) pat →
  includes lit text = true.
Proof.
  intros Hm Hin. induction text as [|c text IH]; cbn [exec] in Hm.
  - destruct (matchHere pat "") as [[caps0 rest0]|] eqn:E; [|discriminate].
    eapply matchHere_includes; eassumption.
  - destruct (matchHere pat (String c text)) as [[caps0 rest0]|] eqn:E.
    + eapply matchHere_includes; eassumption.
    + cbn [includes]. rewrite (IH Hm). apply orb_true_r.
Qed.

Lemma collectTracks_no_match clock st gpxData :
  exec trackRegex gpxData = None → collectTracks clock st gpxData = st.
Proof.
  funelim (collectTracks clock st gpxData); intros Hnone;
    [congruence | reflexivity].
Qed.

(** X13: A text that lacks one of [<trk], [>] and [</trk>] holds no track: the
    extractor returns the empty sequence, whatever the clock reads. *)
Theorem parseGpxTrack_of_text_without_track clock gpxData :
  includes "<trk" gpxData = false ∨ includes ">" gpxData = false ∨
  includes "</trk>" gpxData = false →
  parseGpxTrack clock gpxData = [].
Proof.
  intros Hno. unfold parseGpxTrack.
  rewrite collectTracks_no_match; [reflexivity|].
  destruct (exec trackRegex gpxData) as [[caps rest]|] eqn:E; [|reflexivity].
  exfalso.
  pose proof (exec_includes _ _ _ _ "<trk" E) as H1.
  pose proof (exec_includes _ _ _ _ ">" E) as H2.
  pose proof (exec_includes _ _ _ _ "</trk>" E) as H3.
  unfold trackRegex in H1, H2, H3. cbn [In] in H1, H2, H3.
  rewrite H1, H2, H3 in Hno by auto 6.
  destruct Hno as [|[|]]; discriminate.
Qed.

(** *** Names of the tracks *)

Lemma exec_nameRegex_capture text caps rest :
  exec nameRegex text = Some (caps, rest) →
  occurs "<" (group caps 1) = false.
Proof.
  induction text as [|c text IH]; cbn [exec].
  - cbn. discriminate.
  - destruct (matchHere nameRegex (String c text)) as [[caps0 rest0]|] eqn:E;
      [intros [= <- <-]|exact IH].
    unfold nameRegex in E. cbn [matchHere] in E.
    destruct (matchLit "<name>" (String c text)) as [t1|]; [|discriminate].
    destruct (star true (notChar "<") _ t1) as [[w [caps1 rest1]]|] eqn:Es;
      [|discriminate].
    injection E as <- <-. apply star_app in Es as (t2 & -> & Hk & Hcls).
    destruct (matchLit "</name>" t2) as [t3|]; [|discriminate].
    injection Hk as <- <-. cbn [group pred nth].
    destruct (occurs "<" w) eqn:Ho; [|reflexivity].
    specialize (Hcls _ Ho). unfold notChar in Hcls. now rewrite Ascii.eqb_refl in Hcls.
Qed.

Lemma collectTracks_names clock st gpxData :
  Forall (λ t, occurs "<" (track_name t) = false) st.1 →
  Forall (λ t, occurs "<" (track_name t) = false)
    (collectTracks clock st gpxData).1.
Proof.
  funelim (collectTracks clock st gpxData); intros Hst; [|exact Hst].
  match goal with IH : Forall _ _ → _ |- _ => apply IH end.
  cbn [fst]. destruct (collectPoints _ _ _).1 as [|point points]; [exact Hst|].
  apply Forall_app. split; [exact Hst|]. constructor; [|constructor].
  cbn [track_name].
  destruct (exec nameRegex (group trackMatch 1)) as [[nameMatch rest0]|] eqn:E;
    [|reflexivity].
  eapply exec_nameRegex_capture; exact E.
Qed.

(** X14: The name of a track the extractor returns never holds a [<]: it is the
    text between [<name>] and the first [<] after it, or the placeholder. *)
Theorem parseGpxTrack_names_without_lt clock gpxData :
  Forall (λ track, occurs "<" (track_name track) = false)
    (parseGpxTrack clock gpxData).
Proof. unfold parseGpxTrack. apply collectTracks_names. constructor. Qed.

End ExtractorMore.

(* ===================================================================== *)
(** ** Facts about the command lines *)
(* ===================================================================== *)

Section CommandLines.
Import Cli.WithOverlay.

Lemma parseOptions_turn arg rest options outputFileSet :
  parseOptions (arg :: rest) options outputFileSet =
  match turn arg rest options outputFileSet with
  | Some (rest', options', set') => parseOptions rest' options' set'
  | None => ListOverlays
  end.
Proof.
  cbn [parseOptions]. unfold turn.
  repeat match goal with
         | |- context [if ?b then _ else _] => destruct b
         | |- context [match ?l with [] => _ | _ :: _ => _ end] => destruct l
         end; reflexivity.
Qed.

(** A turn reads [args[i]] alone or with [args[i + 1]]. *)
Lemma turn_rest arg rest options set rest' options' set' :
  turn arg rest options set = Some (rest', options', set') →
  rest' = rest ∨ ∃ value, rest = value :: rest'.
Proof.
  unfold turn.
  repeat match goal with
         | |- context [if ?b then _ else _] => destruct b
         | |- context [match ?l with [] => _ | _ :: _ => _ end] => destruct l
         end; intros [= <- <- <-] || intros [=]; eauto.
Qed.

(** Induction along the loop. *)
Lemma parseOptions_ind (P : list string → Options → bool → Outcome → Prop) :
  (∀ options set, P [] options set (Run options)) →
  (∀ arg rest options set,
     turn arg rest options set = None →
     P (arg :: rest) options set ListOverlays) →
  (∀ arg rest options set rest' options' set',
     turn arg rest options set = Some (rest', options', set') →
     P rest' options' set' (parseOptions rest' options' set') →
     P (arg :: rest) options set (parseOptions rest' options' set')) →
  ∀ args options set, P args options set (parseOptions args options set).
Proof.
  intros Hnil Hexit Hturn args.
  induction args as [args IH] using (well_founded_induction
    (well_founded_ltof _ (@length string))).
  intros options set. destruct args as [|arg rest]; [apply Hnil|].
  rewrite parseOptions_turn.
  destruct (turn arg rest options set) as [[[rest' options'] set']|] eqn:E;
    [|now apply Hexit].
  eapply Hturn; [exact E|]. apply IH.
  unfold ltof. destruct (turn_rest _ _ _ _ _ _ _ E) as [->|[value ->]]; cbn; lia.
Qed.

End CommandLines.

Section CommandLineFacts.
Import Cli.WithOverlay.

(** Case analysis of a turn. *)
Ltac turn_cases :=
  unfold turn;
  repeat match goal with
         | |- context [if ?b then _ else _] => destruct b eqn:?
         | |- context [match ?l with [] => _ | _ :: _ => _ end] => destruct l eqn:?
         end;
  (intros [= <- <- <-] || intros [=] || idtac).

Lemma turn_keeps_files arg rest options set rest' options' set' :
  turn arg rest options set = Some (rest', options', set') →
  positionsFile options' = positionsFile options ∧
  raceSetupFile options' = raceSetupFile options.
Proof. turn_cases; split; reflexivity. Qed.

Lemma turn_None arg rest options set :
  turn arg rest options set = None → arg = "--list-overlays".
Proof.
  unfold turn.
  repeat match goal with
         | |- context [if ?b then _ else _] => destruct b eqn:?
         | |- context [match ?l with [] => _ | _ :: _ => _ end] => destruct l eqn:?
         end; try discriminate.
  intros _. now apply String.eqb_eq.
Qed.

Lemma parseOptions_not_Usage args options set :
  parseOptions args options set ≠ Usage.
Proof.
  apply (parseOptions_ind (λ _ _ _ out, out ≠ Usage)); try discriminate; auto.
Qed.

Lemma parseOptions_ListOverlays args options set :
  parseOptions args options set = ListOverlays → "--list-overlays" ∈ args.
Proof.
  apply (parseOptions_ind (λ args _ _ out,
           out = ListOverlays → "--list-overlays" ∈ args)).
  - discriminate.
  - intros arg rest o s Ht _. apply turn_None in Ht as ->. left.
  - intros arg rest o s rest' o' s' Ht IH Hout. right. specialize (IH Hout).
    destruct (turn_rest _ _ _ _ _ _ _ Ht) as [->|[value ->]];
      [exact IH | now right].
Qed.

Lemma parseOptions_keeps_files args options set options' :
  parseOptions args options set = Run options' →
  positionsFile options' = positionsFile options ∧
  raceSetupFile options' = raceSetupFile options.
Proof.
  revert options'.
  apply (parseOptions_ind (λ _ o _ out, ∀ o', out = Run o' →
           positionsFile o' = positionsFile o ∧
           raceSetupFile o' = raceSetupFile o)).
  - intros o s o' [= <-]. split; reflexivity.
  - discriminate.
  - intros arg rest o s rest' o1 s' Ht IH o' Hout.
    destruct (IH _ Hout) as [-> ->]. eapply turn_keeps_files; exact Ht.
Qed.

(** X15: How a call ends.  It prints the usage and exits with code 1 exactly
    when fewer than two arguments are given, the lone [--list-overlays]
    apart; it lists the overlay files only when [--list-overlays] is among
    the arguments; in all other cases it returns, and the two input files
    are the first two arguments, whatever they look like. *)
Theorem parseArgs_outcomes (args : list string) :
  (parseArgs args = Usage ↔
   (length args < 2)%nat ∧ args ≠ ["--list-overlays"]) ∧
  (parseArgs args = ListOverlays → "--list-overlays" ∈ args) ∧
  (∀ options, parseArgs args = Run options →
     ∃ rest, args = positionsFile options :: raceSetupFile options :: rest).
Proof.
  destruct args as [|a [|b rest]]; cbn [parseArgs].
  - repeat split; try discriminate; try (cbn; lia). 
  - destruct (String.eqb_spec a "--list-overlays") as [->|Hne].
    + repeat split; try discriminate.
      * intros [_ Hn]. now contradiction Hn.
      * intros _. left.
    + repeat split; try discriminate; try (cbn; lia). congruence.
  - split; [|split].
    + split; [intros Hu; now apply parseOptions_not_Usage in Hu|].
      cbn. intros [Hl _]. lia.
    + intros Hl. apply parseOptions_ListOverlays in Hl. now do 2 right.
    + intros o Ho. apply parseOptions_keeps_files in Ho as [Hp Hs].
      cbn in Hp, Hs. rewrite Hp, Hs. eauto.
Qed.

(** *** The output file *)

Lemma parseOptions_outputFile_set args options options' :
  parseOptions args options true = Run options' →
  outputFile options' = outputFile options.
Proof.
  revert options'.
  apply (parseOptions_ind (λ _ o s out, s = true → ∀ o', out = Run o' →
           outputFile o' = outputFile o)); [| |  |reflexivity].
  - intros o s _ o' [= <-]. reflexivity.
  - discriminate.
  - intros arg rest o s rest' o1 s' Ht IH -> o' Hout.
    assert (s' = true ∧ outputFile o1 = outputFile o) as [-> <-].
    { revert Ht. unfold turn. cbn [negb]. rewrite andb_false_r.
      turn_cases; split; reflexivity. }
    now apply IH.
Qed.

Lemma option_word_starts_with_dashes (arg : string) :
  startsWith "--" arg = false →
  String.eqb arg "--overlay" = false ∧
  String.eqb arg "--overlay-name" = false ∧
  String.eqb arg "--overlay-color" = false ∧
  String.eqb arg "--garmin-url" = false ∧
  String.eqb arg "--list-overlays" = false.
Proof.
  intros Hs. repeat split; apply String.eqb_neq; intros ->; discriminate.
Qed.

Lemma turn_bare_word arg rest options :
  startsWith "--" arg = false →
  turn arg rest options false = Some (rest, withOutputFile options arg, true).
Proof.
  intros Hs. destruct (option_word_starts_with_dashes arg Hs)
    as (E1 & E2 & E3 & E4 & E5).
  unfold turn. rewrite E1, E2, E3, E4, E5, Hs. reflexivity.
Qed.

(** X16: The output file may come before the options: when the argument after
    the two input files does not begin with [--], it is the output file,
    and no later argument replaces it. *)
Theorem parseArgs_output_file_first positions raceSetup output rest options :
  startsWith "--" output = false →
  parseArgs (positions :: raceSetup :: output :: rest) = Run options →
  outputFile options = output.
Proof.
  intros Hs. cbn [parseArgs]. rewrite parseOptions_turn, turn_bare_word by exact Hs.
  intros Ho. now apply parseOptions_outputFile_set in Ho.
Qed.

Lemma turn_overlay_name_without_overlay flag value rest options set :
  flag = "--overlay-name" ∨ flag = "--overlay-color" →
  overlays options = [] →
  turn flag (value :: rest) options set = Some (value :: rest, options, set).
Proof.
  intros Hflag Hnone. unfold turn. rewrite Hnone.
  destruct Hflag as [-> | ->]; reflexivity.
Qed.

(** X17: [--overlay-name] and [--overlay-color] met while no overlay has
    been added are skipped without their value: the loop goes on from the
    value as from an argument of its own, wherever on the command line this
    happens.  So a value that does not begin with [--] becomes the output
    file when none has been set yet, and is passed over when one has; with
    the option right after the two input files it is the output file. *)
Theorem parseArgs_overlay_name_without_overlay flag value rest :
  flag = "--overlay-name" ∨ flag = "--overlay-color" →
  (∀ options outputFileSet, overlays options = [] →
     parseOptions (flag :: value :: rest) options outputFileSet =
     parseOptions (value :: rest) options outputFileSet) ∧
  (∀ options options', overlays options = [] →
     startsWith "--" value = false →
     parseOptions (flag :: value :: rest) options false = Run options' →
     outputFile options' = value) ∧
  (∀ options options', overlays options = [] →
     parseOptions (flag :: value :: rest) options true = Run options' →
     outputFile options' = outputFile options) ∧
  (∀ positions raceSetup options, startsWith "--" value = false →
     parseArgs (positions :: raceSetup :: flag :: value :: rest) = Run options →
     outputFile options = value).
Proof.
  intros Hflag.
  assert (Hskip : ∀ options set, overlays options = [] →
            parseOptions (flag :: value :: rest) options set =
            parseOptions (value :: rest) options set).
  { intros options set Hnone.
    now rewrite parseOptions_turn, turn_overlay_name_without_overlay. }
  assert (Hfirst : ∀ options options', overlays options = [] →
            startsWith "--" value = false →
            parseOptions (flag :: value :: rest) options false = Run options' →
            outputFile options' = value).
  { intros options options' Hnone Hs. rewrite Hskip by exact Hnone.
    rewrite parseOptions_turn, turn_bare_word by exact Hs.
    intros Ho. now apply parseOptions_outputFile_set in Ho. }
  split; [exact Hskip|]. split; [exact Hfirst|]. split.
  - intros options options' Hnone. rewrite Hskip by exact Hnone.
    apply parseOptions_outputFile_set.
  - intros positions raceSetup options Hs. cbn [parseArgs].
    now apply Hfirst.
Qed.

End CommandLineFacts.

Section OverlayOptions.
Import Cli.WithOverlay.

Lemma setLast_last update (overlays : list OverlayOption) overlay :
  setLast update (overlays ++ [overlay]) = overlays ++ [update overlay].
Proof.
  induction overlays as [|first rest IH]; [reflexivity|].
  cbn [app setLast]. rewrite IH.
  destruct (rest ++ [overlay]) eqn:E; [|reflexivity].
  now destruct (app_cons_not_nil _ _ _ (eq_sym E)).
Qed.


Lemma withOverlays_same options :
  withOverlays options (overlays options) = options.
Proof. now destruct options. Qed.

Lemma parseOptions_overlayArguments described rest options set :
  parseOptions (overlayArguments described ++ rest) options set =
  parseOptions rest (withOverlays options (overlays options ++ described)) set.
Proof.
  revert options. induction described as [|[file name color] described IH];
    intros options.
  - cbn [overlayArguments flat_map app]. now rewrite app_nil_r, withOverlays_same.
  - cbn [overlayArguments flat_map app option_file option_name option_color].
    fold (overlayArguments described).
    rewrite parseOptions_turn. cbn [turn String.eqb Ascii.eqb Bool.eqb].
    rewrite parseOptions_turn. cbn [turn String.eqb Ascii.eqb Bool.eqb overlays withOverlays].
    destruct (overlays options ++ _) as [|first others] eqn:E;
      [now destruct (app_cons_not_nil _ _ _ (eq_sym E))|]. rewrite <- E. clear E first others.
    rewrite setLast_last.
    rewrite parseOptions_turn. cbn [turn String.eqb Ascii.eqb Bool.eqb overlays withOverlays].
    destruct (overlays options ++ _) as [|first others] eqn:E;
      [now destruct (app_cons_not_nil _ _ _ (eq_sym E))|]. rewrite <- E. clear E first others.
    rewrite setLast_last. cbn [option_file option_name option_color].
    rewrite IH. cbn [overlays withOverlays positionsFile raceSetupFile outputFile garminUrl].
    now rewrite <- app_assoc.
Qed.

(** X18: Every list of overlays can be asked for, whatever the texts of its
    files, names and colours (option words included): the arguments
    [--overlay file --overlay-name name --overlay-color color], overlay
    after overlay, give back exactly that list, in order, with the default
    output file and no Garmin address. *)
Theorem parseArgs_reads_back_overlays positions raceSetup described :
  parseArgs (positions :: raceSetup :: overlayArguments described) =
  Run (describedOptions positions raceSetup "race_tracks_with_overlay.gpx"
         described).
Proof.
  cbn [parseArgs]. rewrite <- (app_nil_r (overlayArguments described)).
  now rewrite parseOptions_overlayArguments.
Qed.


(** X20: A command line of [json2gpx.js] with an output file is read by
    [json2gpx_with_overlay.js] as the same three files, provided the output
    file is not empty and does not begin with [--]; [json2gpx.js] itself
    reads no argument after the third. *)
Theorem parseArgs_of_both_scripts positions raceSetup output rest :
  output ≠ "" → startsWith "--" output = false →
  Cli.Json2gpx.parseArgs (positions :: raceSetup :: output :: rest) =
    Some {| Cli.Json2gpx.args_positionsFile := positions;
            Cli.Json2gpx.args_raceSetupFile := raceSetup;
            Cli.Json2gpx.args_outputFile := output |} ∧
  parseArgs [positions; raceSetup; output] =
    Run (describedOptions positions raceSetup output []).
Proof.
  intros Hne Hs. split.
  - cbn. now destruct output.
  - cbn [parseArgs]. now rewrite parseOptions_turn, turn_bare_word by exact Hs.
Qed.



End OverlayOptions.

(* ===================================================================== *)
(** ** Facts about the Garmin downloader *)
(* ===================================================================== *)

Section DownloaderFacts.
Import Regex Downloader.

Lemma star_run_of_digits (text : string) :
  ∃ run rest, star true isDigit (λ after, Some after) text = Some (run, rest) ∧
    text = run +:+ rest ∧ every isDigit run = true ∧
    (∀ d rest', rest = String d rest' → isDigit d = false).
Proof.
  induction text as [|c text (run & rest & IH & Htext & Hrun & Hstop)].
  - exists "", "". repeat split; try reflexivity. discriminate.
  - cbn [star]. destruct (isDigit c) eqn:Ec.
    + rewrite IH. exists (String c run), rest. rewrite append_cons, <- Htext.
      cbn [every]. rewrite Ec, Hrun. repeat split; try reflexivity. exact Hstop.
    + exists "", (String c text). repeat split; try reflexivity.
      now intros d rest' [= <- _].
Qed.

Lemma star_digits_then (run rest : string) :
  every isDigit run = true →
  (∀ d rest', rest = String d rest' → isDigit d = false) →
  star true isDigit (λ after, Some after) (run +:+ rest) = Some (run, rest).
Proof.
  intros Hrun Hstop. induction run as [|c run IH].
  - rewrite append_nil_l. destruct rest as [|d rest']; [reflexivity|].
    cbn [star]. now rewrite (Hstop d rest' eq_refl).
  - cbn [every] in Hrun. apply andb_prop in Hrun as [Hc Hrun].
    rewrite append_cons. cbn [star]. now rewrite Hc, (IH Hrun).
Qed.

Lemma matchLit_append lit text rest :
  matchLit lit text = Some rest → text = lit +:+ rest.
Proof.
  revert text. induction lit as [|a lit IH]; intros [|b text]; cbn [matchLit];
    try (intros [= <-]; reflexivity); try discriminate.
  destruct (Ascii.eqb_spec a b) as [<-|]; [|discriminate].
  intros Hm. now rewrite append_cons, <- (IH _ Hm).
Qed.

Lemma matchLit_prefix lit rest : matchLit lit (lit +:+ rest) = Some rest.
Proof.
  induction lit as [|a lit IH]; [reflexivity|].
  rewrite append_cons. cbn [matchLit]. now rewrite Ascii.eqb_refl.
Qed.

Lemma activityIdHere_Some text activityId :
  activityIdHere text = Some activityId →
  ∃ d ds rest, activityId = String d ds ∧ every isDigit activityId = true ∧
    text = "activity/" +:+ activityId +:+ rest ∧
    (∀ c rest', rest = String c rest' → isDigit c = false).
Proof.
  unfold activityIdHere.
  destruct (matchLit "activity/" text) as [after|] eqn:El; [|discriminate].
  apply matchLit_append in El as ->.
  destruct (star_run_of_digits after) as (run & rest & -> & -> & Hrun & Hstop).
  destruct run as [|d ds]; [discriminate|]. intros [= <-].
  exists d, ds, rest. repeat split; assumption.
Qed.

Lemma activityIdHere_digits (activityId rest : string) :
  activityId ≠ "" → every isDigit activityId = true →
  (∀ c rest', rest = String c rest' → isDigit c = false) →
  activityIdHere ("activity/" +:+ activityId +:+ rest) = Some activityId.
Proof.
  intros Hne Hrun Hstop. unfold activityIdHere.
  rewrite matchLit_prefix, star_digits_then by assumption.
  now destruct activityId.
Qed.

Lemma activityIdHere_None text :
  activityIdHere text = None ↔
  ∀ d rest, isDigit d = true → text ≠ "activity/" +:+ String d rest.
Proof.
  split.
  - intros Hnone d rest Hd ->. unfold activityIdHere in Hnone.
    rewrite matchLit_prefix in Hnone. cbn [star] in Hnone. rewrite Hd in Hnone.
    destruct (star_run_of_digits rest) as (run & rest' & E & _).
    rewrite E in Hnone. discriminate.
  - intros Hno. destruct (activityIdHere text) as [activityId|] eqn:E;
      [|reflexivity].
    apply activityIdHere_Some in E as (d & ds & rest & -> & Hrun & -> & _).
    cbn [every] in Hrun. apply andb_prop in Hrun as [Hd _].
    now destruct (Hno d (ds +:+ rest) Hd).
Qed.

Lemma extractActivityId_Some garminUrl activityId :
  extractActivityId garminUrl = Some activityId →
  ∃ before after, garminUrl = before +:+ "activity/" +:+ activityId +:+ after ∧
    activityId ≠ "" ∧ every isDigit activityId = true ∧
    (∀ c rest, after = String c rest → isDigit c = false).
Proof.
  induction garminUrl as [|c url IH]; cbn [extractActivityId].
  - destruct (activityIdHere "") eqn:E; [discriminate E|discriminate].
  - destruct (activityIdHere (String c url)) as [found|] eqn:E.
    + intros [= ->].
      apply activityIdHere_Some in E as (d & ds & rest & Hid & Hrun & Htext & Hstop).
      exists "", rest. rewrite append_nil_l. repeat split; try assumption.
      now rewrite Hid.
    + intros Hrest. destruct (IH Hrest) as (before & after & -> & Hrest').
      exists (String c before), after. now rewrite append_cons.
Qed.

Lemma extractActivityId_None garminUrl :
  extractActivityId garminUrl = None ↔
  ∀ before d after, isDigit d = true →
    garminUrl ≠ before +:+ "activity/" +:+ String d after.
Proof.
  induction garminUrl as [|c url IH]; cbn [extractActivityId].
  - split; [|reflexivity]. intros _ [|? ?] d after _; discriminate.
  - destruct (activityIdHere (String c url)) as [found|] eqn:E.
    + split; [discriminate|]. intros Hno.
      apply activityIdHere_Some in E as (d & ds & rest & -> & Hrun & Htext & _).
      cbn [every] in Hrun. apply andb_prop in Hrun as [Hd _].
      destruct (Hno "" d (ds +:+ rest) Hd). now rewrite append_nil_l.
    + rewrite IH. split.
      * intros Hno [|b before] d after Hd.
        -- rewrite append_nil_l. now apply activityIdHere_None.
        -- rewrite append_cons. intros [= _ Hurl]. exact (Hno _ _ _ Hd Hurl).
      * intros Hno before d after Hd ->.
        apply (Hno (String c before) d after Hd). now rewrite append_cons.
Qed.

(** X22: What [extractActivityId] returns.  A result is a non-empty run of
    digits that follows [activity/] in the address and is not followed by
    a further digit; [null] is returned exactly when no [activity/] in the
    address is followed by a digit. *)
Theorem extractActivityId_finds_digits_after_activity (garminUrl : string) :
  (∀ activityId, extractActivityId garminUrl = Some activityId →
     activityId ≠ "" ∧ every isDigit activityId = true ∧
     ∃ before after,
       garminUrl = before +:+ "activity/" +:+ activityId +:+ after ∧
       ∀ c rest, after = String c rest → isDigit c = false) ∧
  (extractActivityId garminUrl = None ↔
   ∀ before d after, isDigit d = true →
     garminUrl ≠ before +:+ "activity/" +:+ String d after).
Proof.
  split; [|apply extractActivityId_None].
  intros activityId Hid.
  apply extractActivityId_Some in Hid as (before & after & ? & ? & ? & ?).
  repeat split; eauto.
Qed.

Lemma extractActivityId_directUrl activityId :
  activityId ≠ "" → every isDigit activityId = true →
  extractActivityId (directUrl activityId) = Some activityId.
Proof.
  intros Hne Hrun. unfold directUrl.
  change "https://connect.garmin.com/modern/proxy/activity-service-1.1/json/activity/"
    with ("https://connect.garmin.com/modern/proxy/activity-service-1.1/json/"
          +:+ "activity/").
  rewrite append_assoc.
  pose proof (activityIdHere_digits activityId "/details" Hne Hrun) as Hhere.
  assert (Hgo : activityIdHere ("activity/" +:+ activityId +:+ "/details") =
                Some activityId).
  { apply Hhere. now intros c rest' [= <- _]. }
  clear Hhere. revert Hgo.
  generalize ("activity/" +:+ activityId +:+ "/details"). intros tail Hgo.
  rewrite !append_cons, append_nil_l.
  cbn [extractActivityId activityIdHere matchLit Ascii.eqb Bool.eqb].
  destruct tail; cbn [extractActivityId]; now rewrite Hgo.
Qed.

(** X23: Converting twice is converting once: the direct address built from an
    activity id is kept by a second conversion, and so is every address
    without an activity id. *)
Theorem convertToGpxUrl_idempotent (garminUrl : string) :
  convertToGpxUrl (convertToGpxUrl garminUrl) = convertToGpxUrl garminUrl.
Proof.
  unfold convertToGpxUrl at 2 3.
  destruct (extractActivityId garminUrl) as [[|d ds]|] eqn:E.
  - destruct (includes _ _) eqn:Ei; unfold convertToGpxUrl; now rewrite E, Ei.
  - apply extractActivityId_Some in E as (_ & _ & _ & Hne & Hrun & _).
    unfold convertToGpxUrl.
    now rewrite (extractActivityId_directUrl _ Hne Hrun).
  - destruct (includes _ _) eqn:Ei; unfold convertToGpxUrl; now rewrite E, Ei.
Qed.

Lemma includes_cons needle c text :
  includes needle text = true → includes needle (String c text) = true.
Proof. intros Hi. cbn [includes]. rewrite Hi. apply orb_true_r. Qed.

Lemma includes_append needle before after :
  includes needle (before +:+ needle +:+ after) = true.
Proof.
  induction before as [|c before IH].
  - rewrite append_nil_l.
    assert (Hs : ∀ n, startsWith n (n +:+ after) = true).
    { induction n as [|a n IHn]; [reflexivity|].
      rewrite append_cons. cbn [startsWith]. now rewrite Ascii.eqb_refl. }
    destruct (needle +:+ after) eqn:E; cbn [includes]; rewrite <- ?E, Hs;
      reflexivity.
  - rewrite append_cons. now apply includes_cons.
Qed.

(** X24: A MapShare address is downloaded as given: [isMapShareUrl] excludes an
    activity id, so [convertToGpxUrl] changes nothing. *)
Theorem convertToGpxUrl_keeps_MapShare_url (url : string) :
  isMapShareUrl url = true → convertToGpxUrl url = url.
Proof.
  unfold isMapShareUrl. intros Hm. apply andb_prop in Hm as [_ Hno].
  apply negb_true_iff in Hno. unfold convertToGpxUrl.
  destruct (extractActivityId url) as [activityId|] eqn:E;
    [|now destruct (includes "share.garmin.com" url)].
  apply extractActivityId_Some in E as (before & after & -> & _).
  change "activity/" with ("activity" +:+ "/") in Hno.
  rewrite append_assoc in Hno. now rewrite includes_append in Hno.
Qed.

End DownloaderFacts.

(* ===================================================================== *)
(** ** Matching a text of known shape *)
(* ===================================================================== *)

Section RegexMatching.
Import Regex.

Lemma mismatch_matchLit lit text tail :
  mismatch lit text = true → matchLit lit (text +:+ tail) = None.
Proof.
  revert text. induction lit as [|a lit IH]; intros [|b text]; cbn [mismatch];
    try discriminate.
  rewrite append_cons. cbn [matchLit].
  destruct (Ascii.eqb a b); [apply IH | reflexivity].
Qed.

Lemma mismatch_app lit a b :
  mismatch lit a = true → mismatch lit (a +:+ b) = true.
Proof.
  revert a. induction lit as [|x lit IH]; intros [|y a]; cbn [mismatch];
    try discriminate.
  rewrite append_cons. cbn [mismatch].
  destruct (Ascii.eqb x y); [apply IH | reflexivity].
Qed.

Lemma avoids_app lit a b :
  avoids lit a = true → avoids lit b = true → avoids lit (a +:+ b) = true.
Proof.
  intros Ha Hb. induction a as [|x a IH]; [exact Hb|].
  cbn [avoids] in Ha. apply andb_prop in Ha as [Hm Ha].
  rewrite append_cons. cbn [avoids]. rewrite <- append_cons.
  now rewrite (mismatch_app _ _ _ Hm), (IH Ha).
Qed.

Lemma avoids_concatText lit (pieces : list string) :
  Forall (λ piece, avoids lit piece = true) pieces →
  avoids lit (concatText pieces) = true.
Proof.
  induction 1 as [|piece pieces Hp _ IH]; [reflexivity|].
  cbn [concatText]. now apply avoids_app.
Qed.

(** A text without the first character of [lit] holds no occurrence. *)
Lemma avoids_without_first c lit text :
  occurs c text = false → avoids (String c lit) text = true.
Proof.
  induction text as [|x text IH]; [reflexivity|].
  cbn [occurs avoids mismatch]. intros [Hx Ht]%orb_false_elim.
  rewrite Ascii.eqb_sym, Hx. now apply IH.
Qed.

Lemma exec_unfold pat text :
  exec pat text =
  match matchHere pat text with
  | Some res => Some res
  | None =>
      match text with
      | EmptyString => None
      | String _ rest => exec pat rest
      end
  end.
Proof. destruct text; reflexivity. Qed.

Lemma matchHere_Lit_mismatch lit pat text tail :
  mismatch lit text = true →
  matchHere (Lit lit :: pat) (text +:+ tail) = None.
Proof. intros Hm. cbn [matchHere]. now rewrite mismatch_matchLit. Qed.

(** [exec] goes past a text that holds no occurrence of the literal the
    pattern begins with. *)
Lemma exec_skip lit pat before text :
  avoids lit before = true →
  exec (Lit lit :: pat) (before +:+ text) = exec (Lit lit :: pat) text.
Proof.
  induction before as [|x before IH]; [reflexivity|].
  cbn [avoids]. intros [Hm Ha]%andb_prop.
  rewrite exec_unfold, matchHere_Lit_mismatch by exact Hm.
  rewrite append_cons. now apply IH.
Qed.

Lemma exec_none lit pat text :
  lit ≠ "" → avoids lit text = true → exec (Lit lit :: pat) text = None.
Proof.
  intros Hne Ha. rewrite <- (append_nil_r text), exec_skip by exact Ha.
  destruct lit; [contradiction|reflexivity].
Qed.

Lemma exec_here pat text res :
  matchHere pat text = Some res → exec pat text = Some res.
Proof. intros Hm. now rewrite exec_unfold, Hm. Qed.

(** *** The items of a pattern on a text of known shape *)

Lemma matchHere_Lit lit pat text :
  matchHere (Lit lit :: pat) (lit +:+ text) = matchHere pat text.
Proof.
  cbn [matchHere].
  assert (Hl : matchLit lit (lit +:+ text) = Some text).
  { induction lit as [|a lit IH]; [reflexivity|].
    rewrite append_cons. cbn [matchLit]. now rewrite Ascii.eqb_refl. }
  now rewrite Hl.
Qed.

Lemma star_unfold {R : Type} greedy class (k : string → option R) text :
  star greedy class k text =
  let more :=
    match text with
    | String c rest =>
        if class c then
          match star greedy class k rest with
          | Some (w, r) => Some (String c w, r)
          | None => None
          end
        else None
    | EmptyString => None
    end in
  let stop :=
    match k text with
    | Some r => Some (EmptyString, r)
    | None => None
    end in
  if greedy then match more with Some res => Some res | None => stop end
  else match stop with Some res => Some res | None => more end.
Proof. destruct text; reflexivity. Qed.

(** A greedy [[^c]*] on a run without [c] that ends at a [c]: when the rest
    of the pattern matches from that [c] on, the run is the repetition. *)
Lemma star_greedy_run {R : Type} c (k : string → option R) run rest r :
  occurs c run = false →
  k (String c rest) = Some r →
  star true (notChar c) k (run +:+ String c rest) = Some (run, r).
Proof.
  intros Hrun Hk. induction run as [|x run IH].
  - rewrite append_nil_l. cbn [star]. unfold notChar at 1.
    now rewrite Ascii.eqb_refl, Hk.
  - cbn [occurs] in Hrun. apply orb_false_elim in Hrun as [Hx Hrun].
    rewrite append_cons. cbn [star]. unfold notChar at 1.
    now rewrite Hx, (IH Hrun).
Qed.

(** A greedy [[^c]*] before a literal fails on a text up to a [c] in which
    no occurrence of the literal begins. *)
Lemma star_greedy_fails c lit pat text rest :
  avoids lit text = true → mismatch lit (String c "") = true →
  star true (notChar c) (matchHere (Lit lit :: pat)) (text +:+ String c rest) =
  None.
Proof.
  intros Ha Hc. induction text as [|x text IH].
  - rewrite append_nil_l. cbn [star]. unfold notChar at 1.
    rewrite Ascii.eqb_refl. cbn [negb].
    change (String c rest) with (String c "" +:+ rest).
    now rewrite matchHere_Lit_mismatch.
  - cbn [avoids] in Ha. apply andb_prop in Ha as [Hm Ha].
    rewrite append_cons. cbn [star]. rewrite (IH Ha).
    rewrite <- append_cons, matchHere_Lit_mismatch by exact Hm.
    now destruct (notChar c x).
Qed.

(** A greedy [[^c]*] before a literal gives back to the last occurrence of
    the literal before the next [c]. *)
Lemma star_greedy_seek c x lit' pat before inside rest
    (r : list string * string) :
  occurs c before = false →
  avoids (String x lit') (lit' +:+ inside) = true →
  Ascii.eqb x c = false →
  matchHere (Lit (String x lit') :: pat)
    (String x lit' +:+ inside +:+ String c rest) = Some r →
  star true (notChar c) (matchHere (Lit (String x lit') :: pat))
    (before +:+ String x lit' +:+ inside +:+ String c rest) =
  Some (before, r).
Proof.
  intros Hbefore Ha Hx Hk. induction before as [|y before IH].
  - rewrite append_nil_l, append_cons. cbn [star].
    rewrite <- append_assoc, star_greedy_fails;
      [|exact Ha|cbn [mismatch]; now rewrite Hx].
    rewrite append_assoc, <- append_cons, Hk. now destruct (notChar c x).
  - cbn [occurs] in Hbefore. apply orb_false_elim in Hbefore as [Hy Hbefore].
    rewrite append_cons. cbn [star]. unfold notChar at 1.
    now rewrite Hy, (IH Hbefore).
Qed.

(** A lazy [[\s\S]*?] before a literal stops at the first occurrence of
    the literal. *)
Lemma star_lazy_until lit pat body rest (r : list string * string) :
  avoids lit body = true →
  matchHere (Lit lit :: pat) rest = Some r →
  star false anyChar (matchHere (Lit lit :: pat)) (body +:+ rest) =
  Some (body, r).
Proof.
  intros Ha Hk. induction body as [|x body IH].
  - rewrite append_nil_l, star_unfold. cbn zeta. now rewrite Hk.
  - cbn [avoids] in Ha. apply andb_prop in Ha as [Hm Ha].
    rewrite star_unfold. cbn zeta.
    rewrite matchHere_Lit_mismatch by exact Hm.
    rewrite append_cons. unfold anyChar at 1. now rewrite (IH Ha).
Qed.

Lemma matchHere_Star_run c captured pat run rest caps rest' :
  occurs c run = false →
  matchHere pat (String c rest) = Some (caps, rest') →
  matchHere (Star true (notChar c) captured :: pat) (run +:+ String c rest) =
  Some (if captured then run :: caps else caps, rest').
Proof.
  intros Hrun Hk. cbn [matchHere].
  now rewrite (star_greedy_run c _ run rest _ Hrun Hk).
Qed.

Lemma matchHere_Star_seek c captured x lit' pat before inside rest caps rest' :
  occurs c before = false →
  avoids (String x lit') (lit' +:+ inside) = true →
  Ascii.eqb x c = false →
  matchHere pat (inside +:+ String c rest) = Some (caps, rest') →
  matchHere (Star true (notChar c) captured :: Lit (String x lit') :: pat)
    (before +:+ String x lit' +:+ inside +:+ String c rest) =
  Some (if captured then before :: caps else caps, rest').
Proof.
  intros Hbefore Ha Hx Hk.
  change (matchHere (Star true (notChar c) captured :: Lit (String x lit') :: pat)
            (before +:+ String x lit' +:+ inside +:+ String c rest))
    with (match star true (notChar c) (matchHere (Lit (String x lit') :: pat))
                  (before +:+ String x lit' +:+ inside +:+ String c rest) with
          | Some (w, (caps, rest)) =>
              Some (if captured then w :: caps else caps, rest)
          | None => None
          end).
  rewrite (star_greedy_seek c x lit' pat before inside rest (caps, rest')
             Hbefore Ha Hx); [reflexivity|].
  now rewrite matchHere_Lit.
Qed.

Lemma matchHere_Star_lazy captured lit pat body rest caps rest' :
  avoids lit body = true →
  matchHere pat rest = Some (caps, rest') →
  matchHere (Star false anyChar captured :: Lit lit :: pat)
    (body +:+ lit +:+ rest) =
  Some (if captured then body :: caps else caps, rest').
Proof.
  intros Ha Hk.
  change (matchHere (Star false anyChar captured :: Lit lit :: pat)
            (body +:+ lit +:+ rest))
    with (match star false anyChar (matchHere (Lit lit :: pat))
                  (body +:+ lit +:+ rest) with
          | Some (w, (caps, rest)) =>
              Some (if captured then w :: caps else caps, rest)
          | None => None
          end).
  rewrite (star_lazy_until lit pat body (lit +:+ rest) (caps, rest') Ha);
    [reflexivity|].
  now rewrite matchHere_Lit.
Qed.

End RegexMatching.

(* ===================================================================== *)
(** ** Reading a written file back *)
(* ===================================================================== *)

(** [parseGpxTrack] on the text a converter has written. *)
Section ReadBackFacts.
Context `{JsNumbers}.
Import Regex ReadBack.

Ltac shape := rewrite ?append_assoc; reflexivity.

Ltac split_avoids :=
  repeat match goal with
         | |- avoids _ (_ +:+ _) = true => apply avoids_app
         end.

Ltac as_text t :=
  match goal with
  | |- matchHere _ ?text = _ => replace text with t by shape
  | |- exec _ ?text = _ => replace text with t by shape
  end.

Lemma numberText_occurs text :
  numberText text = true →
  occurs "<" text = false ∧ occurs ">" text = false ∧
  occurs (ascii_of_nat 34) text = false ∧ occurs "l" text = false.
Proof.
  unfold numberText. intros Hn. apply negb_true_iff in Hn.
  repeat (apply orb_false_elim in Hn as [Hn ?]). auto.
Qed.

Lemma serializePoint_shape p text :
  serializePoint p = Some text →
  ∃ time, serializeTime (tp_time p) = Some time ∧
    text = "      " +:+ "<trkpt" +:+ " " +:+ ("lat=" +:+ dq) +:+
           Num_toString (tp_lat p) +:+ dq +:+ " " +:+ ("lon=" +:+ dq) +:+
           Num_toString (tp_lon p) +:+ dq +:+ ">" +:+ pointContent time p +:+
           "</trkpt>" +:+ nl.
Proof.
  unfold serializePoint. intros Hs.
  apply bind_Some in Hs as (time & Htime & [= <-]).
  exists time. split; [exact Htime|]. unfold pointContent. shape.
Qed.

Lemma matchHere_trkpt lat lon content rest :
  numberText lat = true → numberText lon = true →
  avoids "</trkpt>" content = true →
  matchHere trkptRegex
    ("<trkpt" +:+ " " +:+ ("lat=" +:+ dq) +:+ lat +:+ dq +:+ " " +:+
     ("lon=" +:+ dq) +:+ lon +:+ dq +:+ ">" +:+ content +:+ "</trkpt>" +:+ rest) =
  Some ([lat; lon; content], rest).
Proof.
  intros (Hlat1 & Hlat2 & Hlat3 & Hlat4)%numberText_occurs
         (Hlon1 & Hlon2 & Hlon3 & Hlon4)%numberText_occurs Hcontent.
  unfold trkptRegex. rewrite matchHere_Lit.
  as_text (" " +:+ String "l" ("at=" +:+ dq) +:+
           (lat +:+ dq +:+ " " +:+ ("lon=" +:+ dq) +:+ lon +:+ dq) +:+
           String ">" (content +:+ "</trkpt>" +:+ rest)).
  apply (matchHere_Star_seek ">" false "l" ("at=" +:+ dq)); [reflexivity| |reflexivity|].
  { split_avoids; try reflexivity;
      apply (avoids_without_first "l" ("at=" +:+ dq)); assumption. }
  as_text (lat +:+ String (ascii_of_nat 34)
             (" " +:+ ("lon=" +:+ dq) +:+ lon +:+ dq +:+
              String ">" (content +:+ "</trkpt>" +:+ rest))).
  apply (matchHere_Star_run (ascii_of_nat 34) true); [exact Hlat3|].
  change (String (ascii_of_nat 34) ?t) with (dq +:+ t).
  rewrite matchHere_Lit.
  as_text (" " +:+ String "l" ("on=" +:+ dq) +:+ (lon +:+ dq) +:+
           String ">" (content +:+ "</trkpt>" +:+ rest)).
  apply (matchHere_Star_seek ">" false "l" ("on=" +:+ dq)); [reflexivity| |reflexivity|].
  { split_avoids; try reflexivity;
      apply (avoids_without_first "l" ("on=" +:+ dq)); assumption. }
  as_text (lon +:+ String (ascii_of_nat 34)
             (String ">" (content +:+ "</trkpt>" +:+ rest))).
  apply (matchHere_Star_run (ascii_of_nat 34) true); [exact Hlon3|].
  change (String (ascii_of_nat 34) ?t) with (dq +:+ t).
  rewrite matchHere_Lit.
  apply (matchHere_Star_run ">" false _ ""); [reflexivity|].
  change (String ">" ?t) with (">" +:+ t).
  rewrite matchHere_Lit.
  now apply (matchHere_Star_lazy true "</trkpt>" []).
Qed.

Lemma exec_timeRegex_pointContent time p :
  occurs "<" time = false →
  ∃ rest, exec timeRegex (pointContent time p) = Some ([time], rest).
Proof.
  intros Htime. eexists. unfold pointContent, timeRegex.
  as_text ((nl +:+ "        ") +:+ "<time>" +:+ time +:+
           String "<" ("/time>" +:+ nl +:+ "        <extensions>" +:+
             concatText (map serializeExtension (tp_extensions p)) +:+ nl +:+
             "        </extensions>" +:+ nl +:+ "      ")).
  rewrite exec_skip by reflexivity. apply exec_here.
  rewrite matchHere_Lit.
  apply (matchHere_Star_run "<" true); [exact Htime|].
  change (String "<" ("/time>" +:+ ?t)) with ("</time>" +:+ t).
  rewrite matchHere_Lit. reflexivity.
Qed.

Lemma collectPoints_step clock st trackContent pointMatch rest :
  exec trkptRegex trackContent = Some (pointMatch, rest) →
  collectPoints clock st trackContent =
  collectPoints clock
    (st.1 ++ [{| point_lat := parseFloat (group pointMatch 1);
                 point_lon := parseFloat (group pointMatch 2);
                 point_at :=
                   (match exec timeRegex (group pointMatch 3) with
                    | Some (timeMatch, _) =>
                        (Date_parseSeconds (group timeMatch 1), st.2)
                    | None => (clock st.2, S st.2)
                    end).1 |}],
     (match exec timeRegex (group pointMatch 3) with
      | Some (timeMatch, _) => (Date_parseSeconds (group timeMatch 1), st.2)
      | None => (clock st.2, S st.2)
      end).2)
    rest.
Proof.
  funelim (collectPoints clock st trackContent); intros Hexec'.
  - rewrite Hexec in Hexec'. injection Hexec' as <- <-. reflexivity.
  - congruence.
Qed.

Lemma collectPoints_done clock st trackContent :
  exec trkptRegex trackContent = None →
  collectPoints clock st trackContent = st.
Proof.
  funelim (collectPoints clock st trackContent); intros Hnone;
    [congruence | reflexivity].
Qed.

(** *** The text of a time *)

Lemma occurs_zeros c n : Ascii.eqb "0" c = false → occurs c (zeros n) = false.
Proof.
  intros Hc. induction n as [|n IH]; [reflexivity|].
  cbn [zeros occurs]. now rewrite Hc, IH.
Qed.

Lemma occurs_pad width z : occurs "<" (pad width z) = false.
Proof.
  unfold pad. rewrite occurs_app, occurs_zeros, occurs_Z_toString; reflexivity.
Qed.

Lemma occurs_isoOfTimeValue ms : occurs "<" (isoOfTimeValue ms) = false.
Proof.
  unfold isoOfTimeValue. destruct (civilFromDays _) as [[y m] d].
  rewrite !occurs_app, !occurs_pad.
  destruct (_ && _); [rewrite occurs_pad; reflexivity|].
  rewrite occurs_app, occurs_pad. now destruct (y <? 0).
Qed.

Lemma serializeTime_plain t time :
  serializeTime t = Some time → occurs "<" time = false.
Proof.
  destruct t as [z|x]; cbn [serializeTime];
    unfold timestampToISO, timestampToISO_Num, Date_toISOString;
    intros (ms & _ & ->)%fmap_Some; apply occurs_isoOfTimeValue.
Qed.

(** *** The points of a track *)

Lemma pointContent_avoids lit' time p :
  occurs "<" time = false →
  Forall (λ field,
    avoids (String "<" lit') (serializeExtension field) = true)
    (tp_extensions p) →
  mismatch (String "<" lit') "<time>" = true →
  mismatch (String "<" lit') "</time>" = true →
  mismatch (String "<" lit') "<extensions>" = true →
  mismatch (String "<" lit') "</extensions>" = true →
  avoids (String "<" lit') (pointContent time p) = true.
Proof.
  intros Htime Hext M1 M2 M3 M4. unfold pointContent.
  change "        <time>" with ("        " +:+ "<time>").
  change "        <extensions>" with ("        " +:+ "<extensions>").
  change "        </extensions>" with ("        " +:+ "</extensions>").
  assert (Hplain : ∀ text, occurs "<" text = false →
            avoids (String "<" lit') text = true)
    by (intros; now apply avoids_without_first).
  assert (Htag : ∀ tag, mismatch (String "<" lit') (String "<" tag) = true →
            occurs "<" tag = false →
            avoids (String "<" lit') (String "<" tag) = true).
  { intros tag Hm Ht. cbn [avoids]. rewrite Hm. now apply Hplain. }
  rewrite ?append_assoc.
  split_avoids;
    try (apply Hplain; first [exact Htime | reflexivity]);
    try (apply Htag; [assumption | reflexivity]).
  apply avoids_concatText, Forall_map. exact Hext.
Qed.

Lemma collectPoints_serialized clock points : ∀ texts before st,
  Forall readablePoint points →
  mapM serializePoint points = Some texts →
  avoids "<trkpt" before = true →
  collectPoints clock st
    (before +:+ concatText texts +:+ "    </trkseg>" +:+ nl +:+ "  ") =
  (st.1 ++ map readPoint points, st.2).
Proof.
  induction points as [|p points IH]; intros texts before st Hr Hs Hb.
  - injection Hs as <-. rewrite collectPoints_done.
    + cbn [map]. rewrite app_nil_r. now destruct st.
    + apply exec_none; [discriminate|].
      cbn [concatText]. split_avoids; try exact Hb; reflexivity.
  - apply Forall_cons in Hr as [(Hlat & Hlon & Hext) Hr].
    cbn [mapM] in Hs. apply bind_Some in Hs as (text & Hp & Hs).
    apply bind_Some in Hs as (texts' & Hps & [= <-]).
    destruct (serializePoint_shape _ _ Hp) as (time & Htime & ->).
    pose proof (serializeTime_plain _ _ Htime) as Hplain.
    assert (Hcontent : avoids "</trkpt>" (pointContent time p) = true).
    { apply pointContent_avoids; try reflexivity; [exact Hplain|].
      eapply Forall_impl; [exact Hext|]. now intros field [? _]. }
    destruct (exec_timeRegex_pointContent time p Hplain) as (after & Hexec).
    rewrite (collectPoints_step clock st _
               [Num_toString (tp_lat p); Num_toString (tp_lon p);
                pointContent time p]
               (nl +:+ concatText texts' +:+ "    </trkseg>" +:+ nl +:+ "  ")).
    + cbn [group nth pred]. rewrite Hexec. cbn [fst snd].
      rewrite IH by (assumption || reflexivity).
      cbn [fst snd map]. rewrite <- app_assoc. cbn [app].
      unfold readPoint at 2. now rewrite Htime.
    + cbn [concatText].
      as_text (before +:+ "      " +:+ "<trkpt" +:+ " " +:+ ("lat=" +:+ dq) +:+
               Num_toString (tp_lat p) +:+ dq +:+ " " +:+ ("lon=" +:+ dq) +:+
               Num_toString (tp_lon p) +:+ dq +:+ ">" +:+ pointContent time p +:+
               "</trkpt>" +:+ nl +:+ concatText texts' +:+ "    </trkseg>" +:+
               nl +:+ "  ").
      unfold trkptRegex at 1. rewrite !exec_skip by (exact Hb || reflexivity).
      apply exec_here. now apply matchHere_trkpt.
Qed.

(** *** The tracks of a document *)

Lemma serializeTrack_shape t text :
  serializeTrack t = Some text →
  ∃ points, mapM serializePoint (trk_points t) = Some points ∧
    text = "  " +:+ "<trk" +:+ ">" +:+ trackContent t points +:+ "</trk>" +:+ nl.
Proof.
  unfold serializeTrack. intros Hs.
  apply bind_Some in Hs as (points & Hpoints & [= <-]).
  exists points. split; [exact Hpoints|]. unfold trackContent. shape.
Qed.

Lemma serializePoint_avoids_trk p text :
  readablePoint p → serializePoint p = Some text →
  avoids "</trk>" text = true.
Proof.
  intros (Hlat & Hlon & Hext) Hp.
  destruct (serializePoint_shape _ _ Hp) as (time & Htime & ->).
  apply numberText_occurs in Hlat as (Hlat & _).
  apply numberText_occurs in Hlon as (Hlon & _).
  split_avoids; try reflexivity;
    try (apply avoids_without_first; assumption).
  apply (pointContent_avoids "/trk>"); try reflexivity.
  - exact (serializeTime_plain _ _ Htime).
  - eapply Forall_impl; [exact Hext|]. now intros field [_ ?].
Qed.

Lemma mapM_Forall2 {A B : Type} (f : A → option B) l k :
  mapM f l = Some k → Forall2 (λ x y, f x = Some y) l k.
Proof.
  revert k. induction l as [|x l IH]; intros k Hm.
  - injection Hm as <-. constructor.
  - cbn [mapM] in Hm. apply bind_Some in Hm as (y & Hy & Hm).
    apply bind_Some in Hm as (k' & Hk & [= <-]). constructor; auto.
Qed.

Lemma trackContent_avoids_trk t points :
  readableTrack t → mapM serializePoint (trk_points t) = Some points →
  avoids "</trk>" (trackContent t points) = true.
Proof.
  intros (Hname & Hdesc & Hpoints) Hm. unfold trackContent.
  split_avoids; try reflexivity;
    try (apply avoids_without_first; assumption).
  apply avoids_concatText. apply mapM_Forall2 in Hm.
  induction Hm as [|p text ps texts Hp _ IH]; constructor.
  - apply Forall_cons in Hpoints as [Hr _].
    exact (serializePoint_avoids_trk _ _ Hr Hp).
  - apply IH. now apply Forall_cons in Hpoints as [_ ?].
Qed.

Lemma matchHere_trk content rest :
  avoids "</trk>" content = true →
  matchHere trackRegex ("<trk" +:+ ">" +:+ content +:+ "</trk>" +:+ rest) =
  Some ([content], rest).
Proof.
  intros Hcontent. unfold trackRegex. rewrite matchHere_Lit.
  apply (matchHere_Star_run ">" false _ ""); [reflexivity|].
  change (String ">" ?t) with (">" +:+ t). rewrite matchHere_Lit.
  now apply (matchHere_Star_lazy true "</trk>" []).
Qed.

Lemma exec_nameRegex_trackContent t points :
  occurs "<" (trk_name t) = false →
  ∃ rest, exec nameRegex (trackContent t points) = Some ([trk_name t], rest).
Proof.
  intros Hname. eexists. unfold trackContent, nameRegex.
  as_text ((nl +:+ "    ") +:+ "<name>" +:+ trk_name t +:+
           String "<" ("/name>" +:+ nl +:+
             "    <desc>" +:+ trk_desc t +:+ "</desc>" +:+ nl +:+
             "    <trkseg>" +:+ nl +:+ concatText points +:+
             "    </trkseg>" +:+ nl +:+ "  ")).
  rewrite exec_skip by reflexivity. apply exec_here.
  rewrite matchHere_Lit.
  apply (matchHere_Star_run "<" true); [exact Hname|].
  change (String "<" ("/name>" +:+ ?t)) with ("</name>" +:+ t).
  rewrite matchHere_Lit. reflexivity.
Qed.

Lemma collectPoints_trackContent clock t points n :
  readableTrack t → mapM serializePoint (trk_points t) = Some points →
  collectPoints clock ([], n) (trackContent t points) =
  (map readPoint (trk_points t), n).
Proof.
  intros (Hname & Hdesc & Hpoints) Hm. unfold trackContent.
  replace (nl +:+ "    <name>" +:+ trk_name t +:+ "</name>" +:+ nl +:+
           "    <desc>" +:+ trk_desc t +:+ "</desc>" +:+ nl +:+
           "    <trkseg>" +:+ nl +:+ concatText points +:+
           "    </trkseg>" +:+ nl +:+ "  ")
    with ((nl +:+ "    <name>" +:+ trk_name t +:+ "</name>" +:+ nl +:+
           "    <desc>" +:+ trk_desc t +:+ "</desc>" +:+ nl +:+
           "    <trkseg>" +:+ nl) +:+ concatText points +:+
           "    </trkseg>" +:+ nl +:+ "  ") by shape.
  rewrite (collectPoints_serialized clock (trk_points t) points); try assumption.
  - reflexivity.
  - split_avoids; try reflexivity;
      apply avoids_without_first; assumption.
Qed.

Lemma collectTracks_step clock st gpxData trackMatch rest :
  exec trackRegex gpxData = Some (trackMatch, rest) →
  collectTracks clock st gpxData =
  collectTracks clock
    (match (collectPoints clock ([], st.2) (group trackMatch 1)).1 with
     | [] => st.1
     | points =>
         st.1 ++
         [{| track_name :=
               match exec nameRegex (group trackMatch 1) with
               | Some (nameMatch, _) => group nameMatch 1
               | None => "Unknown Track"
               end;
             track_points := points |}]
     end,
     (collectPoints clock ([], st.2) (group trackMatch 1)).2)
    rest.
Proof.
  funelim (collectTracks clock st gpxData); intros Hexec'.
  - rewrite Hexec in Hexec'. injection Hexec' as <- <-. reflexivity.
  - congruence.
Qed.

Lemma collectTracks_serialized clock tracks : ∀ texts before st,
  Forall readableTrack tracks →
  mapM serializeTrack tracks = Some texts →
  avoids "<trk" before = true →
  collectTracks clock st (before +:+ concatText texts +:+ "</gpx>") =
  (st.1 ++ omap readTrack tracks, st.2).
Proof.
  induction tracks as [|t tracks IH]; intros texts before st Hr Hs Hb.
  - injection Hs as <-. rewrite collectTracks_no_match.
    + cbn [omap]. rewrite app_nil_r. now destruct st.
    + apply exec_none; [discriminate|].
      cbn [concatText]. split_avoids; try exact Hb; reflexivity.
  - apply Forall_cons in Hr as [Ht Hr].
    cbn [mapM] in Hs. apply bind_Some in Hs as (text & Hp & Hs).
    apply bind_Some in Hs as (texts' & Hps & [= <-]).
    destruct (serializeTrack_shape _ _ Hp) as (points & Hpoints & ->).
    pose proof (trackContent_avoids_trk _ _ Ht Hpoints) as Hcontent.
    destruct (exec_nameRegex_trackContent t points) as (after & Hname);
      [apply Ht|].
    rewrite (collectTracks_step clock st _ [trackContent t points]
               (nl +:+ concatText texts' +:+ "</gpx>")).
    + cbn [group nth pred]. rewrite Hname.
      rewrite (collectPoints_trackContent clock t points _ Ht Hpoints).
      cbn [fst snd]. rewrite IH by (assumption || reflexivity).
      cbn [fst snd].
      change (omap readTrack (t :: tracks))
        with (match readTrack t with
              | Some track => track :: omap readTrack tracks
              | None => omap readTrack tracks
              end).
      destruct (trk_points t) as [|p ps] eqn:E.
      * replace (readTrack t) with (@None OverlayTrack)
          by (unfold readTrack; now rewrite E).
        reflexivity.
      * replace (readTrack t)
          with (Some {| track_name := trk_name t;
                        track_points := map readPoint (p :: ps) |})
          by (unfold readTrack; now rewrite E).
        cbn [map]. now rewrite <- app_assoc.
    + cbn [concatText].
      as_text (before +:+ "  " +:+ "<trk" +:+ ">" +:+ trackContent t points +:+
               "</trk>" +:+ nl +:+ concatText texts' +:+ "</gpx>").
      unfold trackRegex at 1. rewrite !exec_skip by (exact Hb || reflexivity).
      apply exec_here. now apply matchHere_trk.
Qed.

(** The extractor on the text of a document: the tracks that have points,
    in order, with the names as written, the coordinates and times parsed
    from the texts written, and no reading of the clock. *)
Lemma parseGpxTrack_serialize clock doc out :
  readableDocument doc → serialize doc = Some out →
  parseGpxTrack clock out = omap readTrack (doc_tracks doc).
Proof.
  intros (Htitle & Htime & Hdesc & Htracks) Hs. unfold serialize in Hs.
  apply bind_Some in Hs as (texts & Htexts & [= <-]).
  unfold parseGpxTrack.
  match goal with
  | |- (collectTracks _ _ ?text).1 = _ =>
      replace text with
        (("<?xml version=" +:+ dq +:+ "1.0" +:+ dq +:+ " encoding=" +:+ dq +:+
          "UTF-8" +:+ dq +:+ "?>" +:+ nl +:+
          "<gpx version=" +:+ dq +:+ "1.1" +:+ dq +:+ " creator=" +:+ dq +:+
          "decyb-gpx-converter" +:+ dq +:+
          " xmlns=" +:+ dq +:+ "http://www.topografix.com/GPX/1/1" +:+ dq +:+
          ">" +:+ nl +:+
          "  <metadata>" +:+ nl +:+
          "    <name>" +:+ doc_title doc +:+ "</name>" +:+ nl +:+
          "    <time>" +:+ doc_time doc +:+ "</time>" +:+ nl +:+
          "    <desc>" +:+ doc_desc doc +:+ "</desc>" +:+ nl +:+
          "  </metadata>" +:+ nl) +:+ concatText texts +:+ "</gpx>") by shape
  end.
  rewrite (collectTracks_serialized clock (doc_tracks doc) texts);
    try assumption; [reflexivity|].
  split_avoids; try reflexivity;
    apply avoids_without_first; assumption.
Qed.

End ReadBackFacts.

(** *** The documents of the converters *)

Section ReadBackConverters.
Context `{JsNumbers}.
Import ReadBack.

(** [Num_toString] writes numbers: this holds of [String(x)] for every
    double [x]. *)
Hypothesis number_texts : ∀ x : Num, numberText (Num_toString x) = true.

Lemma Num_toString_plain (x : Num) : occurs "<" (Num_toString x) = false.
Proof.
  specialize (number_texts x). unfold numberText in number_texts.
  apply negb_true_iff in number_texts.
  now repeat (apply orb_false_elim in number_texts as [number_texts _]).
Qed.

Lemma serializeExtension_readable key value :
  In key ["dtf"; "ele"; "lap"; "pc"; "overlay"; "color"] →
  occurs "<" value = false →
  avoids "</trkpt>" (serializeExtension (key, value)) = true ∧
  avoids "</trk>" (serializeExtension (key, value)) = true.
Proof.
  intros Hkey Hvalue. cbn [In] in Hkey.
  assert (Hparts : ∀ lit' before after,
            avoids (String "<" lit') before = true →
            avoids (String "<" lit') after = true →
            avoids (String "<" lit') (before +:+ value +:+ after) = true).
  { intros lit' before after Hb Ha. apply avoids_app; [exact Hb|].
    apply avoids_app; [|exact Ha]. now apply avoids_without_first. }
  destruct Hkey as [<-|[<-|[<-|[<-|[<-|[<-|[]]]]]]];
    match goal with
    | |- context [serializeExtension (?key, _)] =>
        change (serializeExtension (key, value))
          with ((nl +:+ "          <" +:+ key +:+ ">") +:+ value +:+
                ("</" +:+ key +:+ ">"))
    end;
    split; apply Hparts; reflexivity.
Qed.

Lemma pointOf_readable moment : readablePoint (pointOf moment).
Proof.
  unfold readablePoint, pointOf.
  cbn [tp_lat tp_lon tp_extensions].
  split; [apply number_texts|]. split; [apply number_texts|].
  unfold extensionsOf. repeat apply Forall_app_2.
  - constructor; [|constructor]. apply serializeExtension_readable;
      [cbn; auto|].
    destruct (moment_dtf moment) as [d|]; [|reflexivity].
    destruct (Num_truthy d); [apply Num_toString_plain | reflexivity].
  - destruct (moment_alt moment); constructor; [|constructor].
    apply serializeExtension_readable; [cbn; auto | apply Num_toString_plain].
  - destruct (moment_lap moment); constructor; [|constructor].
    apply serializeExtension_readable; [cbn; auto | apply Num_toString_plain].
  - destruct (moment_pc moment); constructor; [|constructor].
    apply serializeExtension_readable; [cbn; auto 6 | apply Num_toString_plain].
Qed.

Lemma boatTrack_readable boatToTeam boat :
  readableTrack (boatTrack boatToTeam boat).
Proof.
  destruct (boatTrack_escaped boatToTeam boat "<") as [Hname Hdesc];
    [cbn; auto|].
  split; [exact Hname|]. split; [exact Hdesc|].
  unfold boatTrack. cbn [trk_points]. apply Forall_map, Forall_forall.
  intros moment _. apply pointOf_readable.
Qed.

Lemma overlayTrackOf_readable overlay track :
  occurs "<" (overlay_source overlay) = false →
  occurs "<" (overlay_color overlay) = false →
  readableTrack (overlayTrackOf overlay track).
Proof.
  intros Hsource Hcolor. split; [|split].
  - apply overlayTrackOf_name_escaped. cbn; auto.
  - unfold overlayTrackOf. cbn [trk_desc]. now rewrite occurs_app, Hsource.
  - unfold overlayTrackOf. cbn [trk_points]. apply Forall_map, Forall_forall.
    intros point _. unfold readablePoint, overlayPointOf.
    cbn [tp_lat tp_lon tp_extensions].
    split; [apply number_texts|]. split; [apply number_texts|].
    constructor;
      [apply serializeExtension_readable; [cbn; auto 7 | reflexivity]|].
    constructor;
      [apply serializeExtension_readable; [cbn; auto 7 | exact Hcolor]|].
    constructor.
Qed.

Lemma documentOf_readable now desc raceSetup positions overlays :
  occurs "<" now = false → occurs "<" desc = false →
  Forall (λ overlay,
    occurs "<" (overlay_source overlay) = false ∧
    occurs "<" (overlay_color overlay) = false) overlays →
  readableDocument (documentOf now desc raceSetup positions overlays).
Proof.
  intros Hnow Hdesc Hoverlays. unfold readableDocument.
  split; [apply documentOf_title_escaped; cbn; auto|].
  split; [exact Hnow|]. split; [exact Hdesc|].
  unfold documentOf. cbn [doc_tracks]. apply Forall_app_2.
  - apply Forall_map, Forall_forall. intros boat _. apply boatTrack_readable.
  - apply List.Forall_flat_map. eapply Forall_impl; [exact Hoverlays|].
    intros overlay [Hsource Hcolor]. unfold overlayTracksOf.
    destruct (overlay_tracks overlay) as [tracks|]; [|constructor].
    apply Forall_map, Forall_forall. intros track _.
    now apply overlayTrackOf_readable.
Qed.

(** X25: The extractor reads back what the converters write.  From the text of
    [generateGPX] it returns one track for every boat that has a moment, in
    the order of the positions, under the name written in the file (the
    escaped name and owner), with one point for every moment in the order
    of their timestamps, the coordinates and the time parsed from the texts
    written; from the text of [generateGPXWithOverlays] it returns these
    and then the tracks of the overlays.  Boats without moments are left
    out, and the result does not depend on the clock: every point has its
    time element.  Numbers are taken to be written as [numberText] asks
    (the hypothesis of the section), and the time of generation and the
    source and colour of an overlay to hold no [<]. *)
Theorem parseGpxTrack_reads_back_the_converters
    clock now positions raceSetup overlays :
  occurs "<" now = false →
  Forall (λ overlay,
    occurs "<" (overlay_source overlay) = false ∧
    occurs "<" (overlay_color overlay) = false) overlays →
  (∀ out after,
     generateGPX now positions raceSetup = Some (out, after) →
     parseGpxTrack clock out =
     omap readTrack (map (boatTrack (buildBoatToTeam raceSetup)) positions)) ∧
  (∀ out after,
     generateGPXWithOverlays now positions raceSetup overlays =
       Some (out, after) →
     parseGpxTrack clock out =
     omap readTrack (map (boatTrack (buildBoatToTeam raceSetup)) positions ++
                     flat_map overlayTracksOf overlays)).
Proof.
  intros Hnow Hoverlays. split; intros out after.
  - rewrite generateGPX_serialize.
    intros (text & Hs & [= <- _])%bind_Some.
    assert (Hdoc : readableDocument (documentOf now
              "Converted from race data using decyb-gpx-converter"
              raceSetup positions []))
      by (apply documentOf_readable; [exact Hnow | reflexivity | constructor]).
    rewrite (parseGpxTrack_serialize clock _ _ Hdoc Hs).
    unfold documentOf. cbn [doc_tracks flat_map]. now rewrite app_nil_r.
  - rewrite generateGPXWithOverlays_serialize.
    intros (text & Hs & [= <- _])%bind_Some.
    assert (Hdoc : readableDocument (documentOf now
              "Converted from race data using decyb-gpx-converter with overlays"
              raceSetup positions overlays))
      by (apply documentOf_readable;
            [exact Hnow | reflexivity | exact Hoverlays]).
    now rewrite (parseGpxTrack_serialize clock _ _ Hdoc Hs).
Qed.

End ReadBackConverters.

(* ===================================================================== *)
(** ** The time written *)
(* ===================================================================== *)

Section Times.
Context `{JsNumbers}.

Lemma time_of_day (timestamp : Z) :
  let t := (timestamp * 1000) mod 86400000 in
  t / 3600000 = timestamp mod 86400 / 3600 ∧
  t / 60000 mod 60 = timestamp / 60 mod 60 ∧
  t / 1000 mod 60 = timestamp mod 60 ∧
  t mod 1000 = 0.
Proof.
  cbn zeta. repeat split; Z.div_mod_to_equations; lia.
Qed.

Lemma timestampToISO_hour_minute_second (timestamp : Z) :
  inDateRange timestamp →
  ∃ date,
    timestampToISO timestamp =
    Some (date +:+ "T" +:+ pad 2 (timestamp mod 86400 / 3600) +:+ ":" +:+
          pad 2 (timestamp / 60 mod 60) +:+ ":" +:+
          pad 2 (timestamp mod 60) +:+ ".000Z").
Proof.
  intros Hrange. unfold inDateRange in Hrange.
  unfold timestampToISO, timeClip.
  replace (Z.abs (timestamp * 1000) <=? 8640000000000000) with true
    by (symmetry; apply Z.leb_le; lia).
  cbn [Date_toISOString fmap option_fmap option_map]. unfold isoOfTimeValue.
  destruct (civilFromDays _) as [[y m] d].
  destruct (time_of_day timestamp) as (-> & -> & -> & ->).
  exists ((if (0 <=? y) && (y <=? 9999) then pad 4 y
           else (if y <? 0 then "-" else "+") +:+ pad 6 (Z.abs y)) +:+
          "-" +:+ pad 2 m +:+ "-" +:+ pad 2 d).
  rewrite !append_assoc. reflexivity.
Qed.

(** X26: The points of the boats are written to the second.  In the
    documents both converters write, the time of the point of every moment
    of a boat has, as time of day, the hour of the day, the minute and the
    second of the moment's timestamp (an integer number of seconds; a day
    has 86400 of them), and its milliseconds are [000].  Nothing is said of
    the points of an overlay, whose time need not be a whole second. *)
Theorem boat_points_are_written_to_the_second
    now positions raceSetup overlays i boat :
  Forall validBoat positions → Forall validOverlay overlays →
  positions !! i = Some boat →
  ∃ doc doc' trk sorted,
    writes (generateGPX now positions raceSetup) doc ∧
    writes (generateGPXWithOverlays now positions raceSetup overlays) doc' ∧
    doc_tracks doc !! i = Some trk ∧
    doc_tracks doc' !! i = Some trk ∧
    sorted ≡ₚ boat_moments boat ∧
    Forall2 (λ moment point,
        ∃ date,
          serializeTime (tp_time point) =
          Some (date +:+ "T" +:+
                pad 2 (moment_at moment mod 86400 / 3600) +:+ ":" +:+
                pad 2 (moment_at moment / 60 mod 60) +:+ ":" +:+
                pad 2 (moment_at moment mod 60) +:+ ".000Z"))
      sorted (trk_points trk).
Proof.
  intros Hp Ho Hi.
  eexists _, _, _, (Array_sort byTimestamp (boat_moments boat)).
  split; [exact (generateGPX_writes now positions raceSetup Hp)|].
  split; [exact (generateGPXWithOverlays_writes now positions raceSetup overlays Hp Ho)|].
  split; [exact (documentOf_track _ _ _ _ _ _ _ Hi)|].
  split; [exact (documentOf_track _ _ _ _ _ _ _ Hi)|].
  split; [apply Array_sort_Permutation|].
  assert (Hvalid : Forall (λ moment, inDateRange (moment_at moment))
                     (Array_sort byTimestamp (boat_moments boat))).
  { rewrite (Array_sort_Permutation byTimestamp (boat_moments boat)).
    exact (Forall_lookup_1 _ _ _ _ Hp Hi). }
  unfold boatTrack. cbn [trk_points].
  induction Hvalid as [|moment sorted Hm _ IH]; cbn [map]; constructor;
    [|exact IH].
  cbn [pointOf tp_time serializeTime].
  now apply timestampToISO_hour_minute_second.
Qed.

End Times.

(* ===================================================================== *)
(** ** Further runs on the sample *)
(* ===================================================================== *)

Module MoreRuns.
Import Sample MoreSample Cli.WithOverlay Downloader ReadBack.

Lemma escapeXml_injective_witness :
  escapeXml "R&D <1>" = escapeXml "R&D <1>" ∧ "R&D <1>" = "R&D <1>".
Proof.
  split; [reflexivity|].
  apply (escapeXml_injective "R&D <1>" "R&D <1>"). reflexivity.
Defined.

Lemma output_independent_of_moment_order_witness :
  generateGPX "NOW" shuffled raceSetup = generateGPX "NOW" ordered raceSetup ∧
  generateGPXWithOverlays "NOW" shuffled raceSetup [overlay] =
    generateGPXWithOverlays "NOW" ordered raceSetup [overlay].
Proof.
  apply (output_independent_of_moment_order "NOW" shuffled ordered raceSetup
           [overlay]).
  constructor; [|constructor]. split; [reflexivity|]. split.
  - exact (Permutation_cons_append [moment 10 2; moment 20 3] (moment 30 1)).
  - cbn. exact (bool_decide_unpack (NoDup [30; 10; 20]) I).
Defined.

Lemma converters_again_witness :
  ∃ out out' after,
    generateGPX "NOW" positions raceSetup = Some (out, after) ∧
    generateGPXWithOverlays "NOW" positions raceSetup [overlay] =
      Some (out', after) ∧
    generateGPX "NOW" after raceSetup = Some (out, after) ∧
    generateGPXWithOverlays "NOW" after raceSetup [overlay] = Some (out', after).
Proof.
  destruct (generateGPX_returns "NOW" positions raceSetup) as (out & _ & E);
    [SampleRuns.valid_positions|].
  destruct (generateGPXWithOverlays_returns "NOW" positions raceSetup [overlay])
    as (out' & _ & E'); [SampleRuns.valid_positions | SampleRuns.valid_overlays |].
  exists out, out', (map visitedBoat positions).
  destruct (converters_again "NOW" positions raceSetup [overlay] _ _ _ _ E E')
    as (_ & Hagain & Hagain').
  repeat split; assumption.
Defined.

Lemma parseGpxTrack_of_text_without_track_witness :
  includes "</trk>" "<gpx><trk><name>Leg 1</name><trkseg>" = false ∧
  parseGpxTrack clock "<gpx><trk><name>Leg 1</name><trkseg>" = [].
Proof.
  split; [reflexivity|].
  apply (parseGpxTrack_of_text_without_track clock
           "<gpx><trk><name>Leg 1</name><trkseg>").
  right. right. reflexivity.
Defined.

Lemma parseArgs_output_file_first_witness :
  ∃ options,
    parseArgs ["p.json"; "s.json"; "out.gpx"; "--overlay"; "o.gpx"; "late.gpx"] =
      Run options ∧
    outputFile options = "out.gpx".
Proof.
  eexists. split; [reflexivity|].
  apply (parseArgs_output_file_first "p.json" "s.json" "out.gpx"
           ["--overlay"; "o.gpx"; "late.gpx"]); reflexivity.
Defined.

Lemma parseArgs_overlay_name_without_overlay_witness :
  (∃ options,
     parseArgs ["p.json"; "s.json"; "--overlay-name"; "Leg 1";
                "--overlay"; "o.gpx"] = Run options ∧
     outputFile options = "Leg 1") ∧
  parseArgs ["p.json"; "s.json"; "out.gpx"; "--overlay-name"; "Leg 1";
             "--overlay"; "o.gpx"] =
  parseArgs ["p.json"; "s.json"; "out.gpx"; "Leg 1"; "--overlay"; "o.gpx"] ∧
  ∃ options,
    parseArgs ["p.json"; "s.json"; "out.gpx"; "--overlay-name"; "Leg 1";
               "--overlay"; "o.gpx"] = Run options ∧
    outputFile options = "out.gpx".
Proof.
  destruct (parseArgs_overlay_name_without_overlay "--overlay-name" "Leg 1"
              ["--overlay"; "o.gpx"]) as (Hskip & _ & Hset & Hfirst);
    [left; reflexivity|].
  split; [eexists; split; [reflexivity|];
          apply (Hfirst "p.json" "s.json"); reflexivity|].
  split.
  - exact (Hskip (withOutputFile
                    (describedOptions "p.json" "s.json"
                       "race_tracks_with_overlay.gpx" []) "out.gpx")
                 true eq_refl).
  - eexists. split; [reflexivity|].
    exact (Hset (withOutputFile
                   (describedOptions "p.json" "s.json"
                      "race_tracks_with_overlay.gpx" []) "out.gpx")
                _ eq_refl eq_refl).
Defined.


Lemma parseArgs_of_both_scripts_witness :
  Cli.Json2gpx.parseArgs ["p.json"; "s.json"; "out.gpx"; "--overlay"] =
    Some {| Cli.Json2gpx.args_positionsFile := "p.json";
            Cli.Json2gpx.args_raceSetupFile := "s.json";
            Cli.Json2gpx.args_outputFile := "out.gpx" |} ∧
  parseArgs ["p.json"; "s.json"; "out.gpx"] =
    Run (describedOptions "p.json" "s.json" "out.gpx" []).
Proof.
  apply (parseArgs_of_both_scripts "p.json" "s.json" "out.gpx" ["--overlay"]);
    [discriminate | reflexivity].
Defined.


Lemma convertToGpxUrl_keeps_MapShare_url_witness :
  isMapShareUrl "https://share.garmin.com/zimmer" = true ∧
  convertToGpxUrl "https://share.garmin.com/zimmer" =
    "https://share.garmin.com/zimmer".
Proof.
  split; [reflexivity|].
  apply (convertToGpxUrl_keeps_MapShare_url "https://share.garmin.com/zimmer").
  reflexivity.
Defined.

Example convertToGpxUrl_activity :
  convertToGpxUrl "https://connect.garmin.com/modern/activity/1234567890?x=1" =
  "https://connect.garmin.com/modern/proxy/activity-service-1.1/json/activity/1234567890/details".
Proof. reflexivity. Qed.

Example extractActivityId_leftmost :
  extractActivityId "/activity/x/activity/12a/activity/345" = Some "12".
Proof. reflexivity. Qed.

Lemma IntegerNumbers_number_texts (x : Num) :
  numberText (Num_toString x) = true.
Proof.
  destruct x as [z|]; [|reflexivity].
  unfold numberText. cbn [Num_toString IntegerNumbers].
  now rewrite !occurs_Z_toString.
Qed.

Lemma parseGpxTrack_reads_back_the_converters_witness :
  ∃ out out' after,
    generateGPX "2025-07-24T06:00:00.000Z" positions raceSetup =
      Some (out, after) ∧
    generateGPXWithOverlays "2025-07-24T06:00:00.000Z" positions raceSetup
      [overlay] = Some (out', after) ∧
    parseGpxTrack clock out =
      omap readTrack (map (boatTrack (buildBoatToTeam raceSetup)) positions) ∧
    parseGpxTrack clock out' =
      omap readTrack (map (boatTrack (buildBoatToTeam raceSetup)) positions ++
                      flat_map overlayTracksOf [overlay]).
Proof.
  destruct (generateGPX_returns "2025-07-24T06:00:00.000Z" positions raceSetup)
    as (out & _ & E); [SampleRuns.valid_positions|].
  destruct (generateGPXWithOverlays_returns "2025-07-24T06:00:00.000Z" positions
              raceSetup [overlay])
    as (out' & _ & E'); [SampleRuns.valid_positions | SampleRuns.valid_overlays |].
  exists out, out', (map visitedBoat positions).
  destruct (parseGpxTrack_reads_back_the_converters IntegerNumbers_number_texts
              clock "2025-07-24T06:00:00.000Z" positions raceSetup [overlay])
    as [Hboats Hall]; [reflexivity | repeat constructor |].
  repeat split; [exact E | exact E' | exact (Hboats _ _ E) | exact (Hall _ _ E')].
Defined.

(** Read back by evaluation: the file written for the sample holds the
    tracks of the two boats that have moments, under the names written. *)
Example parseGpxTrack_generateGPX_sample :
  (λ result, map track_name (parseGpxTrack clock result.1)) <$>
    generateGPX "2025-07-24T06:00:00.000Z" positions raceSetup =
  Some ["Aimant &lt;de&gt; Fille (Steven &amp; Ernest)"; "Boat 2 (Unknown)"].
Proof. reflexivity. Qed.

Example parseGpxTrack_generateGPX_boat2 :
  (λ result, parseGpxTrack clock result.1) <$>
    generateGPX "2025-07-24T06:00:00.000Z" [boat2] raceSetup =
  Some [{| track_name := "Boat 2 (Unknown)";
           track_points :=
             [{| point_lat := Some 22; point_lon := Some (-158);
                 point_at := Some 1753333200 |}] |}].
Proof. reflexivity. Qed.

Lemma boat_points_are_written_to_the_second_witness :
  ∃ doc doc' trk sorted,
    writes (generateGPX "NOW" positions raceSetup) doc ∧
    writes (generateGPXWithOverlays "NOW" positions raceSetup [overlay]) doc' ∧
    doc_tracks doc !! 1%nat = Some trk ∧
    doc_tracks doc' !! 1%nat = Some trk ∧
    sorted ≡ₚ boat_moments boat2 ∧
    Forall2 (λ moment point,
        ∃ date,
          serializeTime (tp_time point) =
          Some (date +:+ "T" +:+
                pad 2 (moment_at moment mod 86400 / 3600) +:+ ":" +:+
                pad 2 (moment_at moment / 60 mod 60) +:+ ":" +:+
                pad 2 (moment_at moment mod 60) +:+ ".000Z"))
      sorted (trk_points trk).
Proof.
  apply (boat_points_are_written_to_the_second "NOW" positions raceSetup
           [overlay] 1 boat2);
    [SampleRuns.valid_positions | SampleRuns.valid_overlays | reflexivity].
Defined.

Example timestampToISO_to_the_second :
  timestampToISO 1753333259 = Some "2025-07-24T05:00:59.000Z".
Proof. reflexivity. Qed.

End MoreRuns.
